(** * Display lists of bonsai's runner ([src/runner/display_list.js])

    A shallow embedding of the display-list module: the [DisplayList] class
    ([add], [clear], [remove]), the activation helpers, the [methods] mixin
    surface, and the older mixin that follows the module's [return]
    statement.  Objects live in a store indexed by their identity; the
    display list of an owner is the entry of that owner in [children]. *)

From Stdlib Require Import ZArith.
From stdpp Require Import gmap strings list fin_maps.

Set Warnings "-register-all,-clear-no-such-hyp".
Local Open Scope nat_scope.

(** ** Objects and the store *)

(** Which method table an object carries: a plain [DisplayObject], an object
    with [methods] mixed in, or one with [timelineMethods] mixed in. *)
Inductive kind := Plain | Owner | Timeline.

(** The store.  Objects and stages are identified by natural numbers.  A key
    that is absent from [parent], [next] or [stage] reads as [undefined].
    [children] holds, for every object that owns a display list, the
    [children] array of that list; a slot of the array is [None] when it is a
    hole.  The three registry collections of a stage [g] are kept as sets of
    pairs [(g, id)]. *)
Record state := State {
  proto : gmap nat kind;
  parent : gmap nat nat;
  next : gmap nat nat;
  stage : gmap nat nat;
  children : gmap nat (list (option nat));
  displayObjects : gset (nat * nat);
  needsInsertion : gset (nat * nat);
  movies : gset (nat * nat)
}.

Definition kind_of (s : state) (x : nat) : kind := default Plain (proto s !! x).

Definition with_parent (f : gmap nat nat -> gmap nat nat) (s : state) : state :=
  State (proto s) (f (parent s)) (next s) (stage s) (children s)
        (displayObjects s) (needsInsertion s) (movies s).

Definition with_next (f : gmap nat nat -> gmap nat nat) (s : state) : state :=
  State (proto s) (parent s) (f (next s)) (stage s) (children s)
        (displayObjects s) (needsInsertion s) (movies s).

Definition with_stage (f : gmap nat nat -> gmap nat nat) (s : state) : state :=
  State (proto s) (parent s) (next s) (f (stage s)) (children s)
        (displayObjects s) (needsInsertion s) (movies s).

Definition with_children
    (f : gmap nat (list (option nat)) -> gmap nat (list (option nat)))
    (s : state) : state :=
  State (proto s) (parent s) (next s) (stage s) (f (children s))
        (displayObjects s) (needsInsertion s) (movies s).

Definition with_displayObjects (f : gset (nat * nat) -> gset (nat * nat))
    (s : state) : state :=
  State (proto s) (parent s) (next s) (stage s) (children s)
        (f (displayObjects s)) (needsInsertion s) (movies s).

Definition with_needsInsertion (f : gset (nat * nat) -> gset (nat * nat))
    (s : state) : state :=
  State (proto s) (parent s) (next s) (stage s) (children s)
        (displayObjects s) (f (needsInsertion s)) (movies s).

Definition with_movies (f : gset (nat * nat) -> gset (nat * nat))
    (s : state) : state :=
  State (proto s) (parent s) (next s) (stage s) (children s)
        (displayObjects s) (needsInsertion s) (f (movies s)).

(** Assigning a reference or [undefined] to a property. *)
Definition assign (k : nat) (v : option nat) (m : gmap nat nat) : gmap nat nat :=
  match v with
  | Some y => <[k:=y]> m
  | None => delete k m
  end.

(** ** Outcomes and the monad of the embedding *)

(** How a call ends.  [TypeError] is the error the engine raises by itself
    (a property of [undefined], a call of something that is not a function);
    [Thrown] is a [throw] statement of the source; [Diverges] is a loop that
    was still running when the fuel ran out.  Mutations made before an error
    stay in the store. *)
Inductive error :=
| TypeError
| Thrown (msg : string)
| Diverges.

Inductive outcome (A : Type) :=
| Normal (a : A)
| Abrupt (e : error).

Arguments Normal {A} a.
Arguments Abrupt {A} e.

Definition M (A : Type) : Type := state -> state * outcome A.

Definition ret {A} (a : A) : M A := fun s => (s, Normal a).

Definition raise {A} (e : error) : M A := fun s => (s, Abrupt e).

Definition bind {A B} (m : M A) (k : A -> M B) : M B := fun s =>
  match m s with
  | (s', Normal a) => k a s'
  | (s', Abrupt e) => (s', Abrupt e)
  end.

#[global] Instance M_ret : MRet M := @ret.
#[global] Instance M_bind : MBind M := fun A B k m => bind m k.

Definition get {A} (f : state -> A) : M A := fun s => (s, Normal (f s)).
Definition modify (f : state -> state) : M unit := fun s => (f s, Normal tt).

(** ** JavaScript arrays with holes *)

(** [arr[i]]: the element, or [undefined] for a hole or an index out of range. *)
Definition aget (arr : list (option nat)) (i : nat) : option nat :=
  mjoin (arr !! i).

(** [arr.indexOf(x)]: the first index holding [x], [None] for [-1]. *)
Definition indexOf (arr : list (option nat)) (x : nat) : option nat :=
  fst <$> list_find (fun slot => slot = Some x) arr.

(** [arr.splice(i, 0, x1, ..., xn)]. *)
Definition splice_in (i : nat) (xs : list nat) (arr : list (option nat))
    : list (option nat) :=
  take i arr ++ (Some <$> xs) ++ drop i arr.

(** [arr.splice(i, 1)] is stdpp's [delete i arr]. *)

(** A container is dense when none of its slots is a hole. *)
Definition dense (arr : list (option nat)) : Prop := Forall is_Some arr.

(** ** Numbers passed as insertion index *)

(** A JavaScript number: a finite value [num/den], or one of the three
    specials. *)
Inductive jsnum :=
| Finite (num : Z) (den : positive)
| NaN
| PosInf
| NegInf.

(** A possibly [undefined] argument. *)
Inductive jsarg :=
| JUndefined
| JNumber (n : jsnum).

Definition to_number (v : jsarg) : jsnum :=
  match v with
  | JUndefined => NaN
  | JNumber n => n
  end.

(** [n >>> 0]: [ToUint32], truncation towards zero followed by reduction
    modulo [2^32]; [NaN] and the infinities give [0]. *)
Definition ToUint32 (n : jsnum) : Z :=
  match n with
  | Finite num den => ((num ÷ Z.pos den) mod 2 ^ 32)%Z
  | _ => 0%Z
  end.

(** ** Activation *)

Definition stage_of (x : nat) : M (option nat) := get (fun s => stage s !! x).
Definition parent_of (x : nat) : M (option nat) := get (fun s => parent s !! x).
Definition next_of (x : nat) : M (option nat) := get (fun s => next s !! x).
Definition set_parent (x : nat) (v : option nat) : M unit :=
  modify (with_parent (assign x v)).
Definition set_next (x : nat) (v : option nat) : M unit :=
  modify (with_next (assign x v)).

(** Modelled from the spec: [DisplayObject.prototype._activate] of
    [./display_object], which is not among the sources.  It records the
    stage on the object and, when there is a stage, enters the object in the
    registry's attached-objects and needs-update maps. *)
Definition DisplayObject_activate (x : nat) (stg : option nat) : M unit :=
  modify (fun s =>
    match stg with
    | Some g =>
        with_needsInsertion (union {[ (g, x) ]})
          (with_displayObjects (union {[ (g, x) ]})
             (with_stage (insert x g) s))
    | None => with_stage (delete x) s
    end).

(** Modelled from the spec: [DisplayObject.prototype._deactivate] of
    [./display_object].  A staged object leaves the registry's
    attached-objects and needs-update maps and loses its stage reference. *)
Definition DisplayObject_deactivate (x : nat) : M unit :=
  modify (fun s =>
    match stage s !! x with
    | Some g =>
        with_needsInsertion (fun r => r ∖ {[ (g, x) ]})
          (with_displayObjects (fun r => r ∖ {[ (g, x) ]})
             (with_stage (delete x) s))
    | None => s
    end).

(** [this.children] as [activate] and [deactivate] read it.  On an object
    that carries [methods] the property [children] is the method
    [children: function(newChildren)] of the same table (the array of
    children is [this.displayList.children]).  A function with one formal
    parameter has [length] 1 and no indexed element: [children[i]] is
    [undefined] for every [i], never a display object. *)
Definition this_children_length : nat := 1.
Definition this_children_element (i : nat) : option Empty_set := None.

(** The loop [for (i = 0; i < length; i += 1) children[i].m(...)] of
    [activate] and [deactivate], [n] iterations being left.  The method is
    looked up on [children[i]]; on [undefined] that is a [TypeError]. *)
Fixpoint each_child (i n : nat) : M unit :=
  match n with
  | 0 => ret tt
  | S n' =>
      match this_children_element i with
      | Some c => match c return M unit with end ;; each_child (S i) n'
      | None => raise TypeError
      end
  end.

(** [activate] (lines 128-134). *)
Definition activate (x : nat) (stg : option nat) : M unit :=
  DisplayObject_activate x stg ;;
  each_child 0 this_children_length.

(** [deactivate] (lines 136-142). *)
Definition deactivate (x : nat) : M unit :=
  DisplayObject_deactivate x ;;
  each_child 0 this_children_length.

(** [timelineMethods] (lines 216-229).  [tools.mixin] is not among the
    sources; the two methods of the object literal are taken to be the
    [_activate] and [_deactivate] of the result. *)
Module timelineMethods.

Definition _activate (x : nat) (stg : option nat) : M unit :=
  activate x stg ;;
  match stg with
  | Some g => modify (with_movies (union {[ (g, x) ]}))
  | None => ret tt
  end.

Definition _deactivate (x : nat) : M unit :=
  stg ← stage_of x;
  match stg with
  | Some g => modify (with_movies (fun r => r ∖ {[ (g, x) ]}))
  | None => ret tt
  end ;;
  deactivate x.

End timelineMethods.

(** [x._activate(stg)] and [x._deactivate()], dispatched on the method table
    the object carries. *)
Definition _activate (x : nat) (stg : option nat) : M unit := fun s =>
  match kind_of s x with
  | Plain => DisplayObject_activate x stg s
  | Owner => activate x stg s
  | Timeline => timelineMethods._activate x stg s
  end.

Definition _deactivate (x : nat) : M unit := fun s =>
  match kind_of s x with
  | Plain => DisplayObject_deactivate x s
  | Owner => deactivate x s
  | Timeline => timelineMethods._deactivate x s
  end.

(** ** The [DisplayList] class *)

(** [getAncestors] (lines 9-17): the object and its chain of parents.  The
    [do ... while] loop runs as long as there is a parent; [fuel] bounds the
    number of iterations. *)
Fixpoint getAncestors (fuel : nat) (s : state) (displayObject : nat)
    : option (list nat) :=
  match fuel with
  | 0 => None
  | S fuel' =>
      match parent s !! displayObject with
      | None => Some [displayObject]
      | Some p => cons displayObject <$> getAncestors fuel' s p
      end
  end.

(** The [children] array of the display list owned by [owner]; an object
    without display list has no [displayList] to call a method on. *)
Definition children_of (owner : nat) : M (list (option nat)) := fun s =>
  match children s !! owner with
  | Some arr => (s, Normal arr)
  | None => (s, Abrupt TypeError)
  end.

Definition set_children (owner : nat) (arr : list (option nat)) : M unit :=
  modify (with_children (insert owner arr)).

(** [DisplayList.prototype.remove] (lines 114-125). *)
Definition remove (owner : nat) (displayObject : nat) : M unit :=
  arr ← children_of owner;
  match indexOf arr displayObject with
  | None => ret tt
  | Some childIndex =>
      (if 0 <? childIndex then
         match aget arr (childIndex - 1) with
         | Some prev => nx ← next_of displayObject; set_next prev nx
         | None => raise TypeError
         end
       else ret tt) ;;
      set_parent displayObject None ;;
      set_next displayObject None ;;
      _deactivate displayObject ;;
      arr' ← children_of owner;
      set_children owner (delete childIndex arr')
  end.

(** The loop of [DisplayList.prototype.clear] (lines 102-105), at index [i]
    with [n] slots left.  It stops at the first [undefined] element. *)
Fixpoint clear_loop (owner : nat) (i n : nat) : M unit :=
  match n with
  | 0 => ret tt
  | S n' =>
      arr ← children_of owner;
      match aget arr i with
      | None => ret tt
      | Some child =>
          _deactivate child ;;
          set_parent child None ;;
          set_next child None ;;
          clear_loop owner (S i) n'
      end
  end.

(** [DisplayList.prototype.clear] (lines 100-107).  The body of the loop
    never changes the length of the array, and [children[length]] is
    [undefined], so [length] iterations are all the loop can make. *)
Definition clear (owner : nat) : M unit :=
  arr ← children_of owner;
  clear_loop owner 0 (length arr) ;;
  set_children owner [].

(** The first argument of [add]: one display object, or an array of them. *)
Inductive items :=
| Single (child : nat)
| Many (child : list nat).

Definition numNewChildren (child : items) : nat :=
  match child with
  | Single _ => 1
  | Many cs => length cs
  end.

Definition first_item (child : items) : option nat :=
  match child with
  | Single c => Some c
  | Many cs => head cs
  end.

Definition items_list (child : items) : list nat :=
  match child with
  | Single c => [c]
  | Many cs => cs
  end.

(** The three guards of [add] (lines 59-65). *)
Definition rejected (ancestors : list nat) (child : items) : bool :=
  match child with
  | Single c => bool_decide (c ∈ ancestors)
  | Many cs =>
      existsb (fun c => bool_decide (c ∈ ancestors)) cs || (length cs =? 0)
  end.

(** [insertAt] as resolved on lines 69-70; [None] is a call with one
    argument. *)
Definition resolve_insertAt (insertAt : option jsarg) (numExistingChildren : nat)
    : nat :=
  match insertAt with
  | Some v => Z.to_nat (Z.min (ToUint32 (to_number v)) (Z.of_nat numExistingChildren))
  | None => numExistingChildren
  end.

(** The loop of [add] (lines 82-93) at index [i], [n] iterations being left.
    [children] is read from the store at every use, because the loop body can
    change the very array through [remove]. *)
Fixpoint add_loop (owner : nat) (i n : nat) (nextChild : option nat) : M unit :=
  match n with
  | 0 => ret tt
  | S n' =>
      arr ← children_of owner;
      match (match nextChild with Some c => Some c | None => aget arr i end) with
      | None => raise TypeError
      | Some child =>
          previousParent ← parent_of child;
          match previousParent with
          | Some p => remove p child
          | None => ret tt
          end ;;
          arr' ← children_of owner;
          let nextChild' := aget arr' (i + 1) in
          set_next child nextChild' ;;
          set_parent child (Some owner) ;;
          stg ← stage_of owner;
          _activate child stg ;;
          add_loop owner (S i) n' nextChild'
      end
  end.

(** [DisplayList.prototype.add] (lines 52-95). *)
Definition add (fuel : nat) (owner : nat) (child : items)
    (insertAt : option jsarg) : M unit := fun s =>
  match getAncestors fuel s owner with
  | None => (s, Abrupt Diverges)
  | Some ancestors =>
      if rejected ancestors child then (s, Normal tt)
      else
        (arr ← children_of owner;
         let at_ := resolve_insertAt insertAt (length arr) in
         set_children owner (splice_in at_ (items_list child) arr) ;;
         (if 0 <? at_ then
            arr' ← children_of owner;
            match aget arr' (at_ - 1) with
            | Some prev => set_next prev (first_item child)
            | None => raise TypeError
            end
          else ret tt) ;;
         add_loop owner at_ (numNewChildren child) None) s
  end.

(** ** The [methods] mixin surface (lines 150-212) *)

(** What a call [this.displayList.name(...)] finds.  A [DisplayList] has the
    own properties [children] and [owner] (lines 31-34) and the methods of
    [DisplayList.prototype] (lines 36-126): [add], [clear] and [remove]. *)
Definition DisplayList_prototype : list string := ["add"; "clear"; "remove"].

(** [this.displayList.name(...)], [body] being the method of that name.  For
    a name the prototype lacks the callee is [undefined] and the call is a
    [TypeError], whatever [body] is. *)
Definition call_displayList {A} (this : nat) (name : string) (body : M A)
    : M A :=
  _ ← children_of this;
  if bool_decide (name ∈ DisplayList_prototype) then body else raise TypeError.

(** The value a mixin method returns: the owner ([this]) or the array of
    children. *)
Inductive returned :=
| This (this : nat)
| Array (arr : list (option nat)).

Module methods.

(** [addChild] (lines 175-178): both parameters are always passed on, so
    [add] sees two arguments even for [addChild(child)]. *)
Definition addChild (fuel : nat) (this : nat) (child : items) (index : jsarg)
    : M returned :=
  call_displayList this "add" (add fuel this child (Some index)) ;;
  mret (This this).

(** [children] (lines 185-193); [None] is the call without argument. *)
Definition children (fuel : nat) (this : nat) (newChildren : option items)
    : M returned :=
  match newChildren with
  | Some cs =>
      call_displayList this "clear" (clear this) ;;
      call_displayList this "add" (add fuel this cs None) ;;
      mret (This this)
  | None => arr ← children_of this; mret (Array arr)
  end.

(** [clear] (lines 198-201). *)
Definition clear (this : nat) : M returned :=
  call_displayList this "clear" (clear this) ;;
  mret (This this).

(** [getComputed] (lines 202-204). *)
Definition getComputed (this : nat) (key : string) : M returned :=
  raise (Thrown "implement me").

(** [getIndexOfChild] (lines 205-207): the call names a method the display
    list does not have, and passes no argument. *)
Definition getIndexOfChild (this : nat) (child : nat) : M returned :=
  call_displayList this "getIndexOfChild" (raise TypeError).

(** [removeChild] (lines 208-211): the method of the display list that
    removes a child is [remove]; the call names [removeChild]. *)
Definition removeChild (this : nat) (child : nat) : M returned :=
  call_displayList this "removeChild" (raise TypeError : M unit) ;;
  mret (This this).

End methods.

(** ** Sequences of calls on the exported class *)

(** A call a client can make on the exported [DisplayList]: the constructor
    [new DisplayList(owner)] stored as [owner.displayList], and the three
    methods. *)
Inductive call :=
| New (owner : nat)
| Add (owner : nat) (child : items) (insertAt : option jsarg)
| Clear (owner : nat)
| Remove (owner : nat) (displayObject : nat).

Definition run_call (fuel : nat) (c : call) : M unit :=
  match c with
  | New owner => set_children owner []
  | Add owner child insertAt => add fuel owner child insertAt
  | Clear owner => clear owner
  | Remove owner displayObject => remove owner displayObject
  end.

(** The store after a sequence of calls; a call that ends in an error leaves
    its mutations behind and the client goes on. *)
Definition run_calls (fuel : nat) (cs : list call) (s : state) : state :=
  foldl (fun s c => (run_call fuel c s).1) s cs.

Definition all_dense (s : state) : Prop :=
  ∀ owner arr, children s !! owner = Some arr -> dense arr.

(** ** The module body *)

Module Factory.

(** The values the top-level names of the module are bound to. *)
Inductive definition :=
| DisplayList_class       (* function DisplayList, line 31, and its prototype *)
| methods_object          (* the object literal of line 150 *)
| timelineMethods_object  (* tools.mixin({...}, methods), line 216 *)
| DisplayList_mixin.      (* the object literal of line 244 *)

Inductive expr :=
| Var (name : string)
| Lit (d : definition).

(** The statements of the factory function that bind or return one of
    these values, in source order. *)
Inductive statement :=
| Assign (name : string) (d : definition)
| Return (properties : list (string * expr)).

Definition body : list statement :=
  [ Assign "DisplayList" DisplayList_class;              (* lines 31-126 *)
    Assign "methods" methods_object;                     (* line 150 *)
    Return [ ("DisplayList", Var "DisplayList");         (* lines 213-230 *)
             ("methods", Var "methods");
             ("timelineMethods", Lit timelineMethods_object) ];
    Assign "DisplayList" DisplayList_mixin;              (* line 244 *)
    Return [ ("DisplayList", Var "DisplayList") ] ].     (* line 531 *)

Definition eval (env : gmap string definition) (e : expr)
    : option definition :=
  match e with
  | Var name => env !! name
  | Lit d => Some d
  end.

(** Running the statements: the first [return] ends the function. *)
Fixpoint run (env : gmap string definition) (stmts : list statement)
    : list (string * option definition) :=
  match stmts with
  | [] => []
  | Assign name d :: rest => run (<[name:=d]> env) rest
  | Return properties :: _ =>
      (fun '(name, e) => (name, eval env e)) <$> properties
  end.

Definition exports : list (string * option definition) := run ∅ body.

(** Which of the values has a method taking a [removalStrategy]
    ([removeChild], line 470). *)
Definition takes_removalStrategy (d : definition) : bool :=
  match d with
  | DisplayList_mixin => true
  | _ => false
  end.

End Factory.

(** ** The mixin after the module's [return] (lines 244-529) *)

Module Mixin.

(** *** The list methods (lines 374-397 and 455-528)

    [this._children] is the entry of [this] in [children]; it is absent
    until a child is added. *)

(** The second argument of [removeChild]: the string ['keepIndexes'], or
    anything else ([undefined], ['changeIndexes'], the index that [map]
    passes in [clear]), which all take the same branch of line 488. *)
Inductive removalStrategy := keepIndexes | changeIndexes.

(** [getIndexOfChild] (lines 455-458); [None] is [-1]. *)
Definition getIndexOfChild (this child : nat) (s : state) : option nat :=
  arr ← children s !! this; indexOf arr child.

(** The loop of lines 479-485, started at [i - 1]: the nearest element
    before index [i] that is not a hole. *)
Fixpoint previous_sibling (arr : list (option nat)) (i : nat) : option nat :=
  match i with
  | 0 => None
  | S i' =>
      match aget arr i' with
      | Some previous => Some previous
      | None => previous_sibling arr i'
      end
  end.

Section RemoveChild.

(** Lines 510-525, the part of [removeChild] that runs for a child with a
    stage: [markUpdate], the registry and [tools.removeValueFromArray] are
    defined outside this file. *)
Variable leave_stage : nat -> M unit.

(** [removeChild] (lines 470-528). *)
Definition removeChild (this child : nat) (strategy : removalStrategy)
    : M returned := fun s =>
  match getIndexOfChild this child s with
  | None => (s, Normal (This this))
  | Some index =>
      (arr ← children_of this;
       match previous_sibling arr index with
       | Some previous => nx ← next_of child; set_next previous nx
       | None => ret tt
       end ;;
       nx ← next_of child;
       set_children this
         match nx, strategy with
         | Some _, keepIndexes => <[index:=None]> arr
         | Some _, changeIndexes => delete index arr
         | None, _ => take index arr
         end ;;
       set_parent child None ;;
       set_next child None ;;
       stg ← stage_of child;
       match stg with
       | Some _ => leave_stage child
       | None => ret tt
       end ;;
       mret (This this)) s
  end.

(** [clear] (lines 391-397): [map] calls [removeChild(child, index, array)]
    for every element of the copy that is not a hole, so the removal
    strategy is a number and never ['keepIndexes']. *)
Definition clear (this : nat) : M returned := fun s =>
  match children s !! this with
  | None => (s, Normal (This this))
  | Some arr =>
      foldr (fun child rest => removeChild this child changeIndexes ;; rest)
        (mret (This this)) (omap id arr) s
  end.

End RemoveChild.

Local Open Scope Z_scope.

Inductive edge := top | right | bottom | left.

Record box := Box { b_top : Z; b_right : Z; b_bottom : Z; b_left : Z }.

(** A display object as [getComputed] sees it: its position and either its
    own computed edges (a child that defines its sizing itself) or, for an
    object carrying the mixin, its [_children] array, [None] while the
    property does not exist.  Coordinates are integers. *)
Inductive node :=
| Leaf (x y : Z) (size : box)
| Group (x y : Z) (_children : option (list (option node))).

Definition attr_x (n : node) : Z :=
  match n with Leaf x _ _ | Group x _ _ => x end.
Definition attr_y (n : node) : Z :=
  match n with Leaf _ y _ | Group _ y _ => y end.

Definition edge_of (key : edge) (b : box) : Z :=
  match key with
  | top => b_top b
  | right => b_right b
  | bottom => b_bottom b
  | left => b_left b
  end.

(** Lines 403-404. *)
Definition attribute (key : edge) (n : node) : Z :=
  match key with
  | top | bottom => attr_y n
  | right | left => attr_x n
  end.

Definition compare (key : edge) : Z -> Z -> Z :=
  match key with
  | top | left => Z.min
  | right | bottom => Z.max
  end.

(** The state of the reduction of lines 406-416: the accumulator, the
    flag [isFirst], and the children visited so far as the calls left
    them. *)
Record acc := Acc { current : Z; isFirst : bool; visited : list (option node) }.

(** The callback of [tools.reduce] on one slot: [None] for a hole, else the
    child as it was, what [child.getComputed(key)] returned, and the child
    after that call.  [child.attr(...)] is read before the call. *)
Definition step (key : edge) (a : acc) (slot : option (node * (Z * node)))
    : acc :=
  match slot with
  | None => Acc (current a) (isFirst a) (visited a ++ [None])
  | Some (child, (result, child')) =>
      let childValue := attribute key child + result in
      Acc (if isFirst a then childValue else compare key (current a) childValue)
          false (visited a ++ [Some child'])
  end.

(** [getComputed(key)] for an edge key (lines 399-416): the value returned
    and the object after the call. *)
Fixpoint getComputed (key : edge) (n : node) : Z * node :=
  match n with
  | Leaf x y size => (edge_of key size, n)
  | Group x y _children =>
      let callback (a : acc) (slot : option node) : acc :=
        step key a
          match slot with
          | Some child => Some (child, getComputed key child)
          | None => None
          end in
      (* var children = this._children || (this._children = []) *)
      let a :=
        match _children with
        | Some children => fold_left callback children (Acc 0 true [])
        | None => fold_left callback [] (Acc 0 true [])
        end in
      (current a, Group x y (Some (visited a)))
  end.

(** The callback, named. *)
Definition visit (key : edge) (a : acc) (slot : option node) : acc :=
  step key a
    match slot with
    | Some child => Some (child, getComputed key child)
    | None => None
    end.

(** The spec's reading: the value of a child is its position along the
    axis plus its own computed value; the result is the extremum of the
    values of the non-hole children, [0] when there are none. *)
Definition child_value (key : edge) (child : node) : Z :=
  attribute key child + (getComputed key child).1.

Definition extremum (key : edge) (values : list Z) : Z :=
  match values with
  | [] => 0
  | v :: vs => fold_left (compare key) vs v
  end.

Definition spec_getComputed (key : edge) (children : list (option node)) : Z :=
  extremum key (child_value key <$> omap id children).

(** The state of the reduction of lines 418-441: the four edges of the
    object [size] (its [width] and [height] are written after the
    reduction), the flag [isFirst], and the children visited so far as the
    calls left them. *)
Record size_acc :=
  SizeAcc { edges : box; size_isFirst : bool; size_visited : list (option node) }.

(** The callback of lines 418-440 on one slot: [None] for a hole, else what
    [child.getComputed('size')] returned and the child after that call.
    [child.attr('x')] and [child.attr('y')] are read after the call. *)
Definition size_step (a : size_acc) (slot : option (box * node)) : size_acc :=
  match slot with
  | None => SizeAcc (edges a) (size_isFirst a) (size_visited a ++ [None])
  | Some (childSize, child') =>
      let childX := attr_x child' in
      let childY := attr_y child' in
      let childTop := childY + b_top childSize in
      let childRight := childX + b_right childSize in
      let childBottom := childY + b_bottom childSize in
      let childLeft := childX + b_left childSize in
      let first := size_isFirst a in
      SizeAcc
        (Box (if first then childTop else Z.min (b_top (edges a)) childTop)
             (if first then childRight
              else Z.max (b_right (edges a)) childRight)
             (if first then childBottom
              else Z.max (b_bottom (edges a)) childBottom)
             (if first then childLeft else Z.min (b_left (edges a)) childLeft))
        false (size_visited a ++ [Some child'])
  end.

(** The reduction of lines 418-441: the four edges of [size] after it, and
    the object after the call.  A child that defines its sizing itself
    answers [getComputed('size')] with its own box. *)
Fixpoint computed_size (n : node) : box * node :=
  match n with
  | Leaf x y size => (size, n)
  | Group x y _children =>
      let callback (a : size_acc) (slot : option node) : size_acc :=
        size_step a
          match slot with
          | Some child => Some (computed_size child)
          | None => None
          end in
      let a :=
        match _children with
        | Some children =>
            fold_left callback children (SizeAcc (Box 0 0 0 0) true [])
        | None => fold_left callback [] (SizeAcc (Box 0 0 0 0) true [])
        end in
      (edges a, Group x y (Some (size_visited a)))
  end.

Definition size_visit (a : size_acc) (slot : option node) : size_acc :=
  size_step a
    match slot with
    | Some child => Some (computed_size child)
    | None => None
    end.

(** The keys of the second branch that name a property of [size]. *)
Inductive size_key := key_size | key_width | key_height.

(** The object [size] as returned: its edges, [width] and [height]. *)
Record sizes := Sizes { s_edges : box; s_width : Z; s_height : Z }.

Inductive computed :=
| Whole (size : sizes)
| Number (v : Z).

(** [getComputed(key)] for a key of the second branch (lines 417-447), on
    an object carrying the mixin. *)
Definition getComputed_size (key : size_key) (x y : Z)
    (_children : option (list (option node))) : computed * node :=
  let r := computed_size (Group x y _children) in
  let size :=
    Sizes r.1 (b_right r.1 - b_left r.1) (b_bottom r.1 - b_top r.1) in
  (match key with
   | key_size => Whole size
   | key_width => Number (s_width size)
   | key_height => Number (s_height size)
   end, r.2).

(** Every box a child answers with has its top above its bottom and its
    left before its right. *)
Fixpoint proper (n : node) : Prop :=
  match n with
  | Leaf _ _ size => b_top size ≤ b_bottom size ∧ b_left size ≤ b_right size
  | Group _ _ None => True
  | Group _ _ (Some children) =>
      fold_right (fun slot P =>
        match slot with Some c => proper c | None => True end ∧ P)
        True children
  end.

(** Every object carrying the mixin, at any depth, has its [_children]
    array. *)
Fixpoint initialised (n : node) : Prop :=
  match n with
  | Leaf _ _ _ => True
  | Group _ _ None => False
  | Group _ _ (Some children) =>
      fold_right (fun slot P =>
        match slot with Some c => initialised c | None => True end ∧ P)
        True children
  end.

(** Induction on display objects that reaches the children of a group. *)
Fixpoint node_children_ind (P : node -> Prop)
    (HLeaf : ∀ x y size, P (Leaf x y size))
    (HNone : ∀ x y, P (Group x y None))
    (HSome : ∀ x y children,
       Forall (fun slot => match slot with Some c => P c | None => True end)
         children ->
       P (Group x y (Some children)))
    (n : node) : P n :=
  match n with
  | Leaf x y size => HLeaf x y size
  | Group x y None => HNone x y
  | Group x y (Some children) =>
      HSome x y children
        ((fix go (l : list (option node))
            : Forall (fun slot =>
                match slot with Some c => P c | None => True end) l :=
            match l with
            | [] => @List.Forall_nil _ _
            | slot :: rest =>
                @List.Forall_cons _ _ slot rest
                  match slot
                    return match slot with Some c => P c | None => True end
                  with
                  | Some c => node_children_ind P HLeaf HNone HSome c
                  | None => I
                  end
                  (go rest)
            end) children)
  end.

(** The three children of the spec's example. *)
Definition three_children : list (option node) :=
  [ Some (Leaf 0 0 (Box 0 10 0 0));
    Some (Leaf 20 0 (Box 0 5 0 0));
    Some (Leaf (-5) 0 (Box 0 3 0 0)) ].

End Mixin.

(** ** Sample stores *)

(** Object 0 is a root owner with children 1, 2, 3; object 1 owns a display
    list with the child 4; all are plain display objects and the links are
    consistent. *)
Definition family : state :=
  State ∅
        (list_to_map [(1, 0); (2, 0); (3, 0); (4, 1)])
        (list_to_map [(1, 2); (2, 3)])
        ∅
        (list_to_map [(0, [Some 1; Some 2; Some 3]); (1, [Some 4])])
        ∅ ∅ ∅.

(** As [family], but object 2 carries [methods] and owns an empty display
    list. *)
Definition family_with_group : state :=
  State (list_to_map [(2, Owner)])
        (list_to_map [(1, 0); (2, 0); (3, 0); (4, 1)])
        (list_to_map [(1, 2); (2, 3)])
        ∅
        (list_to_map [(0, [Some 1; Some 2; Some 3]); (1, [Some 4]); (2, [])])
        ∅ ∅ ∅.

(** Owner 0 has the single child 1, owner 5 the single child 6. *)
Definition two_owners : state :=
  State ∅
        (list_to_map [(1, 0); (6, 5)])
        ∅
        ∅
        (list_to_map [(0, [Some 1]); (5, [Some 6])])
        ∅ ∅ ∅.

(** Owner 0 has the single child 2, which carries [methods]. *)
Definition one_group_child : state :=
  State (list_to_map [(2, Owner)])
        (list_to_map [(2, 0)])
        ∅
        ∅
        (list_to_map [(0, [Some 2]); (2, [])])
        ∅ ∅ ∅.

(** ** Vocabulary of the statements *)

(** [is_ancestor s b a]: [b] is [a] itself or is reached from [a] by parent
    links. *)
Inductive is_ancestor (s : state) : nat -> nat -> Prop :=
| anc_self a : is_ancestor s a a
| anc_parent b a p :
    parent s !! a = Some p -> is_ancestor s b p -> is_ancestor s b a.

(** [hoare P m Q E]: from a store satisfying [P], [m] ends normally with a
    value and store satisfying [Q], or abruptly with an error and store
    satisfying [E]. *)
Definition hoare {A} (P : state -> Prop) (m : M A)
    (Q : A -> state -> Prop) (E : error -> state -> Prop) : Prop :=
  ∀ s, P s ->
    match m s with
    | (s', Normal a) => Q a s'
    | (s', Abrupt e) => E e s'
    end.

(** An invariant [I] that [m] keeps on every exit. *)
Definition keeps {A} (I : state -> Prop) (m : M A) : Prop :=
  hoare I m (fun _ => I) (fun _ => I).

(** [no_throw m]: [m] never ends through a [throw] statement. *)
Definition no_throw {A} (m : M A) : Prop :=
  ∀ s msg, (m s).2 ≠ Abrupt (Thrown msg).

(** [wp m Q s]: from [s], [m] ends normally, with a value and store
    satisfying [Q]. *)
Definition wp {A} (m : M A) (Q : A -> state -> Prop) (s : state) : Prop :=
  match m s with
  | (s', Normal a) => Q a s'
  | (_, Abrupt _) => False
  end.

(** What one iteration of the loop of [add] does to a child without parent
    that is a plain display object: [next] becomes the element after it,
    [parent] the owner, and the child is activated on the owner's stage. *)
Definition attach (owner : nat) (nx : option nat) (x : nat) (s : state) : state :=
  (DisplayObject_activate x (stage s !! owner)
     (with_parent (assign x (Some owner)) (with_next (assign x nx) s))).1.

Fixpoint attach_all (owner : nat) (arr : list (option nat)) (i : nat)
    (xs : list nat) (s : state) : state :=
  match xs with
  | [] => s
  | x :: rest =>
      attach_all owner arr (S i) rest (attach owner (aget arr (i + 1)) x s)
  end.

(** The sibling links of the objects of a container follow its index
    order: the [next] of the object at index [i] is the element at [i + 1],
    [undefined] for the last one. *)
Definition linked (s : state) (arr : list (option nat)) : Prop :=
  ∀ i x, aget arr i = Some x -> next s !! x = aget arr (i + 1).

(** The structure of a store is consistent: every container is dense and
    holds distinct objects, whose parent is the owner and whose sibling
    links follow the index order; every object with a parent sits in the
    container of that parent; an object without parent has no next
    sibling. *)
Definition well_formed (s : state) : Prop :=
  (∀ o arr, children s !! o = Some arr ->
     dense arr ∧ NoDup arr ∧ linked s arr ∧
     ∀ x, Some x ∈ arr -> parent s !! x = Some o) ∧
  (∀ x p, parent s !! x = Some p ->
     ∃ arr, children s !! p = Some arr ∧ Some x ∈ arr) ∧
  (∀ x, parent s !! x = None -> next s !! x = None).

(** Owner 0 has the children 1 and 2, linked in that order; there is no
    other object in the structure. *)
Definition couple : state :=
  State ∅
        (list_to_map [(1, 0); (2, 0)])
        (list_to_map [(1, 2)])
        ∅
        (list_to_map [(0, [Some 1; Some 2])])
        ∅ ∅ ∅.

(** As [couple], with a further object 7 that carries [methods] and has no
    parent. *)
Definition couple_and_group : state :=
  State (list_to_map [(7, Owner)])
        (list_to_map [(1, 0); (2, 0)])
        (list_to_map [(1, 2)])
        ∅
        (list_to_map [(0, [Some 1; Some 2])])
        ∅ ∅ ∅.

(** The store has the method tables [P] and the display lists of the owners
    [D]. *)
Definition same_objects (P : gmap nat kind) (D : gset nat) (s : state) : Prop :=
  proto s = P ∧ dom (children s) = D.



(** A property of the store that fixes the owners of a display list to [D]
    and survives a change of sibling links, stages and registry, the loss
    of a parent, the gain of a parent among [D], and the replacement of the
    container of an owner among [D]. *)
Definition frame_closed (D : gset nat) (I : state -> Prop) : Prop :=
  (∀ s, I s -> dom (children s) = D) ∧
  (∀ f, (∀ s, proto (f s) = proto s ∧ parent (f s) = parent s ∧
              children (f s) = children s) -> ∀ s, I s -> I (f s)) ∧
  (∀ x s, I s -> I (with_parent (assign x None) s)) ∧
  (∀ x o s, o ∈ D -> I s -> I (with_parent (assign x (Some o)) s)) ∧
  (∀ o arr s, o ∈ D -> I s -> I (with_children (insert o arr) s)).



(** Owner 0 carries the mixin and has the sparse children array
    [1, <hole>, 2, 3]; the sibling links skip the hole. *)
Definition sparse : state :=
  State ∅
        (list_to_map [(1, 0); (2, 0); (3, 0)])
        (list_to_map [(1, 2); (2, 3)])
        ∅
        (list_to_map [(0, [Some 1; None; Some 2; Some 3])])
        ∅ ∅ ∅.

(** The store after the first part of [add] (lines 67-80): the new objects
    are spliced in at [k] and the object before them, if any, points to the
    first of them. *)
Definition spliced (owner : nat) (arr : list (option nat)) (child : items)
    (k : nat) (s : state) : state :=
  let s0 := with_children (insert owner (splice_in k (items_list child) arr)) s in
  if 0 <? k
  then match aget arr (k - 1) with
       | Some prev => with_next (assign prev (first_item child)) s0
       | None => s0
       end
  else s0.

(** Two stores that can differ in containers and sibling links only. *)
Definition same_registry (s t : state) : Prop :=
  proto s = proto t ∧ parent s = parent t ∧ stage s = stage t ∧
  displayObjects s = displayObjects t ∧ needsInsertion s = needsInsertion t ∧
  movies s = movies t.

(** Whether [m] bounds [v] on the side of the edge: from below for [top]
    and [left], from above for [right] and [bottom]. *)
Definition bounds (key : Mixin.edge) (m v : Z) : Prop :=
  match key with
  | Mixin.top | Mixin.left => (m ≤ v)%Z
  | Mixin.right | Mixin.bottom => (v ≤ m)%Z
  end.

(** The spec's reading of an integer insertion index: clamped to the
    interval from [0] to the current length. *)
Definition clamp (i : Z) (numExistingChildren : nat) : nat :=
  Z.to_nat (Z.max 0 (Z.min i (Z.of_nat numExistingChildren))).

(** The store [remove] leaves when the display object is a plain one found
    at index [k]: the object before it is relinked, the object is unlinked
    and deactivated, and the slot is spliced out. *)
Definition relinked (arr : list (option nat)) (x k : nat) (s : state) : state :=
  if 0 <? k
  then match aget arr (k - 1) with
       | Some prev => with_next (assign prev (next s !! x)) s
       | None => s
       end
  else s.

Definition unlinked (x : nat) (s : state) : state :=
  (DisplayObject_deactivate x
     (with_next (assign x None) (with_parent (assign x None) s))).1.

Definition removed (owner : nat) (arr : list (option nat)) (x k : nat)
    (s : state) : state :=
  with_children (insert owner (delete k arr)) (unlinked x (relinked arr x k s)).

(** [remove] called on each element of [rs], in that order. *)
Definition remove_each (owner : nat) (rs : list nat) : M unit :=
  foldr (fun x rest => remove owner x ;; rest) (mret tt) rs.

(** [s'] is [s] with the container of [owner] emptied and the objects of
    [l] detached: no parent, no next sibling, no stage, and out of the
    registry maps of the stage they had; everything else is as in [s]. *)
Definition all_detached (s : state) (owner : nat) (l : list nat) (s' : state)
    : Prop :=
  proto s' = proto s ∧ movies s' = movies s ∧
  children s' = <[owner:=[]]> (children s) ∧
  (∀ y, parent s' !! y = if decide (y ∈ l) then None else parent s !! y) ∧
  (∀ y, next s' !! y = if decide (y ∈ l) then None else next s !! y) ∧
  (∀ y, stage s' !! y = if decide (y ∈ l) then None else stage s !! y) ∧
  (∀ g y, (g, y) ∈ displayObjects s' ↔
     (g, y) ∈ displayObjects s ∧ ¬ (y ∈ l ∧ stage s !! y = Some g)) ∧
  (∀ g y, (g, y) ∈ needsInsertion s' ↔
     (g, y) ∈ needsInsertion s ∧ ¬ (y ∈ l ∧ stage s !! y = Some g)).

(** The store after some of the children have been removed: [rem] is what
    is left of the container, [R] the objects removed so far.  The sibling
    links of the objects still in the container are not constrained. *)
Definition partly_detached (s : state) (owner : nat) (rem R : list nat)
    (si : state) : Prop :=
  proto si = proto s ∧ movies si = movies s ∧
  children si = <[owner:=Some <$> rem]> (children s) ∧
  (∀ y, parent si !! y = if decide (y ∈ R) then None else parent s !! y) ∧
  (∀ y, stage si !! y = if decide (y ∈ R) then None else stage s !! y) ∧
  (∀ y, y ∈ R -> next si !! y = None) ∧
  (∀ y, y ∉ R -> y ∉ rem -> next si !! y = next s !! y) ∧
  (∀ g y, (g, y) ∈ displayObjects si ↔
     (g, y) ∈ displayObjects s ∧ ¬ (y ∈ R ∧ stage s !! y = Some g)) ∧
  (∀ g y, (g, y) ∈ needsInsertion si ↔
     (g, y) ∈ needsInsertion s ∧ ¬ (y ∈ R ∧ stage s !! y = Some g)).

(** ** Ancestors *)


Lemma getAncestors_complete fuel s a anc b :
  getAncestors fuel s a = Some anc -> is_ancestor s b a -> b ∈ anc.
Proof.
  intros Hanc Hb. revert fuel anc Hanc.
  induction Hb as [a|b a p Hp Hb IH]; intros [|fuel] anc; simpl; try done.
  - destruct (parent s !! a); [destruct (getAncestors fuel s n); simpl|];
      intros [= <-]; try done; apply elem_of_cons; by left.
  - rewrite Hp. destruct (getAncestors fuel s p) as [rest|] eqn:Hrest;
      simpl; [|done].
    intros [= <-]. apply elem_of_cons. right. eauto.
Qed.

Lemma getAncestors_mono fuel fuel' s a anc :
  getAncestors fuel s a = Some anc -> fuel ≤ fuel' ->
  getAncestors fuel' s a = Some anc.
Proof.
  revert fuel' a anc. induction fuel as [|fuel IH]; intros fuel' a anc; [done|].
  destruct fuel' as [|fuel']; [lia|]. simpl.
  destruct (parent s !! a) as [p|]; [|done].
  destruct (getAncestors fuel s p) as [rest|] eqn:Hrest; simpl; [|done].
  intros [= <-] Hle. rewrite (IH fuel' p rest); [done|done|lia].
Qed.

(** A chain of parents that reaches an object without parent is walked to
    its end with enough fuel. *)
Lemma getAncestors_terminates s a r :
  is_ancestor s r a -> parent s !! r = None ->
  ∃ fuel anc, getAncestors fuel s a = Some anc.
Proof.
  induction 1 as [a|b a p Hp Hb IH]; intros Hroot.
  - exists 1, [a]. simpl. by rewrite Hroot.
  - destruct (IH Hroot) as (fuel & anc & Hanc).
    exists (S fuel), (a :: anc). simpl. by rewrite Hp, Hanc.
Qed.

Lemma indexOf_None arr x : Some x ∉ arr -> indexOf arr x = None.
Proof.
  intros Hx. unfold indexOf.
  destruct (list_find _ arr) as [[i slot]|] eqn:Hfind; [|done].
  apply list_find_Some in Hfind as (Hi & -> & _).
  exfalso. apply Hx. by eapply list_elem_of_lookup_2.
Qed.

Lemma rejected_single anc b : b ∈ anc -> rejected anc (Single b) = true.
Proof. intros. simpl. by apply bool_decide_eq_true. Qed.

Lemma rejected_many anc bs b :
  b ∈ bs -> b ∈ anc -> rejected anc (Many bs) = true.
Proof.
  intros Hbs Hanc. simpl. apply orb_true_iff. left.
  apply existsb_exists. exists b. split.
  - by apply list_elem_of_In.
  - by apply bool_decide_eq_true.
Qed.

(** ** Rejected insertions and removals *)

(** C1.  Under an owner [A] whose chain of parents ends, with enough fuel
    for [getAncestors] to walk it: [add] of an empty array, [add] of [A] or
    of an ancestor of [A] (alone or as an element of an array), with or
    without an index, and [remove] of an object that is not in the children
    container of [A], all return normally and leave the whole store (the
    container, every parent, next and stage reference, the registry) as it
    was. *)
Theorem structural_conflicts_are_noops
    (s : state) (A r : nat) (arr : list (option nat)) :
  children s !! A = Some arr ->
  is_ancestor s r A -> parent s !! r = None ->
  ∃ fuel0, ∀ fuel, fuel0 ≤ fuel ->
    (∀ insertAt, add fuel A (Many []) insertAt s = (s, Normal tt)) ∧
    (∀ b insertAt, is_ancestor s b A ->
       add fuel A (Single b) insertAt s = (s, Normal tt)) ∧
    (∀ bs b insertAt, b ∈ bs -> is_ancestor s b A ->
       add fuel A (Many bs) insertAt s = (s, Normal tt)) ∧
    (∀ x, Some x ∉ arr -> remove A x s = (s, Normal tt)).
Proof.
  intros Harr Hr Hroot.
  destruct (getAncestors_terminates s A r Hr Hroot) as (fuel0 & anc & Hanc).
  exists fuel0. intros fuel Hle.
  pose proof (getAncestors_mono _ _ _ _ _ Hanc Hle) as Hanc'.
  repeat split.
  - intros insertAt. unfold add. by rewrite Hanc'.
  - intros b insertAt Hb. unfold add. rewrite Hanc'.
    rewrite rejected_single; [done|]. by eapply getAncestors_complete.
  - intros bs b insertAt Hbs Hb. unfold add. rewrite Hanc'.
    rewrite (rejected_many anc bs b); [done|done|].
    by eapply getAncestors_complete.
  - intros x Hx. unfold remove, mbind, M_bind, bind, children_of.
    rewrite Harr. by rewrite indexOf_None.
Qed.

Lemma structural_conflicts_are_noops_witness :
  ∃ fuel0, ∀ fuel, fuel0 ≤ fuel ->
    (∀ insertAt, add fuel 1 (Many []) insertAt family = (family, Normal tt)) ∧
    (∀ b insertAt, is_ancestor family b 1 ->
       add fuel 1 (Single b) insertAt family = (family, Normal tt)) ∧
    (∀ bs b insertAt, b ∈ bs -> is_ancestor family b 1 ->
       add fuel 1 (Many bs) insertAt family = (family, Normal tt)) ∧
    (∀ x, Some x ∉ [Some 4] -> remove 1 x family = (family, Normal tt)).
Proof.
  apply (structural_conflicts_are_noops family 1 0 [Some 4]).
  - reflexivity.
  - apply (anc_parent family 0 1 0); [reflexivity | apply anc_self].
  - reflexivity.
Defined.

(** ** A Hoare logic for the monad *)

Lemma hoare_ret {A} (a : A) (P : state -> Prop) Q E :
  (∀ s, P s -> Q a s) -> hoare P (mret a) Q E.
Proof. intros H s Hs. by apply H. Qed.

Lemma hoare_raise {A} e (P : state -> Prop) (Q : A -> state -> Prop)
    (E : error -> state -> Prop) :
  (∀ s, P s -> E e s) -> hoare P (raise e) Q E.
Proof. intros H s Hs. by apply H. Qed.

Lemma hoare_get {A} (f : state -> A) (P : state -> Prop) Q E :
  (∀ s, P s -> Q (f s) s) -> hoare P (get f) Q E.
Proof. intros H s Hs. by apply H. Qed.

Lemma hoare_modify f (P : state -> Prop) Q E :
  (∀ s, P s -> Q tt (f s)) -> hoare P (modify f) Q E.
Proof. intros H s Hs. by apply H. Qed.

Lemma hoare_bind {A B} (m : M A) (k : A -> M B) P Q R E :
  hoare P m Q E -> (∀ a, hoare (Q a) (k a) R E) -> hoare P (m ≫= k) R E.
Proof.
  intros Hm Hk s Hs. specialize (Hm s Hs).
  unfold mbind, M_bind, bind. destruct (m s) as [s' [a|e]]; [|done].
  by apply Hk.
Qed.

Lemma hoare_weaken {A} (m : M A) (P P' : state -> Prop) Q E :
  hoare P' m Q E -> (∀ s, P s -> P' s) -> hoare P m Q E.
Proof. intros Hm HP s Hs. apply Hm. by apply HP. Qed.

Lemma hoare_post {A} (m : M A) (P : state -> Prop)
    (Q Q' : A -> state -> Prop) E :
  hoare P m Q' E -> (∀ a s, Q' a s -> Q a s) -> hoare P m Q E.
Proof.
  intros Hm HQ s Hs. specialize (Hm s Hs).
  destruct (m s) as [s' [a|e]]; [by apply HQ|done].
Qed.

Lemma keeps_bind {A B} I (m : M A) (k : A -> M B) :
  keeps I m -> (∀ a, keeps I (k a)) -> keeps I (m ≫= k).
Proof. intros Hm Hk. eapply hoare_bind; [exact Hm|exact Hk]. Qed.

Lemma keeps_ret {A} I (a : A) : keeps I (mret a).
Proof. by apply hoare_ret. Qed.

Lemma keeps_raise {A} I e : keeps I (raise e : M A).
Proof. by apply hoare_raise. Qed.

Lemma keeps_get {A} I (f : state -> A) : keeps I (get f).
Proof. by apply hoare_get. Qed.

Lemma keeps_run {A} I (m : M A) s : keeps I m -> I s -> I (m s).1.
Proof.
  intros Hm Hs. specialize (Hm s Hs). by destruct (m s) as [s' [a|e]].
Qed.

(** ** Density of the children containers *)

Lemma dense_splice_in i xs arr : dense arr -> dense (splice_in i xs arr).
Proof.
  intros Harr. unfold dense, splice_in. rewrite !Forall_app. repeat split.
  - by apply Forall_take.
  - apply Forall_fmap, Forall_forall. intros x _. by eexists.
  - by apply Forall_drop.
Qed.

Lemma dense_delete k arr : dense arr -> dense (delete k arr).
Proof. apply Forall_delete. Qed.

Lemma keeps_dense_modify f :
  (∀ s, children (f s) = children s) -> keeps all_dense (modify f).
Proof.
  intros Hf. apply hoare_modify. intros s Hs owner arr.
  rewrite Hf. apply Hs.
Qed.

Lemma keeps_dense_set_children owner arr :
  dense arr -> keeps all_dense (set_children owner arr).
Proof.
  intros Harr. apply hoare_modify. intros s Hs o a. simpl.
  rewrite lookup_insert. case_decide; [by intros [= <-]|apply Hs].
Qed.

Lemma hoare_dense_children_of owner :
  hoare all_dense (children_of owner)
    (fun arr s => all_dense s ∧ dense arr) (fun _ => all_dense).
Proof.
  intros s Hs. unfold children_of.
  destruct (children s !! owner) as [arr|] eqn:Harr; [|done].
  split; [done|]. by eapply Hs.
Qed.

Lemma keeps_each_child I i n : keeps I (each_child i n).
Proof. destruct n; simpl; [apply (keeps_ret I tt)|apply keeps_raise]. Qed.

Lemma keeps_dense_DisplayObject_activate x stg :
  keeps all_dense (DisplayObject_activate x stg).
Proof. apply keeps_dense_modify. intros s. by destruct stg. Qed.

Lemma keeps_dense_DisplayObject_deactivate x :
  keeps all_dense (DisplayObject_deactivate x).
Proof. apply keeps_dense_modify. intros s. by destruct (stage s !! x). Qed.

Lemma keeps_dense_activate x stg : keeps all_dense (_activate x stg).
Proof.
  intros s Hs. unfold _activate.
  destruct (kind_of s x).
  - by apply keeps_dense_DisplayObject_activate.
  - revert s Hs. apply keeps_bind.
    + apply keeps_dense_DisplayObject_activate.
    + intros _. apply keeps_each_child.
  - revert s Hs. apply keeps_bind.
    + apply keeps_bind.
      * apply keeps_dense_DisplayObject_activate.
      * intros _. apply keeps_each_child.
    + intros _. destruct stg; [by apply keeps_dense_modify|apply keeps_ret].
Qed.

Lemma keeps_dense_deactivate x : keeps all_dense (_deactivate x).
Proof.
  intros s Hs. unfold _deactivate.
  destruct (kind_of s x).
  - by apply keeps_dense_DisplayObject_deactivate.
  - revert s Hs. apply keeps_bind.
    + apply keeps_dense_DisplayObject_deactivate.
    + intros _. apply keeps_each_child.
  - revert s Hs. apply keeps_bind; [apply keeps_get|]. intros stg.
    apply keeps_bind.
    + destruct stg; [by apply keeps_dense_modify|apply keeps_ret].
    + intros _. apply keeps_bind.
      * apply keeps_dense_DisplayObject_deactivate.
      * intros _. apply keeps_each_child.
Qed.

Lemma keeps_dense_set_next x v : keeps all_dense (set_next x v).
Proof. by apply keeps_dense_modify. Qed.

Lemma keeps_dense_set_parent x v : keeps all_dense (set_parent x v).
Proof. by apply keeps_dense_modify. Qed.

Lemma keeps_dense_remove owner x : keeps all_dense (remove owner x).
Proof.
  unfold remove. eapply hoare_bind; [apply hoare_dense_children_of|].
  intros arr. apply (hoare_weaken _ _ all_dense); [|by intros s [? _]].
  destruct (indexOf arr x) as [k|]; [|apply keeps_ret].
  apply keeps_bind.
  { destruct (0 <? k); [|apply keeps_ret].
    destruct (aget arr (k - 1)); [|apply keeps_raise].
    apply keeps_bind; [apply keeps_get|]. intros nx.
    apply keeps_dense_set_next. }
  intros _. apply keeps_bind; [apply keeps_dense_set_parent|].
  intros _. apply keeps_bind; [apply keeps_dense_set_next|].
  intros _. apply keeps_bind; [apply keeps_dense_deactivate|].
  intros _. eapply hoare_bind; [apply hoare_dense_children_of|].
  intros arr' s [Hs Harr']. revert s Hs.
  apply keeps_dense_set_children. by apply dense_delete.
Qed.

Lemma keeps_dense_clear_loop owner i n : keeps all_dense (clear_loop owner i n).
Proof.
  revert i. induction n as [|n IH]; intros i; simpl; [apply keeps_ret|].
  eapply hoare_bind; [apply hoare_dense_children_of|].
  intros arr. apply (hoare_weaken _ _ all_dense); [|by intros s [? _]].
  destruct (aget arr i) as [child|]; [|apply keeps_ret].
  apply keeps_bind; [apply keeps_dense_deactivate|].
  intros _. apply keeps_bind; [apply keeps_dense_set_parent|].
  intros _. apply keeps_bind; [apply keeps_dense_set_next|].
  intros _. apply IH.
Qed.

Lemma keeps_dense_clear owner : keeps all_dense (clear owner).
Proof.
  unfold clear. eapply hoare_bind; [apply hoare_dense_children_of|].
  intros arr. apply (hoare_weaken _ _ all_dense); [|by intros s [? _]].
  apply keeps_bind; [apply keeps_dense_clear_loop|].
  intros _. apply keeps_dense_set_children. constructor.
Qed.

Lemma keeps_dense_add_loop owner i n nextChild :
  keeps all_dense (add_loop owner i n nextChild).
Proof.
  revert i nextChild. induction n as [|n IH]; intros i nextChild; simpl;
    [apply keeps_ret|].
  eapply hoare_bind; [apply hoare_dense_children_of|].
  intros arr. apply (hoare_weaken _ _ all_dense); [|by intros s [? _]].
  destruct (match nextChild with Some c => Some c | None => aget arr i end)
    as [child|]; [|apply keeps_raise].
  apply keeps_bind; [apply keeps_get|]. intros previousParent.
  apply keeps_bind.
  { destruct previousParent; [apply keeps_dense_remove|apply keeps_ret]. }
  intros _. eapply hoare_bind; [apply hoare_dense_children_of|].
  intros arr'. apply (hoare_weaken _ _ all_dense); [|by intros s [? _]].
  apply keeps_bind; [apply keeps_dense_set_next|].
  intros _. apply keeps_bind; [apply keeps_dense_set_parent|].
  intros _. apply keeps_bind; [apply keeps_get|]. intros stg.
  apply keeps_bind; [apply keeps_dense_activate|].
  intros _. apply IH.
Qed.

Lemma keeps_dense_add fuel owner child insertAt :
  keeps all_dense (add fuel owner child insertAt).
Proof.
  intros s Hs. unfold add.
  destruct (getAncestors fuel s owner) as [ancestors|]; [|done].
  destruct (rejected ancestors child); [done|].
  revert s Hs. eapply hoare_bind; [apply hoare_dense_children_of|].
  intros arr s [Hs Harr]. revert s Hs.
  apply keeps_bind.
  { apply keeps_dense_set_children. by apply dense_splice_in. }
  intros _. apply keeps_bind.
  { destruct (0 <? _); [|apply keeps_ret].
    eapply hoare_bind; [apply hoare_dense_children_of|].
    intros arr'. apply (hoare_weaken _ _ all_dense); [|by intros s [? _]].
    destruct (aget arr' _); [apply keeps_dense_set_next|apply keeps_raise]. }
  intros _. apply keeps_dense_add_loop.
Qed.

Lemma keeps_dense_run_call fuel c : keeps all_dense (run_call fuel c).
Proof.
  destruct c; simpl.
  - apply keeps_dense_set_children. constructor.
  - apply keeps_dense_add.
  - apply keeps_dense_clear.
  - apply keeps_dense_remove.
Qed.

Lemma run_calls_dense fuel cs s : all_dense s -> all_dense (run_calls fuel cs s).
Proof.
  revert s. induction cs as [|c cs IH]; intros s Hs; simpl; [done|].
  apply IH. by apply keeps_run; [apply keeps_dense_run_call|].
Qed.

(** C10.  From a store whose children containers are dense, any sequence of
    calls of the exported [DisplayList] (its constructor, [add], [remove] and
    [clear], with any arguments and whatever way each call ends) leaves
    every container dense: each index below the length holds an object.  The
    module's factory returns at its first [return], so the values it exports
    are the class, [methods] and [timelineMethods]; none of them is the
    later mixin, the one value with a [removeChild] that takes a removal
    strategy. *)
Theorem exported_calls_keep_containers_dense
    (fuel : nat) (cs : list call) (s : state) :
  all_dense s ->
  (∀ owner arr i,
     children (run_calls fuel cs s) !! owner = Some arr -> i < length arr ->
     ∃ x, aget arr i = Some x) ∧
  Factory.exports =
    [ ("DisplayList", Some Factory.DisplayList_class);
      ("methods", Some Factory.methods_object);
      ("timelineMethods", Some Factory.timelineMethods_object) ] ∧
  (∀ name d, (name, Some d) ∈ Factory.exports ->
     Factory.takes_removalStrategy d = false).
Proof.
  intros Hs. split; [|split].
  - intros owner arr i Harr Hi.
    pose proof (run_calls_dense fuel cs s Hs owner arr Harr) as Hdense.
    destruct (lookup_lt_is_Some_2 arr i Hi) as [slot Hslot].
    destruct (proj1 (Forall_lookup _ _) Hdense i slot Hslot) as [x ->].
    exists x. unfold aget. by rewrite Hslot.
  - reflexivity.
  - intros name d Hin. change Factory.exports with
      [ ("DisplayList", Some Factory.DisplayList_class);
        ("methods", Some Factory.methods_object);
        ("timelineMethods", Some Factory.timelineMethods_object) ] in Hin.
    repeat (apply elem_of_cons in Hin as [[= -> ->]|Hin]; [done|]).
    by apply elem_of_nil in Hin.
Qed.

Lemma family_dense : all_dense family.
Proof.
  intros owner arr Harr. unfold family in Harr. simpl in Harr.
  apply lookup_insert_Some in Harr as [[_ <-]|[_ Harr]].
  { repeat constructor; by eexists. }
  apply lookup_insert_Some in Harr as [[_ <-]|[_ Harr]].
  { repeat constructor; by eexists. }
  by rewrite lookup_empty in Harr.
Qed.

Lemma exported_calls_keep_containers_dense_witness :
  let cs := [ New 7; Add 7 (Many [2; 8]) (Some (JNumber (Finite 5 2)));
              Remove 0 1; Add 0 (Single 3) (Some (JNumber (Finite 0 1)));
              Clear 1 ] in
  (∀ owner arr i,
     children (run_calls 4 cs family) !! owner = Some arr -> i < length arr ->
     ∃ x, aget arr i = Some x) ∧
  Factory.exports =
    [ ("DisplayList", Some Factory.DisplayList_class);
      ("methods", Some Factory.methods_object);
      ("timelineMethods", Some Factory.timelineMethods_object) ] ∧
  (∀ name d, (name, Some d) ∈ Factory.exports ->
     Factory.takes_removalStrategy d = false).
Proof.
  intros cs. apply (exported_calls_keep_containers_dense 4 cs family).
  exact family_dense.
Defined.

(** ** Failures of the mixin surface *)

Lemma no_throw_ret {A} (a : A) : no_throw (mret a).
Proof. by intros s msg. Qed.

Lemma no_throw_get {A} (f : state -> A) : no_throw (get f).
Proof. by intros s msg. Qed.

Lemma no_throw_modify f : no_throw (modify f).
Proof. by intros s msg. Qed.

Lemma no_throw_TypeError {A} : no_throw (raise TypeError : M A).
Proof. by intros s msg. Qed.

Lemma no_throw_bind {A B} (m : M A) (k : A -> M B) :
  no_throw m -> (∀ a, no_throw (k a)) -> no_throw (m ≫= k).
Proof.
  intros Hm Hk s msg. specialize (Hm s msg).
  unfold mbind, M_bind, bind. destruct (m s) as [s' [a|e]]; [apply Hk|].
  simpl in *. intros [= ->]. by apply Hm.
Qed.

Lemma no_throw_children_of owner : no_throw (children_of owner).
Proof. intros s msg. unfold children_of. by destruct (children s !! owner). Qed.

Lemma no_throw_each_child i n : no_throw (each_child i n).
Proof. destruct n; simpl; [apply no_throw_ret|apply no_throw_TypeError]. Qed.

Ltac no_throw_step :=
  first
    [ apply no_throw_ret
    | apply no_throw_get
    | apply no_throw_modify
    | apply no_throw_TypeError
    | apply no_throw_children_of
    | apply no_throw_each_child
    | apply no_throw_bind; [|intros ?] ].

Lemma no_throw_activate x stg : no_throw (_activate x stg).
Proof.
  intros s. unfold _activate. destruct (kind_of s x); revert s.
  - apply no_throw_modify.
  - unfold activate, DisplayObject_activate. repeat no_throw_step.
  - unfold timelineMethods._activate, activate, DisplayObject_activate.
    repeat no_throw_step.
Qed.

Lemma no_throw_deactivate x : no_throw (_deactivate x).
Proof.
  intros s. unfold _deactivate. destruct (kind_of s x); revert s.
  - apply no_throw_modify.
  - unfold deactivate, DisplayObject_deactivate. repeat no_throw_step.
  - unfold timelineMethods._deactivate, deactivate, DisplayObject_deactivate,
      stage_of.
    repeat no_throw_step. destruct a; no_throw_step.
Qed.

Lemma no_throw_remove owner x : no_throw (remove owner x).
Proof.
  unfold remove, set_parent, set_next, set_children, next_of.
  no_throw_step; [no_throw_step|].
  destruct (indexOf a x); [|no_throw_step].
  no_throw_step.
  { destruct (0 <? n); [|no_throw_step].
    destruct (aget a (n - 1)); repeat no_throw_step. }
  repeat no_throw_step. apply no_throw_deactivate.
Qed.

Lemma no_throw_clear_loop owner i n : no_throw (clear_loop owner i n).
Proof.
  revert i. induction n as [|n IH]; intros i; simpl; [no_throw_step|].
  no_throw_step; [no_throw_step|].
  destruct (aget a i); [|no_throw_step].
  unfold set_parent, set_next.
  no_throw_step; [apply no_throw_deactivate|].
  repeat no_throw_step. apply IH.
Qed.

Lemma no_throw_clear owner : no_throw (clear owner).
Proof.
  unfold clear, set_children.
  no_throw_step; [no_throw_step|].
  no_throw_step; [apply no_throw_clear_loop|no_throw_step].
Qed.

Lemma no_throw_add_loop owner i n nextChild :
  no_throw (add_loop owner i n nextChild).
Proof.
  revert i nextChild. induction n as [|n IH]; intros i nextChild; simpl;
    [no_throw_step|].
  no_throw_step; [no_throw_step|].
  destruct (match nextChild with Some c => Some c | None => aget a i end);
    [|no_throw_step].
  unfold parent_of, set_parent, set_next, stage_of.
  no_throw_step; [no_throw_step|].
  no_throw_step.
  { destruct a0; [apply no_throw_remove|no_throw_step]. }
  no_throw_step; [no_throw_step|].
  do 3 (no_throw_step; [no_throw_step|]).
  no_throw_step; [apply no_throw_activate|apply IH].
Qed.

Lemma no_throw_add fuel owner child insertAt :
  no_throw (add fuel owner child insertAt).
Proof.
  intros s. unfold add.
  destruct (getAncestors fuel s owner) as [ancestors|]; [|done].
  destruct (rejected ancestors child); [done|]. revert s.
  unfold set_children, set_next.
  no_throw_step; [no_throw_step|].
  no_throw_step; [no_throw_step|].
  no_throw_step; [|apply no_throw_add_loop].
  destruct (0 <? _); [|no_throw_step].
  no_throw_step; [no_throw_step|].
  destruct (aget _ _); no_throw_step.
Qed.

Lemma no_throw_call_displayList {A} this name (body : M A) :
  no_throw body -> no_throw (call_displayList this name body).
Proof.
  intros Hbody. unfold call_displayList.
  no_throw_step; [no_throw_step|].
  destruct (bool_decide _); [done|no_throw_step].
Qed.

(** C8.  [getComputed] of the mixin surface ends, for every owner, key and
    store, through the one [throw] of the surface, whose value is the string
    ['implement me'], and leaves the store as it was.  No other call of the
    surface ([addChild], [children], [clear], [getIndexOfChild],
    [removeChild], and the private [_activate] and [_deactivate]) ever ends
    through a [throw]: each returns or fails with the engine's own
    [TypeError] (or runs out of fuel). *)
Theorem getComputed_is_the_only_explicit_failure :
  (∀ this key s,
     methods.getComputed this key s = (s, Abrupt (Thrown "implement me"))) ∧
  (∀ fuel this child index,
     no_throw (methods.addChild fuel this child index)) ∧
  (∀ fuel this newChildren,
     no_throw (methods.children fuel this newChildren)) ∧
  (∀ this, no_throw (methods.clear this)) ∧
  (∀ this child, no_throw (methods.getIndexOfChild this child)) ∧
  (∀ this child, no_throw (methods.removeChild this child)) ∧
  (∀ this stg, no_throw (_activate this stg)) ∧
  (∀ this, no_throw (_deactivate this)).
Proof.
  repeat split.
  - intros fuel this child index. unfold methods.addChild.
    no_throw_step; [|no_throw_step].
    apply no_throw_call_displayList, no_throw_add.
  - intros fuel this [cs|]; simpl.
    + no_throw_step; [apply no_throw_call_displayList, no_throw_clear|].
      no_throw_step; [|no_throw_step].
      apply no_throw_call_displayList, no_throw_add.
    + repeat no_throw_step.
  - intros this. unfold methods.clear.
    no_throw_step; [|no_throw_step].
    apply no_throw_call_displayList, no_throw_clear.
  - intros this child.
    apply no_throw_call_displayList, no_throw_TypeError.
  - intros this child. unfold methods.removeChild.
    no_throw_step; [|no_throw_step].
    apply no_throw_call_displayList, no_throw_TypeError.
  - apply no_throw_activate.
  - apply no_throw_deactivate.
Qed.

(** C7 (evaluation of the code).  [removeChild] of the mixin surface fails
    with a [TypeError] on every store, owner and child, and removes nothing:
    it calls a [removeChild] method on the display list, which has [add],
    [clear] and [remove] only.  [getIndexOfChild] fails the same way. *)
Theorem removeChild_raises_TypeError (s : state) (this child : nat) :
  methods.removeChild this child s = (s, Abrupt TypeError) ∧
  methods.getIndexOfChild this child s = (s, Abrupt TypeError).
Proof.
  unfold methods.removeChild, methods.getIndexOfChild, call_displayList,
    mbind, M_bind, bind, children_of.
  destruct (children s !! this); done.
Qed.

(** What the delegating methods do when the display list has the method
    they name: [addChild], [clear] and [children(newChildren)] run the
    method of the display list and return the owner; [children()] returns
    the array of children. *)
Lemma methods_delegate (fuel : nat) (s : state) (this : nat)
    (arr : list (option nat)) :
  children s !! this = Some arr ->
  (∀ child index s',
     add fuel this child (Some index) s = (s', Normal tt) ->
     methods.addChild fuel this child index s = (s', Normal (This this))) ∧
  (∀ s', clear this s = (s', Normal tt) ->
     methods.clear this s = (s', Normal (This this))) ∧
  methods.children fuel this None s = (s, Normal (Array arr)).
Proof.
  intros Harr.
  unfold methods.addChild, methods.clear, methods.children, call_displayList,
    mbind, M_bind, bind, children_of.
  rewrite Harr. simpl. repeat split.
  - by intros child index s' ->.
  - by intros s' ->.
Qed.

(** [addChild(child)] without index hands [undefined] to [add] as a second
    argument, which resolves it to index 0: the new child 9 of owner 0 ends
    up before the children 1, 2, 3. *)
Lemma addChild_without_index_prepends :
  let r := methods.addChild 4 0 (Single 9) JUndefined family in
  r.2 = Normal (This 0) ∧
  children r.1 !! 0 = Some [Some 9; Some 1; Some 2; Some 3].
Proof. vm_compute. done. Qed.

(** ** Runs that end normally *)

Lemma wp_ret {A} (a : A) Q s : Q a s -> wp (mret a) Q s.
Proof. done. Qed.

Lemma wp_get {A} (f : state -> A) Q s : Q (f s) s -> wp (get f) Q s.
Proof. done. Qed.

Lemma wp_modify f Q s : Q tt (f s) -> wp (modify f) Q s.
Proof. done. Qed.

Lemma wp_bind {A B} (m : M A) (k : A -> M B) Q s :
  wp m (fun a s' => wp (k a) Q s') s -> wp (m ≫= k) Q s.
Proof.
  unfold wp, mbind, M_bind, bind. by destruct (m s) as [s' [a|e]].
Qed.

Lemma wp_mono {A} (m : M A) (Q Q' : A -> state -> Prop) s :
  wp m Q s -> (∀ a s', Q a s' -> Q' a s') -> wp m Q' s.
Proof.
  unfold wp. destruct (m s) as [s' [a|e]]; [|done]. intros H HQ. by apply HQ.
Qed.

Lemma wp_bind_mono {A B} (m : M A) (k : A -> M B) R Q s :
  wp m R s -> (∀ a s', R a s' -> wp (k a) Q s') -> wp (m ≫= k) Q s.
Proof. intros Hm Hk. apply wp_bind. by eapply wp_mono. Qed.

Lemma wp_eq {A} (m : M A) Q s s' a : m s = (s', Normal a) -> Q a s' -> wp m Q s.
Proof. unfold wp. by intros ->. Qed.

Lemma wp_children_of owner arr Q s :
  children s !! owner = Some arr -> Q arr s -> wp (children_of owner) Q s.
Proof. unfold wp, children_of. by intros ->. Qed.

Lemma wp_elim {A} (m : M A) Q s :
  wp m Q s -> ∃ s' a, m s = (s', Normal a) ∧ Q a s'.
Proof. unfold wp. destruct (m s) as [s' [a|e]]; [|done]. eauto. Qed.

(** ** Insertion of detached display objects *)

Lemma activate_plain x stg s :
  kind_of s x = Plain -> _activate x stg s = DisplayObject_activate x stg s.
Proof. intros H. unfold _activate. by rewrite H. Qed.

Lemma deactivate_plain x s :
  kind_of s x = Plain -> _deactivate x s = DisplayObject_deactivate x s.
Proof. intros H. unfold _deactivate. by rewrite H. Qed.

Lemma children_attach owner nx x s : children (attach owner nx x s) = children s.
Proof. unfold attach. simpl. by destruct (stage s !! owner). Qed.

Lemma proto_attach owner nx x s : proto (attach owner nx x s) = proto s.
Proof. unfold attach. simpl. by destruct (stage s !! owner). Qed.

Lemma parent_attach owner nx x s :
  parent (attach owner nx x s) = <[x:=owner]> (parent s).
Proof. unfold attach. simpl. by destruct (stage s !! owner). Qed.

Lemma next_attach owner nx x s :
  next (attach owner nx x s) = assign x nx (next s).
Proof. unfold attach. simpl. by destruct (stage s !! owner). Qed.

Lemma stage_attach owner nx x s :
  stage (attach owner nx x s) = assign x (stage s !! owner) (stage s).
Proof. unfold attach. simpl. by destruct (stage s !! owner). Qed.

Lemma kind_of_attach owner nx x s y :
  kind_of (attach owner nx x s) y = kind_of s y.
Proof. unfold kind_of. by rewrite proto_attach. Qed.

Lemma lookup_assign_eq k v (m : gmap nat nat) : assign k v m !! k = v.
Proof.
  destruct v; simpl; [apply lookup_insert_eq|apply lookup_delete_eq].
Qed.

Lemma lookup_assign_ne k k' v (m : gmap nat nat) :
  k ≠ k' -> assign k v m !! k' = m !! k'.
Proof.
  intros. destruct v; simpl; [by apply lookup_insert_ne|by apply lookup_delete_ne].
Qed.

(** The loop of [add] over children that are detached plain display
    objects sitting at [i, i+1, ...] of the owner's container. *)
Lemma add_loop_detached owner arr xs : ∀ i nextChild s,
  children s !! owner = Some arr ->
  (∀ j x, xs !! j = Some x -> aget arr (i + j) = Some x) ->
  (∀ x, head xs = Some x -> nextChild = None ∨ nextChild = Some x) ->
  NoDup xs ->
  (∀ x, x ∈ xs -> parent s !! x = None ∧ kind_of s x = Plain) ->
  add_loop owner i (length xs) nextChild s
  = (attach_all owner arr i xs s, Normal tt).
Proof.
  induction xs as [|x rest IH]; intros i nextChild s Harr Hat Hnext Hnd Hxs;
    [done|].
  simpl add_loop. unfold mbind, M_bind, bind, children_of. rewrite Harr.
  assert (Hx : aget arr i = Some x).
  { rewrite <- (Nat.add_0_r i). by apply Hat. }
  assert (match nextChild with Some c => Some c | None => aget arr i end
          = Some x) as ->.
  { destruct (Hnext x) as [->| ->]; done. }
  destruct (Hxs x) as [Hpx Hkx]; [by left|].
  unfold parent_of, get. rewrite Hpx. unfold ret. simpl. rewrite Harr.
  unfold stage_of, get. simpl.
  rewrite activate_plain; [|done].
  apply NoDup_cons in Hnd as [Hx_rest Hnd].
  change (DisplayObject_activate x (stage s !! owner)
     (with_parent (assign x (Some owner))
        (with_next (assign x (aget arr (i + 1))) s)))
    with (attach owner (aget arr (i + 1)) x s, Normal tt).
  simpl. apply IH.
  - by rewrite children_attach.
  - intros j y Hy. replace (S i + j) with (i + S j) by lia. by apply Hat.
  - intros y Hy. right. destruct rest as [|y' rest']; [done|].
    injection Hy as ->. by apply (Hat 1).
  - done.
  - intros y Hy. destruct (Hxs y) as [Hpy Hky]; [by right|].
    rewrite parent_attach, kind_of_attach. split; [|done].
    rewrite lookup_insert_ne; [done|]. intros ->. done.
Qed.

Lemma children_attach_all owner arr xs : ∀ i s,
  children (attach_all owner arr i xs s) = children s.
Proof.
  induction xs as [|x rest IH]; intros i s; simpl; [done|].
  by rewrite IH, children_attach.
Qed.

Lemma attach_all_frame owner arr xs : ∀ i s y,
  y ∉ xs ->
  parent (attach_all owner arr i xs s) !! y = parent s !! y ∧
  next (attach_all owner arr i xs s) !! y = next s !! y ∧
  stage (attach_all owner arr i xs s) !! y = stage s !! y.
Proof.
  induction xs as [|x rest IH]; intros i s y Hy; simpl; [done|].
  apply not_elem_of_cons in Hy as [Hne Hy].
  destruct (IH (S i) (attach owner (aget arr (i + 1)) x s) y Hy)
    as (-> & -> & ->).
  rewrite parent_attach, next_attach, stage_attach.
  rewrite lookup_insert_ne, !lookup_assign_ne; done.
Qed.

Lemma attach_all_member owner arr xs : ∀ i s j x,
  NoDup xs -> owner ∉ xs -> xs !! j = Some x ->
  parent (attach_all owner arr i xs s) !! x = Some owner ∧
  next (attach_all owner arr i xs s) !! x = aget arr (i + j + 1) ∧
  stage (attach_all owner arr i xs s) !! x = stage s !! owner.
Proof.
  induction xs as [|y rest IH]; intros i s j x Hnd Howner Hj; [done|].
  apply NoDup_cons in Hnd as [Hy Hnd].
  apply not_elem_of_cons in Howner as [Hne Howner]. simpl.
  destruct j as [|j]; simpl in Hj.
  - injection Hj as ->.
    destruct (attach_all_frame owner arr rest (S i)
                (attach owner (aget arr (i + 1)) x s) x Hy) as (-> & -> & ->).
    rewrite parent_attach, next_attach, stage_attach.
    rewrite lookup_insert_eq, !lookup_assign_eq.
    by rewrite Nat.add_0_r.
  - destruct (IH (S i) (attach owner (aget arr (i + 1)) y s) j x Hnd Howner Hj)
      as (-> & -> & ->).
    rewrite stage_attach, lookup_assign_ne; [|done].
    repeat split. f_equal. lia.
Qed.

Lemma resolve_insertAt_le insertAt n : resolve_insertAt insertAt n ≤ n.
Proof. unfold resolve_insertAt. destruct insertAt; lia. Qed.

Lemma aget_splice_in_before k xs arr i :
  k ≤ length arr -> i < k -> aget (splice_in k xs arr) i = aget arr i.
Proof.
  intros Hk Hi. unfold aget, splice_in.
  rewrite lookup_app_l; [|rewrite length_take; lia].
  by rewrite lookup_take_lt.
Qed.

Lemma aget_splice_in_new k xs arr j x :
  k ≤ length arr -> xs !! j = Some x -> aget (splice_in k xs arr) (k + j) = Some x.
Proof.
  intros Hk Hj. unfold aget, splice_in.
  rewrite lookup_app_r; [|rewrite length_take; lia].
  rewrite length_take, Nat.min_l; [|done].
  replace (k + j - k) with j by lia.
  rewrite lookup_app_l; [|rewrite length_fmap; by eapply lookup_lt_Some].
  by rewrite list_lookup_fmap, Hj.
Qed.

Lemma aget_splice_in_after k xs arr j :
  k ≤ length arr ->
  aget (splice_in k xs arr) (k + length xs + j) = aget arr (k + j).
Proof.
  intros Hk. unfold aget, splice_in.
  rewrite lookup_app_r; [|rewrite length_take; lia].
  rewrite length_take, Nat.min_l; [|done].
  rewrite lookup_app_r; [|rewrite length_fmap; lia].
  rewrite length_fmap, lookup_drop. do 2 f_equal. lia.
Qed.

Lemma rejected_false anc child :
  items_list child ≠ [] ->
  (∀ x, x ∈ items_list child -> x ∉ anc) ->
  rejected anc child = false.
Proof.
  intros Hne Hxs. destruct child as [c|cs]; simpl in *.
  - apply bool_decide_eq_false, Hxs. by left.
  - apply orb_false_iff. split.
    + apply not_true_is_false. intros (x & Hx & Hin)%existsb_exists.
      apply bool_decide_eq_true in Hin. apply (Hxs x); [|done].
      by apply list_elem_of_In.
    + apply Nat.eqb_neq. by destruct cs.
Qed.

Lemma numNewChildren_length child :
  numNewChildren child = length (items_list child).
Proof. by destruct child. Qed.

Lemma first_item_head child : first_item child = head (items_list child).
Proof. by destruct child. Qed.

(** [add] of display objects that have no parent and are plain display
    objects, none of them the owner or an ancestor of it, into a dense
    container: the call returns, the objects sit in the container in the
    order passed from the resolved index on, and the sibling links of the
    new objects and of the object before them follow that order. *)
Theorem add_detached (fuel : nat) (s : state) (owner : nat)
    (arr : list (option nat)) (anc : list nat) (child : items)
    (insertAt : option jsarg) :
  getAncestors fuel s owner = Some anc ->
  children s !! owner = Some arr -> dense arr ->
  items_list child ≠ [] -> NoDup (items_list child) ->
  (∀ x, x ∈ items_list child ->
     (x ∉ anc) ∧ parent s !! x = None ∧ kind_of s x = Plain) ->
  let xs := items_list child in
  let k := resolve_insertAt insertAt (length arr) in
  let arr' := splice_in k xs arr in
  ∃ s', add fuel owner child insertAt s = (s', Normal tt) ∧
    children s' = <[owner:=arr']> (children s) ∧
    (∀ j x, xs !! j = Some x ->
       next s' !! x = aget arr' (k + j + 1) ∧
       parent s' !! x = Some owner ∧
       stage s' !! x = stage s !! owner) ∧
    (∀ p, 0 < k -> aget arr (k - 1) = Some p -> p ∉ xs ->
       next s' !! p = head xs) ∧
    (∀ y, y ∉ xs ->
       parent s' !! y = parent s !! y ∧
       stage s' !! y = stage s !! y ∧
       (¬ (0 < k ∧ aget arr (k - 1) = Some y) -> next s' !! y = next s !! y)).
Proof.
  intros Hanc Harr Hdense Hne Hnd Hxs xs k arr'.
  assert (Hk : k ≤ length arr) by apply resolve_insertAt_le.
  assert (Howner : owner ∉ xs).
  { intros Hin. destruct (Hxs owner Hin) as (Hout & _). apply Hout.
    eapply getAncestors_complete; [done|constructor]. }
  cut (wp (add fuel owner child insertAt) (fun _ s' =>
    children s' = <[owner:=arr']> (children s) ∧
    (∀ j x, xs !! j = Some x ->
       next s' !! x = aget arr' (k + j + 1) ∧
       parent s' !! x = Some owner ∧
       stage s' !! x = stage s !! owner) ∧
    (∀ p, 0 < k -> aget arr (k - 1) = Some p -> p ∉ xs ->
       next s' !! p = head xs) ∧
    (∀ y, y ∉ xs ->
       parent s' !! y = parent s !! y ∧
       stage s' !! y = stage s !! y ∧
       (¬ (0 < k ∧ aget arr (k - 1) = Some y) ->
        next s' !! y = next s !! y))) s).
  { intros (s' & [] & Hrun & Hpost)%wp_elim. eauto. }
  unfold wp at 1, add. rewrite Hanc, rejected_false; [|done|intros x Hx; by apply Hxs].
  change (wp (arr ← children_of owner;
              let at_ := resolve_insertAt insertAt (length arr) in
              set_children owner (splice_in at_ (items_list child) arr) ;;
              (if 0 <? at_
               then arr' ← children_of owner;
                    match aget arr' (at_ - 1) with
                    | Some prev => set_next prev (first_item child)
                    | None => raise TypeError
                    end
               else ret ()) ;;
              add_loop owner at_ (numNewChildren child) None) (fun _ s' =>
    children s' = <[owner:=arr']> (children s) ∧
    (∀ j x, xs !! j = Some x ->
       next s' !! x = aget arr' (k + j + 1) ∧
       parent s' !! x = Some owner ∧
       stage s' !! x = stage s !! owner) ∧
    (∀ p, 0 < k -> aget arr (k - 1) = Some p -> p ∉ xs ->
       next s' !! p = head xs) ∧
    (∀ y, y ∉ xs ->
       parent s' !! y = parent s !! y ∧
       stage s' !! y = stage s !! y ∧
       (¬ (0 < k ∧ aget arr (k - 1) = Some y) ->
        next s' !! y = next s !! y))) s).
  apply wp_bind, (wp_children_of _ arr); [done|]. simpl. fold k xs arr'.
  apply wp_bind, wp_modify.
  set (s0 := with_children (insert owner arr') s).
  eapply (wp_bind_mono _ _ (fun _ s1 =>
    children s1 = <[owner:=arr']> (children s) ∧
    proto s1 = proto s ∧ parent s1 = parent s ∧ stage s1 = stage s ∧
    (∀ p, 0 < k -> aget arr (k - 1) = Some p -> next s1 !! p = head xs) ∧
    (∀ y, ¬ (0 < k ∧ aget arr (k - 1) = Some y) ->
       next s1 !! y = next s !! y))).
  { destruct (0 <? k) eqn:Hk0.
    - apply Nat.ltb_lt in Hk0.
      apply wp_bind, (wp_children_of _ arr'); [apply lookup_insert_eq|].
      assert (aget arr' (k - 1) = aget arr (k - 1)) as ->
        by (apply aget_splice_in_before; [done|lia]).
      destruct (lookup_lt_is_Some_2 arr (k - 1)) as [slot Hslot]; [lia|].
      destruct (proj1 (Forall_lookup _ _) Hdense _ _ Hslot) as [p ->].
      assert (Hp : aget arr (k - 1) = Some p) by (unfold aget; by rewrite Hslot).
      rewrite Hp. apply wp_modify. simpl.
      repeat split; try done.
      + intros p' _ [= <-]. rewrite lookup_assign_eq. apply first_item_head.
      + intros y Hy. rewrite lookup_assign_ne; [done|].
        intros ->. apply Hy. split; [lia|done].
    - apply Nat.ltb_ge in Hk0. apply wp_ret. simpl.
      repeat split; try done. intros p Hlt. lia. }
  intros _ s1 (Hch1 & Hproto1 & Hpar1 & Hst1 & Hpred1 & Hnext1).
  rewrite numNewChildren_length. fold xs.
  eapply wp_eq.
  { apply (add_loop_detached owner arr' xs k None s1).
    - rewrite Hch1. apply lookup_insert_eq.
    - intros j x Hj. by apply aget_splice_in_new.
    - by left.
    - done.
    - intros x Hx. destruct (Hxs x Hx) as (_ & Hp & Hkind).
      rewrite Hpar1. unfold kind_of. by rewrite Hproto1. }
  rewrite children_attach_all. split; [done|]. repeat split.
  - by eapply attach_all_member.
  - by eapply attach_all_member.
  - rewrite <- Hst1. by eapply attach_all_member.
  - intros p Hk0 Hp Hpxs.
    destruct (attach_all_frame owner arr' xs k s1 p Hpxs) as (_ & -> & _).
    by apply Hpred1.
  - destruct (attach_all_frame owner arr' xs k s1 y H) as (-> & _ & _).
    by rewrite Hpar1.
  - destruct (attach_all_frame owner arr' xs k s1 y H) as (_ & _ & ->).
    by rewrite Hst1.
  - intros Hy.
    destruct (attach_all_frame owner arr' xs k s1 y H) as (_ & -> & _).
    by apply Hnext1.
Qed.

Lemma aget_Some_elem_of arr i x : aget arr i = Some x -> Some x ∈ arr.
Proof.
  unfold aget. intros Hx. destruct (arr !! i) as [[y|]|] eqn:Hi; simplify_eq/=.
  by eapply list_elem_of_lookup_2.
Qed.

Lemma aget_NoDup arr i j x :
  NoDup arr -> aget arr i = Some x -> aget arr j = Some x -> i = j.
Proof.
  unfold aget. intros Hnd Hi Hj.
  destruct (arr !! i) as [[y|]|] eqn:Hi'; simplify_eq/=.
  destruct (arr !! j) as [[y|]|] eqn:Hj'; simplify_eq/=.
  by eapply NoDup_lookup.
Qed.

(** After [add] of detached plain display objects that are not yet in the
    container, into a dense container of distinct objects whose sibling
    links follow the index order, the links of the new container follow its
    index order again: going through the children by index and by [next]
    gives the same sequence, the new objects in the order passed from the
    resolved index on. *)
Theorem add_detached_linked (fuel : nat) (s : state) (owner : nat)
    (arr : list (option nat)) (anc : list nat) (child : items)
    (insertAt : option jsarg) :
  getAncestors fuel s owner = Some anc ->
  children s !! owner = Some arr -> dense arr -> NoDup arr -> linked s arr ->
  items_list child ≠ [] -> NoDup (items_list child) ->
  (∀ x, x ∈ items_list child ->
     (x ∉ anc) ∧ (Some x ∉ arr) ∧ parent s !! x = None ∧ kind_of s x = Plain) ->
  let k := resolve_insertAt insertAt (length arr) in
  let arr' := splice_in k (items_list child) arr in
  ∃ s', add fuel owner child insertAt s = (s', Normal tt) ∧
    children s' !! owner = Some arr' ∧ linked s' arr'.
Proof.
  intros Hanc Harr Hdense Hnd Hlinked Hne Hndx Hxs k arr'.
  destruct (add_detached fuel s owner arr anc child insertAt)
    as (s' & Hrun & Hch & Hnew & Hpred & Hframe); try done.
  { intros x Hx. destruct (Hxs x Hx) as (? & ? & ? & ?). done. }
  fold k arr' in Hch, Hnew, Hpred, Hframe.
  exists s'. split; [done|]. split; [rewrite Hch; apply lookup_insert_eq|].
  assert (Hk : k ≤ length arr) by apply resolve_insertAt_le.
  set (xs := items_list child) in *.
  intros i y Hy.
  destruct (decide (i < k)) as [Hlt|Hge].
  - (* an old child before the insertion point *)
    unfold arr' in Hy. rewrite aget_splice_in_before in Hy by done.
    assert (Hyxs : y ∉ xs).
    { intros Hin. destruct (Hxs y Hin) as (_ & Hout & _).
      apply Hout. by eapply aget_Some_elem_of. }
    destruct (decide (i = k - 1)) as [->|Hne'].
    + rewrite (Hpred y) by (done || lia).
      destruct xs as [|x0 xs'] eqn:Hxs0; [done|]. simpl.
      symmetry. replace (k - 1 + 1) with (k + 0) by lia.
      by apply aget_splice_in_new.
    + destruct (Hframe y Hyxs) as (_ & _ & Hnext). rewrite Hnext.
      * rewrite (Hlinked i y Hy). symmetry.
        apply aget_splice_in_before; [done|lia].
      * intros [_ Hy']. apply Hne'. by eapply aget_NoDup.
  - destruct (decide (i < k + length xs)) as [Hmid|Hafter].
    + (* a new child *)
      destruct (lookup_lt_is_Some_2 xs (i - k)) as [x Hx]; [lia|].
      assert (y = x) as ->.
      { pose proof (aget_splice_in_new k xs arr (i - k) x Hk Hx) as Hx'.
        replace (k + (i - k)) with i in Hx' by lia.
        fold arr' in Hx'. congruence. }
      destruct (Hnew (i - k) x Hx) as (-> & _). f_equal. lia.
    + (* an old child after the new ones *)
      assert (Hy' : aget arr (i - length xs) = Some y).
      { pose proof (aget_splice_in_after k xs arr (i - length xs - k) Hk) as H.
        replace (k + length xs + (i - length xs - k)) with i in H by lia.
        replace (k + (i - length xs - k)) with (i - length xs) in H by lia.
        fold arr' in H. congruence. }
      assert (Hyxs : y ∉ xs).
      { intros Hin. destruct (Hxs y Hin) as (_ & Hout & _).
        apply Hout. by eapply aget_Some_elem_of. }
      destruct (Hframe y Hyxs) as (_ & _ & Hnext). rewrite Hnext.
      * rewrite (Hlinked _ y Hy'). symmetry.
        pose proof (aget_splice_in_after k xs arr (i + 1 - length xs - k) Hk)
          as H.
        replace (k + length xs + (i + 1 - length xs - k)) with (i + 1) in H
          by lia.
        replace (k + (i + 1 - length xs - k)) with (i - length xs + 1) in H
          by lia.
        exact H.
      * intros [Hk0 Hy'']. pose proof (aget_NoDup _ _ _ _ Hnd Hy' Hy''). lia.
Qed.

(** ** The bounding-box edges of the mixin *)

Section MixinEdges.

Import Mixin.
Local Open Scope Z_scope.

Lemma getComputed_Group key x y _children :
  getComputed key (Group x y _children)
  = let a := fold_left (visit key) (default [] _children) (Acc 0 true []) in
    (current a, Group x y (Some (visited a))).
Proof. by destruct _children. Qed.

Lemma fold_visit_current key children : ∀ a,
  current (fold_left (visit key) children a)
  = let values := child_value key <$> omap id children in
    if isFirst a
    then match values with
         | [] => current a
         | v :: vs => fold_left (compare key) vs v
         end
    else fold_left (compare key) values (current a).
Proof.
  induction children as [|[c|] rest IH]; intros a; simpl.
  - by destruct (isFirst a).
  - rewrite IH. unfold visit, step, child_value. simpl.
    destruct (getComputed key c) as [result c']. simpl.
    by destruct (isFirst a).
  - rewrite IH. unfold visit. simpl. by destruct (isFirst a).
Qed.

Lemma fold_visit_visited key children : ∀ a,
  visited (fold_left (visit key) children a)
  = visited a
    ++ ((fun slot : option node =>
           (fun c => (getComputed key c).2) <$> slot) <$> children).
Proof.
  induction children as [|[c|] rest IH]; intros a; simpl.
  - by rewrite app_nil_r.
  - rewrite IH. unfold visit, step. simpl.
    destruct (getComputed key c) as [result c']. simpl.
    by rewrite <- app_assoc.
  - rewrite IH. unfold visit. simpl. by rewrite <- app_assoc.
Qed.

Lemma getComputed_value key x y _children :
  (getComputed key (Group x y _children)).1
  = spec_getComputed key (default [] _children).
Proof.
  rewrite getComputed_Group. simpl. by rewrite fold_visit_current.
Qed.

Lemma fold_min_spec vs : ∀ v0,
  let m := fold_left Z.min vs v0 in
  m ∈ v0 :: vs ∧ ∀ v, v ∈ v0 :: vs -> m ≤ v.
Proof.
  induction vs as [|w vs IH]; intros v0; simpl.
  - split; [by left|]. intros v ->%list_elem_of_singleton. lia.
  - destruct (IH (Z.min v0 w)) as [Hin Hle]. split.
    + apply elem_of_cons in Hin as [Hm|Hin].
      * rewrite Hm. destruct (Z.min_spec v0 w) as [[_ ->]|[_ ->]];
          [by left|right; by left].
      * right. by right.
    + intros v [->|[->|Hv]%elem_of_cons]%elem_of_cons.
      * etrans; [apply Hle; by left|]. apply Z.le_min_l.
      * etrans; [apply Hle; by left|]. apply Z.le_min_r.
      * apply Hle. by right.
Qed.

Lemma fold_max_spec vs : ∀ v0,
  let m := fold_left Z.max vs v0 in
  m ∈ v0 :: vs ∧ ∀ v, v ∈ v0 :: vs -> v ≤ m.
Proof.
  induction vs as [|w vs IH]; intros v0; simpl.
  - split; [by left|]. intros v ->%list_elem_of_singleton. lia.
  - destruct (IH (Z.max v0 w)) as [Hin Hle]. split.
    + apply elem_of_cons in Hin as [Hm|Hin].
      * rewrite Hm. destruct (Z.max_spec v0 w) as [[_ ->]|[_ ->]];
          [right; by left|by left].
      * right. by right.
    + intros v [->|[->|Hv]%elem_of_cons]%elem_of_cons.
      * etrans; [apply Z.le_max_l|apply Hle; by left].
      * etrans; [apply Z.le_max_r|apply Hle; by left].
      * apply Hle. by right.
Qed.

Lemma extremum_spec key values :
  values ≠ [] ->
  extremum key values ∈ values ∧ ∀ v, v ∈ values -> bounds key (extremum key values) v.
Proof.
  destruct values as [|v0 vs]; [done|]. intros _. simpl.
  destruct key; simpl; first [apply fold_min_spec|apply fold_max_spec].
Qed.

Lemma initialised_Group x y children :
  initialised (Group x y (Some children))
  ↔ Forall (fun slot => match slot with
                        | Some c => initialised c
                        | None => True
                        end) children.
Proof.
  simpl. induction children as [|slot rest IH]; simpl.
  - split; [constructor|done].
  - rewrite Forall_cons, IH. done.
Qed.

Lemma getComputed_initialised key n :
  initialised n -> (getComputed key n).2 = n.
Proof.
  induction n as [x y size|x y|x y children IH] using node_children_ind;
    [done|done|].
  intros Hinit%initialised_Group.
  rewrite getComputed_Group. simpl. rewrite fold_visit_visited. simpl.
  do 2 f_equal.
  induction children as [|slot rest IHrest]; [done|].
  apply Forall_cons in IH as [IHslot IH].
  apply Forall_cons in Hinit as [Hslot Hinit].
  rewrite fmap_cons. f_equal; [|by apply IHrest].
  destruct slot as [c|]; [|done]. simpl. f_equal. by apply IHslot.
Qed.

End MixinEdges.

(** C9, as the code has it.  For every owner carrying the mixin and every
    edge key, [getComputed(key)] returns the extremum (the minimum for [top]
    and [left], the maximum for [right] and [bottom]) over the non-hole
    children of the child's position along the axis plus the child's own
    [getComputed(key)]: a value of one of the children that bounds them
    all, and [0] when there is no non-hole child.  The three children of the
    example give [left = -5] and [right = 25].  The call changes nothing in
    an owner whose [_children] arrays all exist; an owner without
    [_children] array is given an empty one. *)
Theorem getComputed_edge_extremum
    (key : Mixin.edge) (x y : Z) (_children : option (list (option Mixin.node))) :
  let owner := Mixin.Group x y _children in
  let values :=
    Mixin.child_value key <$> omap id (default [] _children) in
  let result := (Mixin.getComputed key owner).1 in
  result = Mixin.extremum key values ∧
  (values = [] -> result = 0%Z) ∧
  (values ≠ [] -> result ∈ values ∧ ∀ v, v ∈ values -> bounds key result v) ∧
  (Mixin.getComputed Mixin.left
     (Mixin.Group x y (Some Mixin.three_children))).1 = (-5)%Z ∧
  (Mixin.getComputed Mixin.right
     (Mixin.Group x y (Some Mixin.three_children))).1 = 25%Z ∧
  (Mixin.initialised owner -> (Mixin.getComputed key owner).2 = owner) ∧
  (Mixin.getComputed key (Mixin.Group x y None)).2 = Mixin.Group x y (Some []).
Proof.
  intros owner values result.
  assert (Hresult : result = Mixin.extremum key values)
    by apply getComputed_value.
  repeat split; try done.
  - intros Hvalues. by rewrite Hresult, Hvalues.
  - rewrite Hresult. by apply extremum_spec.
  - intros v Hv. rewrite Hresult. apply extremum_spec; [|done].
    intros Hnil. rewrite Hnil in Hv. by apply elem_of_nil in Hv.
  - apply getComputed_initialised.
Qed.

Lemma getComputed_edge_extremum_witness :
  let owner := Mixin.Group 3 4 (Some (None :: Mixin.three_children)) in
  let values :=
    Mixin.child_value Mixin.right <$> omap id (None :: Mixin.three_children) in
  let result := (Mixin.getComputed Mixin.right owner).1 in
  result = Mixin.extremum Mixin.right values ∧
  (values = [] -> result = 0%Z) ∧
  (values ≠ [] ->
   result ∈ values ∧ ∀ v, v ∈ values -> bounds Mixin.right result v) ∧
  (Mixin.getComputed Mixin.left
     (Mixin.Group 3 4 (Some Mixin.three_children))).1 = (-5)%Z ∧
  (Mixin.getComputed Mixin.right
     (Mixin.Group 3 4 (Some Mixin.three_children))).1 = 25%Z ∧
  (Mixin.initialised owner -> (Mixin.getComputed Mixin.right owner).2 = owner) ∧
  (Mixin.getComputed Mixin.right (Mixin.Group 3 4 None)).2
  = Mixin.Group 3 4 (Some []).
Proof.
  exact (getComputed_edge_extremum Mixin.right 3 4
           (Some (None :: Mixin.three_children))).
Defined.

(** C9, counterexample to a computation without any mutation:
    [getComputed] on an owner whose [_children] array does not exist yet
    creates the array (line 400), so the call does change state. *)
Lemma getComputed_creates_children_array :
  (Mixin.getComputed Mixin.left (Mixin.Group 0 0 None)).2
  ≠ Mixin.Group 0 0 None.
Proof. simpl. discriminate. Qed.

(** ** The insertion index *)

Lemma ToUint32_nonneg num den :
  (0 ≤ num)%Z -> (num / Z.pos den < 2 ^ 32)%Z ->
  ToUint32 (Finite num den) = (num / Z.pos den)%Z.
Proof.
  intros Hnum Hlt. simpl. rewrite Z.quot_div_nonneg; [|done|lia].
  apply Z.mod_small. split; [|done]. apply Z.div_pos; lia.
Qed.

Lemma ToUint32_negative n :
  (- 2 ^ 32 ≤ n < 0)%Z -> ToUint32 (Finite n 1) = (2 ^ 32 + n)%Z.
Proof.
  intros Hn. simpl. rewrite Z.quot_1_r.
  rewrite <- (Z.mod_small (2 ^ 32 + n) (2 ^ 32)) by lia.
  rewrite Z.add_comm. symmetry. rewrite <- (Z.mul_1_l (2 ^ 32)) at 1.
  apply Z.mod_add. lia.
Qed.

(** C6, as the code has it.  With an index [i] passed explicitly, [add]
    puts the new display objects (detached plain display objects, none of
    them the owner or an ancestor) into a dense container of length [L] at
    [min(ToUint32(i), L)]: the call returns and the container is the old one
    with the new objects spliced in at that index.  For [i >= 0] whose
    integer part is below [2^32] this is the integer part of [i] capped at
    [L], so a fraction is truncated and an index above [L] appends; a
    negative integer [i >= L - 2^32] wraps around to [2^32 + i] and appends
    at [L]. *)
Theorem add_inserts_at_ToUint32_index (fuel : nat) (s : state) (owner : nat)
    (arr : list (option nat)) (anc : list nat) (child : items) (i : jsnum) :
  getAncestors fuel s owner = Some anc ->
  children s !! owner = Some arr -> dense arr ->
  items_list child ≠ [] -> NoDup (items_list child) ->
  (∀ x, x ∈ items_list child ->
     (x ∉ anc) ∧ parent s !! x = None ∧ kind_of s x = Plain) ->
  let L := length arr in
  let k := Z.to_nat (Z.min (ToUint32 i) (Z.of_nat L)) in
  (∃ s', add fuel owner child (Some (JNumber i)) s = (s', Normal tt) ∧
     children s' !! owner
     = Some (take k arr ++ (Some <$> items_list child) ++ drop k arr)) ∧
  (∀ num den, i = Finite num den ->
     (0 ≤ num)%Z -> (num / Z.pos den < 2 ^ 32)%Z ->
     k = Nat.min (Z.to_nat (num / Z.pos den)) L) ∧
  (∀ n, i = Finite n 1 -> (Z.of_nat L - 2 ^ 32 ≤ n < 0)%Z -> k = L).
Proof.
  intros Hanc Harr Hdense Hne Hnd Hxs L k. repeat split.
  - destruct (add_detached fuel s owner arr anc child (Some (JNumber i))
                Hanc Harr Hdense Hne Hnd Hxs) as (s' & Hrun & Hch & _).
    exists s'. split; [done|]. rewrite Hch. apply lookup_insert_eq.
  - intros num den -> Hnum Hlt. unfold k.
    rewrite ToUint32_nonneg by done.
    assert (0 ≤ num / Z.pos den)%Z by (apply Z.div_pos; lia). lia.
  - intros n -> Hn. unfold k. rewrite ToUint32_negative by lia. lia.
Qed.

Lemma add_inserts_at_ToUint32_index_witness :
  let arr := [Some 1; Some 2; Some 3] in
  let i := Finite (-1) 1 in
  let L := length arr in
  let k := Z.to_nat (Z.min (ToUint32 i) (Z.of_nat L)) in
  (∃ s', add 4 0 (Single 9) (Some (JNumber i)) family = (s', Normal tt) ∧
     children s' !! 0
     = Some (take k arr ++ (Some <$> [9]) ++ drop k arr)) ∧
  (∀ num den, i = Finite num den ->
     (0 ≤ num)%Z -> (num / Z.pos den < 2 ^ 32)%Z ->
     k = Nat.min (Z.to_nat (num / Z.pos den)) L) ∧
  (∀ n, i = Finite n 1 -> (Z.of_nat L - 2 ^ 32 ≤ n < 0)%Z -> k = L).
Proof.
  apply (add_inserts_at_ToUint32_index 4 family 0 [Some 1; Some 2; Some 3]
           [0] (Single 9) (Finite (-1) 1)).
  - reflexivity.
  - reflexivity.
  - repeat constructor; by eexists.
  - discriminate.
  - apply NoDup_singleton.
  - intros x ->%list_elem_of_singleton. repeat split.
    intros Hin%list_elem_of_singleton. discriminate.
Defined.

(** C6, counterexample to clamping: with three children, the index [-1]
    does not insert at position 0, the lower end of the interval it would
    be clamped to; the new child is appended at position 3. *)
Lemma negative_index_is_not_clamped :
  let s' := (add 4 0 (Single 9) (Some (JNumber (Finite (-1) 1))) family).1 in
  clamp (-1) 3 = 0 ∧
  children s' !! 0 = Some [Some 1; Some 2; Some 3; Some 9] ∧
  children s' !! 0 ≠ Some (splice_in (clamp (-1) 3) [9] [Some 1; Some 2; Some 3]).
Proof. vm_compute. repeat split. discriminate. Qed.

(** ** The code on inputs where it departs from the specification *)

(** C2 (evaluation of the code).  Owner 0 has the children [1, 2, 3], linked
    in that order.  [add(3, 0)], the last child passed again for the first
    position, returns normally but leaves the container [1, 2, 3]: child 3
    is not at index 0, and the sibling links form the cycle 3 -> 2 -> 3. *)
Theorem add_existing_child_before_itself :
  let r := add 4 0 (Single 3) (Some (JNumber (Finite 0 1))) family in
  r.2 = Normal tt ∧
  children r.1 !! 0 = Some [Some 1; Some 2; Some 3] ∧
  next r.1 !! 1 = Some 2 ∧ next r.1 !! 2 = Some 3 ∧ next r.1 !! 3 = Some 2.
Proof. vm_compute. repeat split. Qed.

(** The example of the spec on the same owner: [add([7, 8], 1)] with the
    detached objects 7 and 8 gives [1, 7, 8, 2, 3] and the links
    1 -> 7 -> 8 -> 2 -> 3. *)
Lemma add_two_detached_at_one :
  let r := add 4 0 (Many [7; 8]) (Some (JNumber (Finite 1 1))) family in
  r.2 = Normal tt ∧
  children r.1 !! 0 = Some [Some 1; Some 7; Some 8; Some 2; Some 3] ∧
  next r.1 !! 1 = Some 7 ∧ next r.1 !! 7 = Some 8 ∧ next r.1 !! 8 = Some 2 ∧
  next r.1 !! 2 = Some 3 ∧ next r.1 !! 3 = None.
Proof. vm_compute. repeat split. Qed.

(** C3 (evaluation of the code).  Owner 0 has the child 1 and owner 5 the
    child 6.  [add([1, 6], 0)] under owner 0 returns normally with 6 in the
    containers of both owners and its parent still 5, and with 1 in no
    container although its parent is 0. *)
Theorem add_own_child_with_foreign_child :
  let r := add 4 0 (Many [1; 6]) (Some (JNumber (Finite 0 1))) two_owners in
  r.2 = Normal tt ∧
  children r.1 !! 0 = Some [Some 6] ∧ children r.1 !! 5 = Some [Some 6] ∧
  parent r.1 !! 6 = Some 5 ∧ parent r.1 !! 1 = Some 0.
Proof. vm_compute. repeat split. Qed.

(** C4 (evaluation of the code).  Owner 0 has the children [1, 2, 3] and
    child 2 carries [methods].  [remove(2)] rewires [1.next] to 3 and clears
    the parent and next of 2, then fails with a [TypeError] in
    [2._deactivate()] before the splice: the container is still
    [1, 2, 3]. *)
Theorem remove_child_with_methods :
  let r := remove 0 2 family_with_group in
  r.2 = Abrupt TypeError ∧
  children r.1 !! 0 = Some [Some 1; Some 2; Some 3] ∧
  next r.1 !! 1 = Some 3 ∧ parent r.1 !! 2 = None ∧ next r.1 !! 2 = None.
Proof. vm_compute. repeat split. Qed.

(** C5 (evaluation of the code).  Owner 0 has the single child 2, which
    carries [methods].  [clear()] and [remove(2)] both fail with a
    [TypeError] in [2._deactivate()] and leave 2 in the container; after
    [clear()] the parent of 2 is still 0, after [remove(2)] it is cleared. *)
Theorem clear_and_remove_child_with_methods :
  let c := clear 0 one_group_child in
  let r := remove 0 2 one_group_child in
  c.2 = Abrupt TypeError ∧ r.2 = Abrupt TypeError ∧
  children c.1 !! 0 = Some [Some 2] ∧ children r.1 !! 0 = Some [Some 2] ∧
  parent c.1 !! 2 = Some 0 ∧ parent r.1 !! 2 = None.
Proof. vm_compute. repeat split. Qed.

(** ** Removal and reparenting of plain display objects *)

Lemma indexOf_Some arr x k :
  indexOf arr x = Some k ->
  arr !! k = Some (Some x) ∧ ∀ j, j < k -> arr !! j ≠ Some (Some x).
Proof.
  unfold indexOf. destruct (list_find _ arr) as [[i slot]|] eqn:Hfind; [|done].
  intros [= <-]. apply list_find_Some in Hfind as (Hi & -> & Hbefore).
  split; [done|]. intros j Hj Hjx. by apply (Hbefore j (Some x)).
Qed.

Lemma indexOf_is_Some arr x : Some x ∈ arr -> is_Some (indexOf arr x).
Proof.
  intros Hx. unfold indexOf.
  destruct (list_find (fun slot => slot = Some x) arr) as [[i slot]|] eqn:Hfind;
    [by eexists|].
  apply list_find_None in Hfind. exfalso.
  by apply (proj1 (Forall_forall _ _) Hfind (Some x)).
Qed.

Lemma unlinked_fields x s :
  proto (unlinked x s) = proto s ∧
  children (unlinked x s) = children s ∧
  parent (unlinked x s) = delete x (parent s) ∧
  next (unlinked x s) = delete x (next s) ∧
  stage (unlinked x s) = delete x (stage s) ∧
  movies (unlinked x s) = movies s ∧
  displayObjects (unlinked x s)
  = match stage s !! x with
    | Some g => displayObjects s ∖ {[ (g, x) ]}
    | None => displayObjects s
    end ∧
  needsInsertion (unlinked x s)
  = match stage s !! x with
    | Some g => needsInsertion s ∖ {[ (g, x) ]}
    | None => needsInsertion s
    end.
Proof.
  unfold unlinked. simpl. destruct (stage s !! x) as [g|] eqn:Hg; simpl;
    repeat split; try done.
  symmetry. by apply delete_id.
Qed.

Lemma relinked_fields arr x k s :
  proto (relinked arr x k s) = proto s ∧
  children (relinked arr x k s) = children s ∧
  parent (relinked arr x k s) = parent s ∧
  stage (relinked arr x k s) = stage s ∧
  movies (relinked arr x k s) = movies s ∧
  displayObjects (relinked arr x k s) = displayObjects s ∧
  needsInsertion (relinked arr x k s) = needsInsertion s.
Proof.
  unfold relinked. destruct (0 <? k); [|done]. by destruct (aget arr (k - 1)).
Qed.

Lemma DisplayObject_deactivate_run x s :
  DisplayObject_deactivate x s
  = ((DisplayObject_deactivate x s).1, Normal tt).
Proof. reflexivity. Qed.

Lemma bind_run {A B} (m : M A) (k : A -> M B) s s' a :
  m s = (s', Normal a) -> (m ≫= k) s = k a s'.
Proof. intros Hm. unfold mbind, M_bind, bind. by rewrite Hm. Qed.

Lemma children_of_run owner arr s :
  children s !! owner = Some arr -> children_of owner s = (s, Normal arr).
Proof. intros Harr. unfold children_of. by rewrite Harr. Qed.

Lemma remove_plain_run (s : state) (owner : nat)
    (arr : list (option nat)) (x k : nat) :
  children s !! owner = Some arr -> dense arr ->
  indexOf arr x = Some k -> kind_of s x = Plain ->
  remove owner x s = (removed owner arr x k s, Normal tt).
Proof.
  intros Harr Hdense Hk Hplain.
  destruct (indexOf_Some _ _ _ Hk) as [Hx _].
  assert (Hpre :
    (if 0 <? k
     then match aget arr (k - 1) with
          | Some prev => nx ← next_of x; set_next prev nx
          | None => raise TypeError
          end
     else ret ()) s = (relinked arr x k s, Normal tt)).
  { unfold relinked. destruct (0 <? k) eqn:Hk0; [|done].
    apply Nat.ltb_lt in Hk0.
    destruct (lookup_lt_is_Some_2 arr (k - 1)) as [slot Hslot].
    { apply lookup_lt_Some in Hx. lia. }
    destruct (proj1 (Forall_lookup _ _) Hdense _ _ Hslot) as [p ->].
    unfold aget. rewrite Hslot. done. }
  destruct (relinked_fields arr x k s) as (Hproto & Hch & _).
  unfold remove. rewrite (bind_run _ _ s s arr) by by apply children_of_run.
  rewrite Hk. erewrite bind_run by exact Hpre.
  erewrite bind_run by reflexivity. erewrite bind_run by reflexivity.
  erewrite (bind_run (_deactivate x)).
  2:{ rewrite deactivate_plain; [apply DisplayObject_deactivate_run|].
      unfold kind_of. simpl. by rewrite Hproto. }
  fold (unlinked x (relinked arr x k s)).
  destruct (unlinked_fields x (relinked arr x k s)) as (_ & Hch' & _).
  erewrite bind_run.
  2:{ apply children_of_run. by rewrite Hch', Hch. }
  reflexivity.
Qed.

(** [remove] of a plain display object found at index [k] of a dense
    container: the call returns, the object is spliced out, the object
    before it (if any) gets the removed object's former [next], and the
    removed object has no parent, no next sibling and no stage; no other
    parent, stage or sibling link changes. *)
Theorem remove_direct_child (s : state) (owner : nat)
    (arr : list (option nat)) (x k : nat) :
  children s !! owner = Some arr -> dense arr ->
  indexOf arr x = Some k -> kind_of s x = Plain ->
  ∃ s', remove owner x s = (s', Normal tt) ∧
    children s' = <[owner:=delete k arr]> (children s) ∧
    proto s' = proto s ∧
    parent s' !! x = None ∧ next s' !! x = None ∧ stage s' !! x = None ∧
    (∀ p, 0 < k -> aget arr (k - 1) = Some p -> next s' !! p = next s !! x) ∧
    (∀ y, y ≠ x ->
       parent s' !! y = parent s !! y ∧
       stage s' !! y = stage s !! y ∧
       (¬ (0 < k ∧ aget arr (k - 1) = Some y) -> next s' !! y = next s !! y)).
Proof.
  intros Harr Hdense Hk Hplain.
  destruct (indexOf_Some _ _ _ Hk) as [Hx Hfirst].
  exists (removed owner arr x k s). split; [by apply remove_plain_run|].
  unfold removed. simpl.
  destruct (unlinked_fields x (relinked arr x k s))
    as (-> & -> & -> & -> & -> & _).
  destruct (relinked_fields arr x k s) as (-> & -> & -> & -> & _).
  split; [done|]. split; [done|].
  split; [apply lookup_delete_eq|]. split; [apply lookup_delete_eq|].
  split; [apply lookup_delete_eq|]. split.
  - intros p Hk0 Hp.
    assert (p ≠ x).
    { intros ->. apply (Hfirst (k - 1)); [lia|].
      unfold aget in Hp. destruct (arr !! (k - 1)) as [[?|]|]; by simplify_eq/=. }
    rewrite lookup_delete_ne by done.
    unfold relinked. apply Nat.ltb_lt in Hk0. rewrite Hk0, Hp. simpl.
    apply lookup_assign_eq.
  - intros y Hy. rewrite !lookup_delete_ne by done. repeat split.
    intros Hpred. unfold relinked. destruct (0 <? k) eqn:Hk0; [|done].
    destruct (aget arr (k - 1)) as [p|] eqn:Hp; [|done]. simpl.
    apply lookup_assign_ne. intros ->. apply Hpred.
    split; [by apply Nat.ltb_lt|done].
Qed.

Lemma DisplayObject_activate_run x stg s :
  DisplayObject_activate x stg s
  = ((DisplayObject_activate x stg s).1, Normal tt).
Proof. reflexivity. Qed.

Lemma DisplayObject_activate_fields x stg s :
  let s' := (DisplayObject_activate x stg s).1 in
  children s' = children s ∧ parent s' = parent s ∧
  next s' = next s ∧ proto s' = proto s.
Proof. by destruct stg. Qed.

Lemma splice_in_end xs arr : splice_in (length arr) xs arr = arr ++ (Some <$> xs).
Proof.
  unfold splice_in. by rewrite take_ge, drop_ge, app_nil_r by lia.
Qed.

Lemma not_elem_of_delete_NoDup (arr : list (option nat)) k slot :
  NoDup arr -> arr !! k = Some slot -> slot ∉ delete k arr.
Proof.
  intros Hnd Hk Hin. apply list_elem_of_lookup in Hin as [j Hj].
  destruct (decide (j < k)) as [Hlt|Hge].
  - rewrite list_lookup_delete_lt in Hj by done.
    pose proof (NoDup_lookup _ _ _ _ Hnd Hj Hk). lia.
  - rewrite list_lookup_delete_ge in Hj by lia.
    pose proof (NoDup_lookup _ _ _ _ Hnd Hj Hk). lia.
Qed.

(** X14.  [add] of a plain display object [B] that is a child of another
    owner [A], without index, under an owner [C] of which [B] is no
    ancestor: the
    call returns, [B] has left the container of [A] and is the last element
    of the container of [C], and its parent is [C]. *)
Theorem add_reparents (fuel : nat) (s : state) (A C B : nat)
    (arrA arrC : list (option nat)) (anc : list nat) :
  A ≠ C ->
  getAncestors fuel s C = Some anc -> B ∉ anc ->
  children s !! C = Some arrC -> dense arrC -> Some B ∉ arrC ->
  children s !! A = Some arrA -> dense arrA -> NoDup arrA -> Some B ∈ arrA ->
  parent s !! B = Some A -> kind_of s B = Plain ->
  ∃ s' arrA', add fuel C (Single B) None s = (s', Normal tt) ∧
    children s' !! A = Some arrA' ∧ (Some B ∉ arrA') ∧
    children s' !! C = Some (arrC ++ [Some B]) ∧
    parent s' !! B = Some C.
Proof.
  intros HAC Hanc HB HarrC HdenseC HBC HarrA HdenseA HndA HBA Hpar Hplain.
  destruct (indexOf_is_Some arrA B HBA) as [kB HkB].
  destruct (indexOf_Some _ _ _ HkB) as [HBk _].
  cut (wp (add fuel C (Single B) None) (fun _ s' =>
    children s' !! A = Some (delete kB arrA) ∧
    children s' !! C = Some (arrC ++ [Some B]) ∧
    parent s' !! B = Some C) s).
  { intros (s' & [] & Hrun & HA & HC & HP)%wp_elim.
    exists s', (delete kB arrA). repeat split; try done.
    by apply not_elem_of_delete_NoDup. }
  unfold wp at 1, add. rewrite Hanc.
  rewrite (rejected_false anc (Single B)); [|done|].
  2:{ intros x ->%list_elem_of_singleton. done. }
  change (wp (arr ← children_of C;
              let at_ := resolve_insertAt None (length arr) in
              set_children C (splice_in at_ [B] arr) ;;
              (if 0 <? at_
               then arr' ← children_of C;
                    match aget arr' (at_ - 1) with
                    | Some prev => set_next prev (Some B)
                    | None => raise TypeError
                    end
               else ret ()) ;;
              add_loop C at_ 1 None) (fun _ s' =>
    children s' !! A = Some (delete kB arrA) ∧
    children s' !! C = Some (arrC ++ [Some B]) ∧
    parent s' !! B = Some C) s).
  apply wp_bind, (wp_children_of _ arrC); [done|]. simpl.
  rewrite splice_in_end. simpl.
  apply wp_bind, wp_modify.
  eapply (wp_bind_mono _ _ (fun _ s1 =>
    children s1 = <[C:=arrC ++ [Some B]]> (children s) ∧
    proto s1 = proto s ∧ parent s1 = parent s)).
  { destruct (0 <? length arrC) eqn:HL; [|by apply wp_ret].
    apply Nat.ltb_lt in HL.
    apply wp_bind, (wp_children_of _ (arrC ++ [Some B]));
      [apply lookup_insert_eq|].
    destruct (lookup_lt_is_Some_2 arrC (length arrC - 1)) as [slot Hslot];
      [lia|].
    destruct (proj1 (Forall_lookup _ _) HdenseC _ _ Hslot) as [p ->].
    unfold aget. rewrite lookup_app_l by lia. rewrite Hslot. simpl.
    by apply wp_modify. }
  intros _ s1 (Hch1 & Hproto1 & Hpar1).
  apply wp_bind, (wp_children_of _ (arrC ++ [Some B])).
  { rewrite Hch1. apply lookup_insert_eq. }
  assert (aget (arrC ++ [Some B]) (length arrC) = Some B) as ->.
  { unfold aget. rewrite lookup_app_r, Nat.sub_diag by lia. done. }
  apply wp_bind, wp_get. rewrite Hpar1, Hpar.
  destruct (remove_direct_child s1 A arrA B kB)
    as (s2 & Hrun & Hch2 & Hproto2 & _ & _ & _ & _ & Hframe2).
  { rewrite Hch1, lookup_insert_ne; done. }
  { done. } { done. } { unfold kind_of. by rewrite Hproto1. }
  apply wp_bind. eapply wp_eq; [exact Hrun|].
  apply wp_bind, (wp_children_of _ (arrC ++ [Some B])).
  { rewrite Hch2, Hch1, lookup_insert_ne, lookup_insert_eq; done. }
  apply wp_bind, wp_modify, wp_bind, wp_modify, wp_bind, wp_get.
  apply wp_bind. eapply wp_eq.
  { rewrite activate_plain; [apply DisplayObject_activate_run|].
    unfold kind_of. simpl.
    by rewrite Hproto2, Hproto1. }
  apply wp_ret.
  match goal with
  | |- context [DisplayObject_activate ?x ?stg ?s3] =>
      destruct (DisplayObject_activate_fields x stg s3) as (-> & -> & _ & _)
  end.
  simpl. rewrite Hch2, Hch1. repeat split.
  - apply lookup_insert_eq.
  - rewrite lookup_insert_ne, lookup_insert_eq; done.
  - apply lookup_insert_eq.
Qed.

Lemma add_reparents_witness :
  ∃ s' arrA', add 2 5 (Single 1) None two_owners = (s', Normal tt) ∧
    children s' !! 0 = Some arrA' ∧ (Some 1 ∉ arrA') ∧
    children s' !! 5 = Some ([Some 6] ++ [Some 1]) ∧
    parent s' !! 1 = Some 5.
Proof.
  apply (add_reparents 2 two_owners 0 5 1 [Some 1] [Some 6] [5]).
  - discriminate.
  - reflexivity.
  - intros Hin%list_elem_of_singleton. discriminate.
  - reflexivity.
  - repeat constructor; by eexists.
  - intros Hin%list_elem_of_singleton. discriminate.
  - reflexivity.
  - repeat constructor; by eexists.
  - apply NoDup_singleton.
  - by apply list_elem_of_singleton.
  - reflexivity.
  - reflexivity.
Defined.

(** ** [clear] and the removal of every child, for plain display objects *)

Lemma all_detached_unique s owner l s1 s2 :
  all_detached s owner l s1 -> all_detached s owner l s2 -> s1 = s2.
Proof.
  intros (Hp1 & Hm1 & Hc1 & Hpa1 & Hn1 & Hs1 & Hd1 & Hi1)
         (Hp2 & Hm2 & Hc2 & Hpa2 & Hn2 & Hs2 & Hd2 & Hi2).
  destruct s1, s2; simpl in *. f_equal; try congruence.
  - apply map_eq. intros y. by rewrite Hpa1, Hpa2.
  - apply map_eq. intros y. by rewrite Hn1, Hn2.
  - apply map_eq. intros y. by rewrite Hs1, Hs2.
  - apply set_eq. intros [g y]. by rewrite Hd1, Hd2.
  - apply set_eq. intros [g y]. by rewrite Hi1, Hi2.
Qed.

Lemma clear_child_unlinked c s :
  with_next (assign c None)
    (with_parent (assign c None) (DisplayObject_deactivate c s).1)
  = unlinked c s.
Proof. unfold unlinked. simpl. by destruct (stage s !! c). Qed.

Lemma clear_loop_plain owner l : ∀ n i s,
  children s !! owner = Some (Some <$> l) ->
  (∀ x, x ∈ l -> kind_of s x = Plain) ->
  i + n = length l ->
  clear_loop owner i n s
  = (foldl (fun s c => unlinked c s) s (drop i l), Normal tt).
Proof.
  induction n as [|n IH]; intros i s Harr Hplain Hlen; simpl.
  - by rewrite drop_ge by lia.
  - rewrite (bind_run _ _ s s (Some <$> l)) by by apply children_of_run.
    destruct (lookup_lt_is_Some_2 l i) as [c Hc]; [lia|].
    unfold aget. rewrite list_lookup_fmap, Hc. simpl.
    rewrite (drop_S l c i Hc). simpl.
    erewrite (bind_run (_deactivate c)).
    2:{ rewrite deactivate_plain; [apply DisplayObject_deactivate_run|].
        apply Hplain. by eapply list_elem_of_lookup_2. }
    erewrite bind_run by reflexivity. erewrite bind_run by reflexivity.
    rewrite clear_child_unlinked.
    destruct (unlinked_fields c s) as (Hproto & Hch & _).
    apply IH; [by rewrite Hch| |lia].
    intros x Hx. unfold kind_of. rewrite Hproto. by apply Hplain.
Qed.

Lemma unlink_all_spec l : ∀ s,
  let s' := foldl (fun s c => unlinked c s) s l in
  proto s' = proto s ∧ movies s' = movies s ∧ children s' = children s ∧
  (∀ y, parent s' !! y = if decide (y ∈ l) then None else parent s !! y) ∧
  (∀ y, next s' !! y = if decide (y ∈ l) then None else next s !! y) ∧
  (∀ y, stage s' !! y = if decide (y ∈ l) then None else stage s !! y) ∧
  (∀ g y, (g, y) ∈ displayObjects s' ↔
     (g, y) ∈ displayObjects s ∧ ¬ (y ∈ l ∧ stage s !! y = Some g)) ∧
  (∀ g y, (g, y) ∈ needsInsertion s' ↔
     (g, y) ∈ needsInsertion s ∧ ¬ (y ∈ l ∧ stage s !! y = Some g)).
Proof.
  induction l as [|c l IH]; intros s; simpl.
  - repeat split; try done; try (intros [? ?]; set_solver).
    all: intros ?; split; [done|]; intros [Hin _]; by apply elem_of_nil in Hin.
  - destruct (IH (unlinked c s)) as (-> & -> & -> & Hpa & Hn & Hs & Hd & Hi).
    destruct (unlinked_fields c s)
      as (Hproto & Hch & Hparent & Hnext & Hstage & Hmovies & Hdo & Hni).
    split; [done|]. split; [done|]. split; [done|].
    assert (Hlookup : ∀ (m : gmap nat nat) y,
      (if decide (y ∈ l) then None else delete c m !! y)
      = if decide (y ∈ c :: l) then None else m !! y).
    { intros m y. destruct (decide (y = c)) as [->|Hne].
      - rewrite lookup_delete_eq, (decide_True (P := c ∈ c :: l)) by by left.
        by destruct (decide (c ∈ l)).
      - rewrite lookup_delete_ne by done.
        destruct (decide (y ∈ l)).
        + by rewrite decide_True by by right.
        + rewrite decide_False; [done|]. by intros [?|?]%elem_of_cons. }
    split; [intros y; by rewrite Hpa, Hparent, Hlookup|].
    split; [intros y; by rewrite Hn, Hnext, Hlookup|].
    split; [intros y; by rewrite Hs, Hstage, Hlookup|].
    assert (Hreg : ∀ (r r' : gset (nat * nat)),
      r' = match stage s !! c with
           | Some g => r ∖ {[ (g, c) ]}
           | None => r
           end ->
      ∀ g y,
        ((g, y) ∈ r' ∧ ¬ (y ∈ l ∧ stage (unlinked c s) !! y = Some g))
        ↔ ((g, y) ∈ r ∧ ¬ (y ∈ c :: l ∧ stage s !! y = Some g))).
    { intros r r' -> g y. rewrite Hstage.
      destruct (decide (y = c)) as [->|Hne].
      - rewrite lookup_delete_eq.
        destruct (stage s !! c) as [g0|] eqn:Hg0.
        + rewrite elem_of_difference, elem_of_singleton. split.
          * intros [[Hin Hne] _]. split; [done|]. intros [_ [= ->]]. done.
          * intros [Hin Hne]. split; [|by intros [_ ?]].
            split; [done|]. intros [= ->]. apply Hne. split; [by left|done].
        + split; intros [Hin _]; (split; [done|]); by intros [_ ?].
      - rewrite lookup_delete_ne by done.
        assert ((g, y) ∈ match stage s !! c with
                         | Some g0 => r ∖ {[ (g0, c) ]}
                         | None => r
                         end ↔ (g, y) ∈ r) as ->.
        { destruct (stage s !! c); [|done].
          rewrite elem_of_difference, elem_of_singleton. naive_solver. }
        rewrite elem_of_cons. naive_solver. }
    split.
    + intros g y. rewrite Hd. by apply Hreg.
    + intros g y. rewrite Hi. by apply Hreg.
Qed.

Lemma clear_plain s owner l :
  children s !! owner = Some (Some <$> l) ->
  (∀ x, x ∈ l -> kind_of s x = Plain) ->
  ∃ s', clear owner s = (s', Normal tt) ∧ all_detached s owner l s'.
Proof.
  intros Harr Hplain. unfold clear.
  rewrite (bind_run _ _ s s (Some <$> l)) by by apply children_of_run.
  erewrite bind_run.
  2:{ rewrite length_fmap. by apply (clear_loop_plain owner l). }
  rewrite drop_0. eexists. split; [reflexivity|].
  destruct (unlink_all_spec l s) as (Hp & Hm & Hc & Hrest).
  unfold all_detached. simpl. by rewrite Hc.
Qed.

Lemma registry_step (r0 r r' : gset (nat * nat)) (stg : gmap nat nat) R x :
  (∀ g y, (g, y) ∈ r ↔ (g, y) ∈ r0 ∧ ¬ (y ∈ R ∧ stg !! y = Some g)) ->
  r' = match stg !! x with
       | Some g => r ∖ {[ (g, x) ]}
       | None => r
       end ->
  ∀ g y, (g, y) ∈ r' ↔ (g, y) ∈ r0 ∧ ¬ (y ∈ x :: R ∧ stg !! y = Some g).
Proof.
  intros Hr -> g y. rewrite elem_of_cons.
  destruct (stg !! x) as [g0|] eqn:Hg0.
  - rewrite elem_of_difference, elem_of_singleton, Hr. split.
    + intros [[Hin Hout] Hne]. split; [done|].
      intros [[->|HR] Hg]; [|by apply Hout].
      rewrite Hg0 in Hg. injection Hg as ->. done.
    + intros [Hin Hout]. split; [split; [done|]|].
      * intros [HR Hg]. apply Hout. split; [by right|done].
      * intros [= -> ->]. apply Hout. split; [by left|done].
  - rewrite Hr. split.
    + intros [Hin Hout]. split; [done|].
      intros [[->|HR] Hg]; [by rewrite Hg0 in Hg|by apply Hout].
    + intros [Hin Hout]. split; [done|].
      intros [HR Hg]. apply Hout. split; [by right|done].
Qed.

Lemma next_relinked arr x k s y :
  ¬ (0 < k ∧ aget arr (k - 1) = Some y) ->
  next (relinked arr x k s) !! y = next s !! y.
Proof.
  intros Hy. unfold relinked. destruct (0 <? k) eqn:Hk0; [|done].
  destruct (aget arr (k - 1)) as [p|] eqn:Hp; [|done]. simpl.
  apply lookup_assign_ne. intros ->. apply Hy.
  split; [by apply Nat.ltb_lt|done].
Qed.

Lemma remove_step s owner rem R si x :
  partly_detached s owner rem R si ->
  NoDup rem -> (∀ y, y ∈ rem -> y ∉ R) -> x ∈ rem -> kind_of s x = Plain ->
  ∃ si' k, remove owner x si = (si', Normal tt) ∧ rem !! k = Some x ∧
    partly_detached s owner (delete k rem) (x :: R) si'.
Proof.
  intros (Hproto & Hmovies & Hch & Hpar & Hst & HnR & Hnout & Hdo & Hni)
    Hnd Hdisj Hx Hplain.
  assert (Hin : Some x ∈ Some <$> rem) by by apply list_elem_of_fmap_2.
  destruct (indexOf_is_Some _ _ Hin) as [k Hk].
  destruct (indexOf_Some _ _ _ Hk) as [Hkx _].
  rewrite list_lookup_fmap in Hkx.
  destruct (rem !! k) as [x'|] eqn:Hremk; [|done]. injection Hkx as ->.
  exists (removed owner (Some <$> rem) x k si), k.
  split; [|split; [done|]].
  { apply remove_plain_run; [|apply Forall_fmap, Forall_forall; by eexists|done|].
    - rewrite Hch. apply lookup_insert_eq.
    - unfold kind_of. by rewrite Hproto. }
  assert (HxR : x ∉ R) by by apply Hdisj.
  assert (Hstx : stage si !! x = stage s !! x) by by rewrite Hst, decide_False.
  unfold removed, partly_detached. simpl.
  destruct (unlinked_fields x (relinked (Some <$> rem) x k si))
    as (-> & -> & -> & -> & -> & -> & -> & ->).
  destruct (relinked_fields (Some <$> rem) x k si)
    as (-> & -> & -> & -> & -> & -> & ->).
  assert (Hcase : ∀ (m0 m : gmap nat nat),
    (∀ y, m !! y = if decide (y ∈ R) then None else m0 !! y) ->
    ∀ y, delete x m !! y = if decide (y ∈ x :: R) then None else m0 !! y).
  { intros m0 m Hm y. destruct (decide (y = x)) as [->|Hne].
    - rewrite lookup_delete_eq. by rewrite decide_True by by left.
    - rewrite lookup_delete_ne, Hm by done.
      destruct (decide (y ∈ R)).
      + by rewrite decide_True by by right.
      + rewrite decide_False; [done|]. by intros [?|?]%elem_of_cons. }
  assert (Hperm : rem ≡ₚ x :: delete k rem) by by apply delete_Permutation.
  split; [done|]. split; [done|]. split.
  { rewrite Hch, insert_insert_eq. by rewrite list_fmap_delete. }
  split; [by apply Hcase|]. split; [by apply Hcase|]. split.
  { intros y [->|HyR]%elem_of_cons; [apply lookup_delete_eq|].
    assert (y ≠ x) by (intros ->; done).
    rewrite lookup_delete_ne by done.
    rewrite next_relinked; [by apply HnR|].
    intros [_ Hpred]. unfold aget in Hpred.
    rewrite list_lookup_fmap in Hpred.
    destruct (rem !! (k - 1)) as [p|] eqn:Hp; simplify_eq/=.
    apply (Hdisj y); [by eapply list_elem_of_lookup_2|done]. }
  split.
  { intros y HyR Hyrem.
    apply not_elem_of_cons in HyR as [Hne HyR].
    assert (Hy : y ∉ rem).
    { rewrite Hperm. by intros [?|?]%elem_of_cons. }
    rewrite lookup_delete_ne by done.
    rewrite next_relinked; [by apply Hnout|].
    intros [_ Hpred]. unfold aget in Hpred.
    rewrite list_lookup_fmap in Hpred.
    destruct (rem !! (k - 1)) as [p|] eqn:Hp; simplify_eq/=.
    apply Hy. by eapply list_elem_of_lookup_2. }
  split.
  - apply (registry_step _ (displayObjects si)); [done|by rewrite Hstx].
  - apply (registry_step _ (needsInsertion si)); [done|by rewrite Hstx].
Qed.

Lemma remove_each_plain s owner : ∀ rs rem R si,
  rem ≡ₚ rs -> NoDup rem -> (∀ y, y ∈ rem -> y ∉ R) ->
  (∀ x, x ∈ rem -> kind_of s x = Plain) ->
  partly_detached s owner rem R si ->
  ∃ s' R', remove_each owner rs si = (s', Normal tt) ∧ R' ≡ₚ rs ++ R ∧
    partly_detached s owner [] R' s'.
Proof.
  induction rs as [|x rs IH]; intros rem R si Hperm Hnd Hdisj Hplain Hinv.
  - apply Permutation_nil_r in Hperm as ->. by exists si, R.
  - assert (Hx : x ∈ rem) by (rewrite Hperm; by left).
    destruct (remove_step s owner rem R si x Hinv Hnd Hdisj Hx (Hplain x Hx))
      as (si' & k & Hrun & Hk & Hinv').
    pose proof (delete_Permutation rem k x Hk) as Hdel.
    assert (Hnd' : NoDup (x :: delete k rem)) by by rewrite <- Hdel.
    apply NoDup_cons in Hnd' as [Hxdel Hnd'].
    destruct (IH (delete k rem) (x :: R) si') as (s' & R' & Hrun' & HR' & Hfin).
    + apply (Permutation_cons_inv (a := x)). by rewrite <- Hdel.
    + done.
    + intros y Hy [->|HyR]%elem_of_cons; [done|].
      apply (Hdisj y); [|done]. rewrite Hdel. by right.
    + intros y Hy. apply Hplain. rewrite Hdel. by right.
    + done.
    + exists s', R'. split; [|split; [|done]].
      * simpl. by rewrite (bind_run _ _ si si' tt).
      * rewrite HR'. simpl. by rewrite Permutation_middle.
Qed.

(** Removing the children of a container of distinct plain display
    objects one by one, in any order, detaches them all. *)
Lemma remove_each_all_detached (s : state) (owner : nat) (l rs : list nat) :
  children s !! owner = Some (Some <$> l) -> NoDup l ->
  (∀ x, x ∈ l -> kind_of s x = Plain) -> rs ≡ₚ l ->
  ∃ s', remove_each owner rs s = (s', Normal tt) ∧ all_detached s owner l s'.
Proof.
  intros Harr Hnd Hplain Hperm.
  destruct (remove_each_plain s owner rs l [] s) as (sr & R & Hrun & HR & Hsr).
  - done.
  - done.
  - intros y _ Hy. by apply elem_of_nil in Hy.
  - done.
  - repeat split; try done.
    + symmetry. by apply insert_id.
    + intros y Hy. by apply elem_of_nil in Hy.
    + intros [Hin%elem_of_nil _]. done.
    + by intros [Hin _].
    + intros [Hin%elem_of_nil _]. done.
    + by intros [Hin _].
  - rewrite app_nil_r in HR.
    assert (Hmem : ∀ y, y ∈ R ↔ y ∈ l) by (intros y; by rewrite HR, Hperm).
    exists sr. split; [done|].
    destruct Hsr as (Hp & Hm & Hc & Hpa & Hst & HnR & Hnout & Hdo & Hni).
    assert (Hdec : ∀ (A : Type) (a b : A) y,
      (if decide (y ∈ R) then a else b) = if decide (y ∈ l) then a else b).
    { intros A a b y. destruct (decide (y ∈ R)) as [Hy|Hy].
      - by rewrite decide_True by by apply Hmem.
      - rewrite decide_False; [done|]. by rewrite <- Hmem. }
    split; [done|]. split; [done|]. split; [done|].
    split; [intros y; by rewrite Hpa, Hdec|].
    split.
    { intros y. destruct (decide (y ∈ l)) as [Hy|Hy].
      - apply HnR. by apply Hmem.
      - apply Hnout; [by rewrite Hmem|]. by intros ?%elem_of_nil. }
    split; [intros y; by rewrite Hst, Hdec|].
    split.
    + intros g y. rewrite Hdo.
      split; intros [Hin Hout]; (split; [done|]); intros [Hy Hg];
        apply Hout; (split; [by apply Hmem|done]).
    + intros g y. rewrite Hni.
      split; intros [Hin Hout]; (split; [done|]); intros [Hy Hg];
        apply Hout; (split; [by apply Hmem|done]).
Qed.

(** X15.  For a container of distinct plain display objects, [clear] and
    the removal of every child one by one, in any order, both return and end
    in the same store: the container is empty and every former child is
    without parent, next sibling and stage and out of the registry. *)
Theorem clear_equals_removes_plain (s : state) (owner : nat) (l rs : list nat) :
  children s !! owner = Some (Some <$> l) -> NoDup l ->
  (∀ x, x ∈ l -> kind_of s x = Plain) -> rs ≡ₚ l ->
  ∃ s', clear owner s = (s', Normal tt) ∧
    remove_each owner rs s = (s', Normal tt) ∧
    all_detached s owner l s'.
Proof.
  intros Harr Hnd Hplain Hperm.
  destruct (clear_plain s owner l Harr Hplain) as (sc & Hclear & Hsc).
  destruct (remove_each_all_detached s owner l rs Harr Hnd Hplain Hperm)
    as (sr & Hrun & Hsr).
  assert (sr = sc) as -> by by apply (all_detached_unique s owner l).
  by exists sc.
Qed.

Lemma clear_equals_removes_plain_witness :
  ∃ s', clear 0 family = (s', Normal tt) ∧
    remove_each 0 [2; 3; 1] family = (s', Normal tt) ∧
    all_detached family 0 [1; 2; 3] s'.
Proof.
  apply (clear_equals_removes_plain family 0 [1; 2; 3] [2; 3; 1]).
  - reflexivity.
  - by apply (bool_decide_unpack _).
  - intros x _. reflexivity.
  - symmetry. apply (Permutation_cons_append [2; 3] 1).
Defined.

(** ** The chain of ancestors *)



(** ** Consistency of the structure *)

Lemma filter_other_id (arr : list (option nat)) v :
  v ∉ arr -> filter (fun slot => slot ≠ v) arr = arr.
Proof.
  induction arr as [|w arr IH]; intros Hv; [done|].
  apply not_elem_of_cons in Hv as [Hne Hv].
  rewrite filter_cons_True by done. f_equal. by apply IH.
Qed.

Lemma delete_filter_NoDup (arr : list (option nat)) k v :
  NoDup arr -> arr !! k = Some v ->
  delete k arr = filter (fun slot => slot ≠ v) arr.
Proof.
  revert k. induction arr as [|w arr IH]; intros k Hnd Hk; [done|].
  apply NoDup_cons in Hnd as [Hw Hnd].
  destruct k as [|k]; simpl in *.
  - injection Hk as ->. rewrite filter_cons_False by (intros H; by apply H).
    symmetry. by apply filter_other_id.
  - rewrite filter_cons_True.
    + f_equal. by apply IH.
    + intros ->. apply Hw. by eapply list_elem_of_lookup_2.
Qed.

Lemma aget_delete_lt arr k i : i < k -> aget (delete k arr) i = aget arr i.
Proof. intros. unfold aget. by rewrite list_lookup_delete_lt. Qed.

Lemma aget_delete_ge arr k i : k ≤ i -> aget (delete k arr) i = aget arr (S i).
Proof. intros. unfold aget. by rewrite list_lookup_delete_ge. Qed.

Lemma aget_lookup arr i x : aget arr i = Some x ↔ arr !! i = Some (Some x).
Proof.
  unfold aget. destruct (arr !! i) as [[y|]|]; simpl; split; congruence.
Qed.

Lemma well_formed_couple : well_formed couple.
Proof.
  split; [|split].
  - intros o arr Harr. unfold couple in Harr. simpl in Harr.
    apply lookup_insert_Some in Harr as [[<- <-]|[_ Harr]];
      [|by rewrite lookup_empty in Harr].
    split; [repeat constructor; by eexists|]. split.
    { apply NoDup_cons. split; [|apply NoDup_singleton].
      by intros [=]%list_elem_of_singleton. }
    split.
    + intros [|[|i]] x Hx; cbv in Hx; simplify_eq; reflexivity.
    + intros x [[= ->]|[= ->]%list_elem_of_singleton]%elem_of_cons;
        reflexivity.
  - intros x p Hp. unfold couple in Hp. simpl in Hp.
    apply lookup_insert_Some in Hp as [[<- <-]|[_ Hp]].
    { eexists. split; [reflexivity|]. by left. }
    apply lookup_insert_Some in Hp as [[<- <-]|[_ Hp]];
      [|by rewrite lookup_empty in Hp].
    eexists. split; [reflexivity|]. right. by left.
  - intros x Hx. unfold couple in *. simpl in *.
    destruct (decide (x = 1)) as [->|Hne]; [done|].
    by rewrite lookup_insert_ne.
Qed.

(** X2.  [remove] in a consistent store, for a plain display object and an
    owner with a display list: the call returns, the store is consistent
    again, the container of the owner is the old one without the object,
    and an object that was in the container is left without parent. *)
Theorem remove_keeps_well_formed (s : state) (owner : nat)
    (arr : list (option nat)) (x : nat) :
  well_formed s -> children s !! owner = Some arr -> kind_of s x = Plain ->
  ∃ s', remove owner x s = (s', Normal tt) ∧ well_formed s' ∧
    children s' !! owner = Some (filter (fun slot => slot ≠ Some x) arr) ∧
    (Some x ∈ arr -> parent s' !! x = None ∧ next s' !! x = None).
Proof.
  intros (Hc & Hp & Hn) Harr Hplain.
  destruct (Hc owner arr Harr) as (Hdense & Hnd & Hlinked & Hpar).
  destruct (decide (Some x ∈ arr)) as [Hin|Hout].
  2:{ exists s. split; [|split; [done|split; [|done]]].
      - unfold remove. erewrite bind_run by by apply children_of_run.
        by rewrite indexOf_None.
      - by rewrite filter_other_id. }
  destruct (indexOf_is_Some arr x Hin) as [k Hk].
  destruct (indexOf_Some _ _ _ Hk) as [Hkx _].
  pose proof (proj2 (aget_lookup arr k x) Hkx) as Hkx'.
  destruct (remove_direct_child s owner arr x k Harr Hdense Hk Hplain)
    as (s' & Hrun & Hch & _ & Hpx & Hnx & _ & Hpred & Hframe).
  assert (Hxo : parent s !! x = Some owner) by by apply Hpar.
  assert (Hpredo : ∀ y, aget arr (k - 1) = Some y -> parent s !! y = Some owner).
  { intros y Hy. apply Hpar. by eapply aget_Some_elem_of. }
  exists s'. split; [done|]. split; [|split; [|done]].
  2:{ rewrite Hch, lookup_insert_eq. f_equal. by apply delete_filter_NoDup. }
  split; [|split].
  - intros o' arr' Harr'. rewrite Hch in Harr'.
    apply lookup_insert_Some in Harr' as [[<- <-]|[Hne Harr']].
    + split; [by apply dense_delete|]. split.
      { eapply sublist_NoDup; [done|apply sublist_delete]. }
      split.
      * intros i y Hy. destruct (decide (i < k)) as [Hlt|Hge].
        -- rewrite aget_delete_lt in Hy by done.
           assert (y ≠ x).
           { intros ->. pose proof (aget_NoDup _ _ _ _ Hnd Hy Hkx'). lia. }
           destruct (decide (i = k - 1)) as [->|Hne].
           ++ rewrite (Hpred y) by (done || lia).
              rewrite (Hlinked k x Hkx'), aget_delete_ge by lia.
              f_equal. lia.
           ++ destruct (Hframe y) as (_ & _ & Hny); [done|].
              rewrite Hny.
              ** rewrite (Hlinked i y Hy), aget_delete_lt by lia. done.
              ** intros [_ Hy']. pose proof (aget_NoDup _ _ _ _ Hnd Hy Hy'). lia.
        -- rewrite aget_delete_ge in Hy by lia.
           assert (y ≠ x).
           { intros ->. pose proof (aget_NoDup _ _ _ _ Hnd Hy Hkx'). lia. }
           destruct (Hframe y) as (_ & _ & Hny); [done|].
           rewrite Hny.
           ++ rewrite (Hlinked _ y Hy), aget_delete_ge by lia.
              f_equal; lia.
           ++ intros [_ Hy']. pose proof (aget_NoDup _ _ _ _ Hnd Hy Hy'). lia.
      * intros y Hy.
        assert (y ≠ x).
        { intros ->. by apply (not_elem_of_delete_NoDup arr k (Some x)). }
        destruct (Hframe y) as (-> & _); [done|].
        apply Hpar. by eapply list_elem_of_delete_inv.
    + destruct (Hc o' arr' Harr') as (Hdense' & Hnd' & Hlinked' & Hpar').
      assert (Hmem : ∀ y, Some y ∈ arr' ->
        y ≠ x ∧ ¬ (0 < k ∧ aget arr (k - 1) = Some y)).
      { intros y Hy. pose proof (Hpar' y Hy) as Hyo. split.
        - intros ->. congruence.
        - intros [_ Hy']. pose proof (Hpredo y Hy'). congruence. }
      split; [done|]. split; [done|]. split.
      * intros i y Hy.
        destruct (Hmem y (aget_Some_elem_of _ _ _ Hy)) as [Hyx Hypred].
        destruct (Hframe y Hyx) as (_ & _ & Hny).
        rewrite Hny by done. by apply Hlinked'.
      * intros y Hy. destruct (Hmem y Hy) as [Hyx _].
        destruct (Hframe y Hyx) as (-> & _). by apply Hpar'.
  - intros y p Hy.
    assert (y ≠ x) by (intros ->; congruence).
    destruct (Hframe y) as (Hpy & _); [done|]. rewrite Hpy in Hy.
    destruct (Hp y p Hy) as (arr' & Harr' & Hin').
    rewrite Hch. destruct (decide (p = owner)) as [->|Hne].
    + rewrite lookup_insert_eq. eexists. split; [done|].
      assert (arr' = arr) as -> by congruence.
      pose proof (delete_Permutation arr k (Some x) Hkx) as Hperm.
      rewrite Hperm in Hin'.
      apply elem_of_cons in Hin' as [[= ->]|Hin']; done.
    + rewrite lookup_insert_ne by done. eauto.
  - intros y Hy. destruct (decide (y = x)) as [->|Hne]; [done|].
    destruct (Hframe y Hne) as (Hpy & _ & Hny). rewrite Hpy in Hy.
    rewrite Hny; [by apply Hn|].
    intros [_ Hy']. pose proof (Hpredo y Hy'). congruence.
Qed.

Lemma remove_keeps_well_formed_witness :
  ∃ s', remove 0 1 couple = (s', Normal tt) ∧ well_formed s' ∧
    children s' !! 0
    = Some (filter (fun slot => slot ≠ Some 1) [Some 1; Some 2]) ∧
    (Some 1 ∈ [Some 1; Some 2] -> parent s' !! 1 = None ∧ next s' !! 1 = None).
Proof.
  apply (remove_keeps_well_formed couple 0 [Some 1; Some 2] 1).
  - exact well_formed_couple.
  - reflexivity.
  - reflexivity.
Defined.

Lemma splice_in_Permutation k xs arr :
  splice_in k xs arr ≡ₚ (Some <$> xs) ++ arr.
Proof.
  unfold splice_in. rewrite <- (take_drop k arr) at 3.
  by rewrite (assoc_L (++)), (comm (++) (take k arr)), <- (assoc_L (++)).
Qed.

Lemma elem_of_splice_in k xs arr y :
  Some y ∈ splice_in k xs arr ↔ y ∈ xs ∨ Some y ∈ arr.
Proof.
  rewrite splice_in_Permutation, elem_of_app.
  by rewrite (list_elem_of_fmap_inj Some).
Qed.

Lemma NoDup_splice_in k xs arr :
  NoDup arr -> NoDup xs -> (∀ x, x ∈ xs -> Some x ∉ arr) ->
  NoDup (splice_in k xs arr).
Proof.
  intros Harr Hxs Hdisj. rewrite splice_in_Permutation.
  apply NoDup_app. split; [by apply (NoDup_fmap_2 Some)|]. split; [|done].
  intros slot (x & -> & Hx)%list_elem_of_fmap. by apply Hdisj.
Qed.

(** X3.  [add] of detached plain display objects (distinct, none of them
    the owner or an ancestor of it) in a consistent store: the call returns,
    the store is consistent again, the container is the old one with the
    new objects spliced in at the resolved index in the order passed, and
    the parent of each new object is the owner. *)
Theorem add_detached_keeps_well_formed (fuel : nat) (s : state) (owner : nat)
    (arr : list (option nat)) (anc : list nat) (child : items)
    (insertAt : option jsarg) :
  well_formed s ->
  getAncestors fuel s owner = Some anc -> children s !! owner = Some arr ->
  items_list child ≠ [] -> NoDup (items_list child) ->
  (∀ x, x ∈ items_list child ->
     (x ∉ anc) ∧ parent s !! x = None ∧ kind_of s x = Plain) ->
  ∃ s', add fuel owner child insertAt s = (s', Normal tt) ∧ well_formed s' ∧
    children s' !! owner
    = Some (splice_in (resolve_insertAt insertAt (length arr))
              (items_list child) arr) ∧
    (∀ x, x ∈ items_list child -> parent s' !! x = Some owner).
Proof.
  intros (Hc & Hp & Hn) Hanc Harr Hne Hndx Hxs.
  destruct (Hc owner arr Harr) as (Hdense & Hnd & Hlinked & Hpar).
  assert (Hfresh : ∀ x o' arr', x ∈ items_list child ->
    children s !! o' = Some arr' -> Some x ∉ arr').
  { intros x o' arr' Hx Harr' Hin. destruct (Hxs x Hx) as (_ & Hpx & _).
    destruct (Hc o' arr' Harr') as (_ & _ & _ & Hpar').
    rewrite (Hpar' x Hin) in Hpx. done. }
  destruct (add_detached fuel s owner arr anc child insertAt)
    as (s' & Hrun & Hch & Hnew & Hpred & Hframe); try done.
  destruct (add_detached_linked fuel s owner arr anc child insertAt)
    as (s'' & Hrun' & _ & Hlinked'); try done.
  { intros x Hx. destruct (Hxs x Hx) as (? & ? & ?). eauto 10. }
  assert (s'' = s') as -> by congruence.
  set (xs := items_list child) in *.
  set (k := resolve_insertAt insertAt (length arr)) in *.
  assert (Hpredo : ∀ y, aget arr (k - 1) = Some y -> parent s !! y = Some owner).
  { intros y Hy. apply Hpar. by eapply aget_Some_elem_of. }
  assert (Hnewpar : ∀ x, x ∈ xs -> parent s' !! x = Some owner).
  { intros x [j Hj]%list_elem_of_lookup. by destruct (Hnew j x Hj) as (_ & ? & _). }
  exists s'. split; [done|]. split; [|split; [|done]].
  2:{ rewrite Hch. apply lookup_insert_eq. }
  split; [|split].
  - intros o' arr' Harr'. rewrite Hch in Harr'.
    apply lookup_insert_Some in Harr' as [[<- <-]|[Hneo Harr']].
    + split; [by apply dense_splice_in|]. split.
      { apply NoDup_splice_in; [done|done|]. intros x Hx. by eapply Hfresh. }
      split; [done|].
      intros y [Hy|Hy]%elem_of_splice_in; [by apply Hnewpar|].
      assert (y ∉ xs) by (intros Hin; by eapply (Hfresh y owner arr)).
      destruct (Hframe y) as (-> & _); [done|]. by apply Hpar.
    + destruct (Hc o' arr' Harr') as (Hdense' & Hnd' & Hlk' & Hpar').
      assert (Hmem : ∀ y, Some y ∈ arr' ->
        (y ∉ xs) ∧ ¬ (0 < k ∧ aget arr (k - 1) = Some y)).
      { intros y Hy. split.
        - intros Hin. by eapply (Hfresh y o' arr').
        - intros [_ Hy']. pose proof (Hpredo y Hy'). pose proof (Hpar' y Hy).
          congruence. }
      split; [done|]. split; [done|]. split.
      * intros i y Hy.
        destruct (Hmem y (aget_Some_elem_of _ _ _ Hy)) as [Hyx Hypred].
        destruct (Hframe y Hyx) as (_ & _ & Hny).
        rewrite Hny by done. by apply Hlk'.
      * intros y Hy. destruct (Hmem y Hy) as [Hyx _].
        destruct (Hframe y Hyx) as (-> & _). by apply Hpar'.
  - intros y p Hy. rewrite Hch.
    destruct (decide (y ∈ xs)) as [Hin|Hout].
    + rewrite (Hnewpar y Hin) in Hy. injection Hy as <-.
      rewrite lookup_insert_eq. eexists. split; [done|].
      apply elem_of_splice_in. by left.
    + destruct (Hframe y Hout) as (Hpy & _). rewrite Hpy in Hy.
      destruct (Hp y p Hy) as (arr' & Harr' & Hin').
      destruct (decide (p = owner)) as [->|Hneo].
      * rewrite lookup_insert_eq. eexists. split; [done|].
        apply elem_of_splice_in. right. congruence.
      * rewrite lookup_insert_ne by done. eauto.
  - intros y Hy.
    assert (Hout : y ∉ xs).
    { intros Hin. rewrite (Hnewpar y Hin) in Hy. done. }
    destruct (Hframe y Hout) as (Hpy & _ & Hny). rewrite Hpy in Hy.
    rewrite Hny; [by apply Hn|].
    intros [_ Hy']. pose proof (Hpredo y Hy'). congruence.
Qed.

Lemma add_detached_keeps_well_formed_witness :
  ∃ s', add 2 0 (Many [7; 8]) (Some (JNumber (Finite 1 1))) couple
        = (s', Normal tt) ∧ well_formed s' ∧
    children s' !! 0
    = Some (splice_in (resolve_insertAt (Some (JNumber (Finite 1 1)))
                         (length [Some 1; Some 2]))
              (items_list (Many [7; 8])) [Some 1; Some 2]) ∧
    (∀ x, x ∈ items_list (Many [7; 8]) -> parent s' !! x = Some 0).
Proof.
  apply (add_detached_keeps_well_formed 2 couple 0 [Some 1; Some 2] [0]).
  - exact well_formed_couple.
  - reflexivity.
  - reflexivity.
  - discriminate.
  - apply NoDup_cons. split; [|apply NoDup_singleton].
    by intros [=]%list_elem_of_singleton.
  - intros x [->|[->|[]%elem_of_nil]%elem_of_cons]%elem_of_cons;
      (split; [by intros [=]%list_elem_of_singleton|split; reflexivity]).
Defined.

Lemma dense_fmap_Some arr : dense arr -> arr = Some <$> omap id arr.
Proof.
  induction 1 as [|slot arr [x ->] _ IH]; [done|]. cbn. by f_equal.
Qed.

Lemma elem_of_omap_id {A} (arr : list (option A)) x :
  x ∈ omap id arr ↔ Some x ∈ arr.
Proof.
  rewrite list_elem_of_omap. split.
  - intros (slot & Hin & Hid). unfold id in Hid. by subst slot.
  - intros Hin. by exists (Some x).
Qed.

(** X4.  [clear] in a consistent store, on a container of plain display
    objects: the call returns, the store is consistent again, the container
    is empty, and every former child is without parent and without next
    sibling. *)
Theorem clear_keeps_well_formed (s : state) (owner : nat)
    (arr : list (option nat)) :
  well_formed s -> children s !! owner = Some arr ->
  (∀ x, Some x ∈ arr -> kind_of s x = Plain) ->
  ∃ s', clear owner s = (s', Normal tt) ∧ well_formed s' ∧
    children s' !! owner = Some [] ∧
    (∀ x, Some x ∈ arr -> parent s' !! x = None ∧ next s' !! x = None).
Proof.
  intros (Hc & Hp & Hn) Harr Hplain.
  destruct (Hc owner arr Harr) as (Hdense & Hnd & Hlinked & Hpar).
  set (l := omap id arr).
  assert (Harr' : children s !! owner = Some (Some <$> l)).
  { rewrite Harr. f_equal. by apply dense_fmap_Some. }
  destruct (clear_plain s owner l Harr') as (s' & Hrun & Hs').
  { intros x Hx. apply Hplain. by apply elem_of_omap_id. }
  destruct Hs' as (_ & _ & Hch & Hpa & Hnx & _).
  assert (Hl : ∀ y, y ∈ l -> parent s !! y = Some owner).
  { intros y Hy. apply Hpar. by apply elem_of_omap_id. }
  assert (Hkeep : ∀ y, y ∉ l ->
    parent s' !! y = parent s !! y ∧ next s' !! y = next s !! y).
  { intros y Hy. by rewrite Hpa, Hnx, !decide_False. }
  exists s'. split; [done|]. split; [|split].
  - split; [|split].
    + intros o' arr1 Harr1. rewrite Hch in Harr1.
      apply lookup_insert_Some in Harr1 as [[<- <-]|[Hneo Harr1]].
      { split; [constructor|]. split; [constructor|]. split.
        - intros i y Hy. by destruct i.
        - intros y Hy. by apply elem_of_nil in Hy. }
      destruct (Hc o' arr1 Harr1) as (Hdense1 & Hnd1 & Hlk1 & Hpar1).
      assert (Hmem : ∀ y, Some y ∈ arr1 -> y ∉ l).
      { intros y Hy Hin. pose proof (Hl y Hin). pose proof (Hpar1 y Hy).
        congruence. }
      split; [done|]. split; [done|]. split.
      * intros i y Hy.
        destruct (Hkeep y (Hmem y (aget_Some_elem_of _ _ _ Hy))) as [_ ->].
        by apply Hlk1.
      * intros y Hy. destruct (Hkeep y (Hmem y Hy)) as [-> _]. by apply Hpar1.
    + intros y p Hy. rewrite Hpa in Hy.
      destruct (decide (y ∈ l)) as [Hin|Hout]; [done|].
      destruct (Hp y p Hy) as (arr1 & Harr1 & Hin1).
      rewrite Hch. destruct (decide (p = owner)) as [->|Hneo].
      * exfalso. apply Hout. apply elem_of_omap_id. congruence.
      * rewrite lookup_insert_ne by done. eauto.
    + intros y Hy. rewrite Hnx. rewrite Hpa in Hy.
      destruct (decide (y ∈ l)); [done|]. by apply Hn.
  - rewrite Hch. apply lookup_insert_eq.
  - intros x Hx%elem_of_omap_id. by rewrite Hpa, Hnx, !decide_True.
Qed.

Lemma clear_keeps_well_formed_witness :
  ∃ s', clear 0 couple = (s', Normal tt) ∧ well_formed s' ∧
    children s' !! 0 = Some [] ∧
    (∀ x, Some x ∈ [Some 1; Some 2] ->
       parent s' !! x = None ∧ next s' !! x = None).
Proof.
  apply (clear_keeps_well_formed couple 0 [Some 1; Some 2]).
  - exact well_formed_couple.
  - reflexivity.
  - intros x _. reflexivity.
Defined.

(** ** The chain of ancestors has no cycle *)

Lemma getAncestors_suffix fuel s : ∀ a anc i x,
  getAncestors fuel s a = Some anc -> anc !! i = Some x ->
  getAncestors fuel s x = Some (drop i anc).
Proof.
  induction fuel as [|fuel IH]; intros a anc i x; [done|].
  intros Hanc Hi. destruct i as [|i].
  - assert (x = a) as ->; [|by rewrite drop_0].
    simpl in Hanc. destruct (parent s !! a) as [p|].
    + destruct (getAncestors fuel s p); simplify_eq/=; done.
    + by simplify_eq/=.
  - simpl in Hanc. destruct (parent s !! a) as [p|] eqn:Hp.
    + destruct (getAncestors fuel s p) as [rest|] eqn:Hrest; [|done].
      injection Hanc as <-.
      apply (getAncestors_mono fuel); [|lia].
      change (drop (S i) (a :: rest)) with (drop i rest). by apply (IH p).
    + injection Hanc as <-. by destruct i.
Qed.

Lemma getAncestors_no_child fuel s a anc x :
  getAncestors fuel s a = Some anc -> x ∈ anc -> parent s !! x ≠ Some a.
Proof.
  intros Hanc [i Hi]%list_elem_of_lookup Hp.
  pose proof (getAncestors_suffix _ _ _ _ _ _ Hanc Hi) as Hx.
  destruct fuel as [|fuel]; [done|].
  simpl in Hx. rewrite Hp in Hx.
  destruct (getAncestors fuel s a) as [rest|] eqn:Hrest; [|done].
  apply (getAncestors_mono _ (S fuel)) in Hrest; [|lia].
  rewrite Hanc in Hrest. simplify_eq/=.
  assert (Hlen : length (x :: rest) = length (drop i rest)) by by f_equal.
  rewrite length_drop in Hlen. simpl in Hlen. lia.
Qed.

Lemma getAncestors_ext fuel s s' : ∀ a anc,
  (∀ y, y ∈ anc -> parent s' !! y = parent s !! y) ->
  getAncestors fuel s a = Some anc -> getAncestors fuel s' a = Some anc.
Proof.
  induction fuel as [|fuel IH]; intros a anc Hsame; [done|]. simpl.
  destruct (parent s !! a) as [p|] eqn:Hp.
  - destruct (getAncestors fuel s p) as [rest|] eqn:Hrest; [|done].
    intros [= <-]. rewrite Hsame, Hp by (by left).
    rewrite (IH p rest); [done| |done].
    intros y Hy. apply Hsame. by right.
  - intros [= <-]. by rewrite Hsame, Hp by (by left).
Qed.

(** ** [children(newChildren)] of the [methods] surface *)

Lemma call_displayList_run {A} this name (body : M A) s arr :
  children s !! this = Some arr -> name ∈ DisplayList_prototype ->
  call_displayList this name body s = body s.
Proof.
  intros Harr Hname. unfold call_displayList.
  rewrite (bind_run _ _ s s arr) by by apply children_of_run.
  by rewrite bool_decide_true.
Qed.






(** ** A call without index: [add] against [addChild] *)

(** X7.  New display objects (detached plain display objects, none of them
    the owner or an ancestor) and a dense container.  [add(child)] appends
    them.  [addChild(child)] passes its missing [index] on as [undefined],
    so [add] sees a second argument and resolves it to index 0: the new
    objects are put in front of the existing children.  The same holds for
    the indices [NaN], [Infinity] and [-Infinity]. *)
Theorem add_appends_addChild_prepends (fuel : nat) (s : state) (owner : nat)
    (arr : list (option nat)) (anc : list nat) (child : items) :
  getAncestors fuel s owner = Some anc ->
  children s !! owner = Some arr -> dense arr ->
  items_list child ≠ [] -> NoDup (items_list child) ->
  (∀ x, x ∈ items_list child ->
     (x ∉ anc) ∧ parent s !! x = None ∧ kind_of s x = Plain) ->
  (∃ s', add fuel owner child None s = (s', Normal tt) ∧
     children s' !! owner = Some (arr ++ (Some <$> items_list child))) ∧
  (∀ index,
     index = JUndefined ∨ index = JNumber NaN ∨
     index = JNumber PosInf ∨ index = JNumber NegInf ->
     ∃ s', methods.addChild fuel owner child index s
           = (s', Normal (This owner)) ∧
       children s' !! owner = Some ((Some <$> items_list child) ++ arr)).
Proof.
  intros Hanc Harr Hdense Hne Hnd Hxs. split.
  - destruct (add_detached fuel s owner arr anc child None
                Hanc Harr Hdense Hne Hnd Hxs) as (s' & Hrun & Hch & _).
    exists s'. split; [done|]. rewrite Hch, lookup_insert_eq.
    simpl. unfold splice_in. by rewrite firstn_all, drop_all, app_nil_r.
  - intros index Hindex.
    destruct (add_detached fuel s owner arr anc child (Some index)
                Hanc Harr Hdense Hne Hnd Hxs) as (s' & Hrun & Hch & _).
    exists s'. split.
    + unfold methods.addChild.
      rewrite (bind_run _ _ s s' tt); [done|].
      by rewrite (call_displayList_run _ _ _ _ _ Harr) by set_solver.
    + rewrite Hch, lookup_insert_eq.
      assert (resolve_insertAt (Some index) (length arr) = 0) as ->.
      { unfold resolve_insertAt.
        destruct Hindex as [-> | [-> | [-> | ->]]]; simpl; lia. }
      unfold splice_in. by rewrite take_0, drop_0.
Qed.

Lemma add_appends_addChild_prepends_witness :
  (∃ s', add 2 0 (Many [7; 8]) None couple = (s', Normal tt) ∧
     children s' !! 0 = Some ([Some 1; Some 2] ++ (Some <$> [7; 8]))) ∧
  (∀ index,
     index = JUndefined ∨ index = JNumber NaN ∨
     index = JNumber PosInf ∨ index = JNumber NegInf ->
     ∃ s', methods.addChild 2 0 (Many [7; 8]) index couple
           = (s', Normal (This 0)) ∧
       children s' !! 0 = Some ((Some <$> [7; 8]) ++ [Some 1; Some 2])).
Proof.
  apply (add_appends_addChild_prepends 2 couple 0 [Some 1; Some 2] [0]
           (Many [7; 8])).
  - reflexivity.
  - reflexivity.
  - repeat constructor; by eexists.
  - discriminate.
  - apply NoDup_cons. split; [|apply NoDup_singleton].
    intros Hin%list_elem_of_singleton. discriminate.
  - intros x Hx. split.
    + intros Hin%list_elem_of_singleton. subst x.
      apply elem_of_cons in Hx as [Hx|Hx]; [discriminate|].
      apply list_elem_of_singleton in Hx. discriminate.
    + apply elem_of_cons in Hx as [->|Hx]; [by split|].
      apply list_elem_of_singleton in Hx as ->. by split.
Defined.

(** ** Display objects that carry [methods] *)

Lemma bind_abrupt {A B} (m : M A) (k : A -> M B) s s' e :
  m s = (s', Abrupt e) -> (m ≫= k) s = (s', Abrupt e).
Proof. intros Hm. unfold mbind, M_bind, bind. by rewrite Hm. Qed.

Lemma activation_of_container x stg s :
  kind_of s x ≠ Plain ->
  ∃ s', _activate x stg s = (s', Abrupt TypeError) ∧
    proto s' = proto s ∧ children s' = children s ∧
    parent s' = parent s ∧ next s' = next s ∧
    stage s' = assign x stg (stage s) ∧ movies s' = movies s.
Proof.
  intros Hkind. unfold _activate.
  destruct (kind_of s x); [done| |];
    exists (DisplayObject_activate x stg s).1; by destruct stg.
Qed.

Lemma deactivation_of_container x s :
  kind_of s x ≠ Plain ->
  ∃ s', _deactivate x s = (s', Abrupt TypeError) ∧
    proto s' = proto s ∧ children s' = children s ∧
    parent s' = parent s ∧ next s' = next s ∧
    stage s' = delete x (stage s) ∧
    movies s'
    = match kind_of s x, stage s !! x with
      | Timeline, Some g => movies s ∖ {[ (g, x) ]}
      | _, _ => movies s
      end.
Proof.
  intros Hkind. unfold _deactivate.
  destruct (kind_of s x); [done| |].
  - exists (DisplayObject_deactivate x s).1. split; [done|]. simpl.
    destruct (stage s !! x) eqn:Hg; repeat split; try done.
    symmetry. by apply delete_id.
  - unfold timelineMethods._deactivate, deactivate, stage_of, mbind, M_bind,
      bind, get, modify, DisplayObject_deactivate. simpl.
    destruct (stage s !! x) as [g|] eqn:Hg; simpl; rewrite Hg;
      eexists; (split; [reflexivity|]); simpl; repeat split; try done.
    symmetry. by apply delete_id.
Qed.



(** X9.  [remove] of a child that carries [methods] or [timelineMethods],
    found at index [k] of a dense container: the call ends in a
    [TypeError] raised by the child's [_deactivate], after the links have
    been cut and before the splice.  The child is still in the container,
    which is unchanged, but has no parent and no next sibling, and the
    object before it already points past it. *)
Theorem remove_container_child_raises (s : state) (owner : nat)
    (arr : list (option nat)) (x k : nat) :
  children s !! owner = Some arr -> dense arr ->
  indexOf arr x = Some k -> kind_of s x ≠ Plain ->
  ∃ s', remove owner x s = (s', Abrupt TypeError) ∧
    children s' = children s ∧
    parent s' !! x = None ∧ next s' !! x = None ∧
    (∀ p, 0 < k -> aget arr (k - 1) = Some p -> next s' !! p = next s !! x) ∧
    (∀ y, y ≠ x -> parent s' !! y = parent s !! y).
Proof.
  intros Harr Hdense Hk Hkind.
  destruct (indexOf_Some _ _ _ Hk) as [Hx Hfirst].
  assert (Hpre :
    (if 0 <? k
     then match aget arr (k - 1) with
          | Some prev => nx ← next_of x; set_next prev nx
          | None => raise TypeError
          end
     else ret ()) s = (relinked arr x k s, Normal tt)).
  { unfold relinked. destruct (0 <? k) eqn:Hk0; [|done].
    apply Nat.ltb_lt in Hk0.
    destruct (lookup_lt_is_Some_2 arr (k - 1)) as [slot Hslot].
    { apply lookup_lt_Some in Hx. lia. }
    destruct (proj1 (Forall_lookup _ _) Hdense _ _ Hslot) as [p ->].
    unfold aget. rewrite Hslot. done. }
  destruct (relinked_fields arr x k s) as (Hproto & Hch & Hpa & _).
  set (s1 := with_next (assign x None)
               (with_parent (assign x None) (relinked arr x k s))).
  destruct (deactivation_of_container x s1)
    as (s' & Hrun & _ & Hch' & Hpa' & Hnx' & _).
  { unfold kind_of. simpl. by rewrite Hproto. }
  exists s'. split.
  - unfold remove. rewrite (bind_run _ _ s s arr) by by apply children_of_run.
    rewrite Hk. erewrite bind_run by exact Hpre.
    erewrite bind_run by reflexivity. erewrite bind_run by reflexivity.
    by apply bind_abrupt.
  - rewrite Hch', Hpa', Hnx'. simpl. rewrite Hch, Hpa.
    split; [done|]. split; [apply lookup_delete_eq|].
    split; [apply lookup_delete_eq|]. split.
    + intros p Hk0 Hp.
      assert (p ≠ x).
      { intros ->. apply (Hfirst (k - 1)); [lia|].
        unfold aget in Hp.
        destruct (arr !! (k - 1)) as [[?|]|]; by simplify_eq/=. }
      rewrite lookup_delete_ne by done.
      unfold relinked. apply Nat.ltb_lt in Hk0. rewrite Hk0, Hp. simpl.
      apply lookup_assign_eq.
    + intros y Hy. by rewrite lookup_delete_ne.
Qed.

Lemma remove_container_child_raises_witness :
  ∃ s', remove 0 2 family_with_group = (s', Abrupt TypeError) ∧
    children s' = children family_with_group ∧
    parent s' !! 2 = None ∧ next s' !! 2 = None ∧
    (∀ p, 0 < 1 -> aget [Some 1; Some 2; Some 3] (1 - 1) = Some p ->
       next s' !! p = next family_with_group !! 2) ∧
    (∀ y, y ≠ 2 -> parent s' !! y = parent family_with_group !! y).
Proof.
  apply (remove_container_child_raises family_with_group 0
           [Some 1; Some 2; Some 3] 2 1).
  - reflexivity.
  - repeat constructor; by eexists.
  - reflexivity.
  - vm_compute. discriminate.
Defined.

Lemma add_prefix_run owner arr child k s :
  children s !! owner = Some arr -> dense arr -> k ≤ length arr ->
  let arr' := splice_in k (items_list child) arr in
  ∃ s1,
    (set_children owner arr' ;;
     (if 0 <? k
      then arr'' ← children_of owner;
           match aget arr'' (k - 1) with
           | Some prev => set_next prev (first_item child)
           | None => raise TypeError
           end
      else ret ())) s = (s1, Normal tt) ∧
    children s1 = <[owner:=arr']> (children s) ∧
    proto s1 = proto s ∧ parent s1 = parent s ∧ stage s1 = stage s.
Proof.
  intros Harr Hdense Hk arr'.
  rewrite (bind_run _ _ s (with_children (insert owner arr') s) tt)
    by reflexivity.
  destruct (0 <? k) eqn:Hk0; [|by eexists].
  apply Nat.ltb_lt in Hk0.
  rewrite (bind_run _ _ _ (with_children (insert owner arr') s) arr').
  2:{ apply children_of_run. apply lookup_insert_eq. }
  assert (aget arr' (k - 1) = aget arr (k - 1)) as ->
    by (apply aget_splice_in_before; [done|lia]).
  destruct (lookup_lt_is_Some_2 arr (k - 1)) as [slot Hslot]; [lia|].
  destruct (proj1 (Forall_lookup _ _) Hdense _ _ Hslot) as [p ->].
  unfold aget. rewrite Hslot. simpl. by eexists.
Qed.

Lemma add_loop_container_child owner arr i n x s :
  children s !! owner = Some arr -> aget arr i = Some x ->
  parent s !! x = None -> kind_of s x ≠ Plain ->
  ∃ s', add_loop owner i (S n) None s = (s', Abrupt TypeError) ∧
    children s' = children s ∧
    parent s' = <[x:=owner]> (parent s) ∧
    stage s' !! x = stage s !! owner.
Proof.
  intros Harr Hx Hpx Hkind.
  set (s1 := with_parent (assign x (Some owner))
               (with_next (assign x (aget arr (i + 1))) s)).
  destruct (activation_of_container x (stage s !! owner) s1 Hkind)
    as (s' & Hrun & _ & Hch & Hpa & _ & Hst & _).
  exists s'. split.
  - simpl add_loop.
    rewrite (bind_run _ _ s s arr) by by apply children_of_run.
    rewrite Hx.
    rewrite (bind_run _ _ s s None) by (unfold parent_of, get; by rewrite Hpx).
    rewrite (bind_run _ _ s s tt) by reflexivity.
    rewrite (bind_run _ _ s s arr) by by apply children_of_run.
    erewrite bind_run by reflexivity. erewrite bind_run by reflexivity.
    erewrite bind_run by reflexivity.
    by apply bind_abrupt.
  - rewrite Hch, Hpa, Hst. simpl. by rewrite lookup_assign_eq.
Qed.

(** X10.  [add] of display objects of which the first carries [methods] or
    [timelineMethods] and has no parent, into a dense container: the call
    ends in a [TypeError] raised by that child's [_activate].  By then all
    new objects have been spliced into the container, and the first has
    the owner as parent and the owner's stage; no other object had its
    parent changed, so the objects passed after the first sit in the
    container without being children of the owner. *)
Theorem add_container_child_raises (fuel : nat) (s : state) (owner : nat)
    (arr : list (option nat)) (anc : list nat) (child : items)
    (insertAt : option jsarg) (x : nat) :
  getAncestors fuel s owner = Some anc ->
  children s !! owner = Some arr -> dense arr ->
  rejected anc child = false -> first_item child = Some x ->
  parent s !! x = None -> kind_of s x ≠ Plain ->
  ∃ s', add fuel owner child insertAt s = (s', Abrupt TypeError) ∧
    children s' !! owner
    = Some (splice_in (resolve_insertAt insertAt (length arr))
              (items_list child) arr) ∧
    parent s' !! x = Some owner ∧ stage s' !! x = stage s !! owner ∧
    (∀ y, y ≠ x -> parent s' !! y = parent s !! y).
Proof.
  intros Hanc Harr Hdense Hrej Hfirst Hpx Hkind.
  set (k := resolve_insertAt insertAt (length arr)).
  assert (Hk : k ≤ length arr) by apply resolve_insertAt_le.
  destruct (add_prefix_run owner arr child k s Harr Hdense Hk)
    as (s1 & Hpre & Hch1 & Hproto1 & Hpa1 & Hst1).
  assert (Hn : ∃ n, numNewChildren child = S n).
  { destruct child as [c|[|c cs]]; simpl in *; try done; by eexists. }
  destruct Hn as [n Hn].
  destruct (add_loop_container_child owner
              (splice_in k (items_list child) arr) k n x s1)
    as (s' & Hloop & Hch & Hpa & Hst).
  { rewrite Hch1. apply lookup_insert_eq. }
  { rewrite <- (Nat.add_0_r k) at 2. apply aget_splice_in_new; [done|].
    rewrite first_item_head in Hfirst.
    by destruct (items_list child); simplify_eq/=. }
  { by rewrite Hpa1. }
  { unfold kind_of. by rewrite Hproto1. }
  exists s'. split.
  - unfold add. rewrite Hanc, Hrej.
    rewrite (bind_run _ _ s s arr) by by apply children_of_run.
    fold k. cbv zeta.
    change (set_children owner (splice_in k (items_list child) arr) ;;
            (if 0 <? k
             then arr' ← children_of owner;
                  match aget arr' (k - 1) with
                  | Some prev => set_next prev (first_item child)
                  | None => raise TypeError
                  end
             else ret ()) ;;
            add_loop owner k (numNewChildren child) None)
      with ((set_children owner (splice_in k (items_list child) arr) ;;
             (if 0 <? k
              then arr' ← children_of owner;
                   match aget arr' (k - 1) with
                   | Some prev => set_next prev (first_item child)
                   | None => raise TypeError
                   end
              else ret ())) ≫=
            (fun _ => add_loop owner k (numNewChildren child) None)) in *.
    rewrite (bind_run _ _ s s1 tt) by exact Hpre.
    by rewrite Hn.
  - rewrite Hch, Hpa, Hst, Hch1, Hpa1, Hst1.
    split; [apply lookup_insert_eq|]. split; [apply lookup_insert_eq|].
    split; [done|]. intros y Hy. by rewrite lookup_insert_ne.
Qed.

Lemma add_container_child_raises_witness :
  ∃ s', add 2 0 (Many [7; 8]) (Some (JNumber (Finite 1 1)))
          couple_and_group = (s', Abrupt TypeError) ∧
    children s' !! 0
    = Some (splice_in
              (resolve_insertAt (Some (JNumber (Finite 1 1)))
                 (length [Some 1; Some 2]))
              (items_list (Many [7; 8])) [Some 1; Some 2]) ∧
    parent s' !! 7 = Some 0 ∧
    stage s' !! 7 = stage couple_and_group !! 0 ∧
    (∀ y, y ≠ 7 ->
       parent s' !! y = parent couple_and_group !! y).
Proof.
  apply (add_container_child_raises 2 couple_and_group 0
           [Some 1; Some 2] [0] (Many [7; 8])
           (Some (JNumber (Finite 1 1))) 7).
  - reflexivity.
  - reflexivity.
  - repeat constructor; by eexists.
  - reflexivity.
  - reflexivity.
  - reflexivity.
  - vm_compute. discriminate.
Defined.

(** ** Invariants of every call *)

(** A property of the store that depends on the method tables, the parents
    and the containers only, and that survives the changes the class makes
    to them, is kept by every call, however the call ends. *)
Section Frame.

Variable D : gset nat.
Variable I : state -> Prop.

Hypothesis frame_dom : ∀ s, I s -> dom (children s) = D.
Hypothesis frame_links : ∀ f,
  (∀ s, proto (f s) = proto s ∧ parent (f s) = parent s ∧
        children (f s) = children s) ->
  ∀ s, I s -> I (f s).
Hypothesis frame_detach : ∀ x s, I s -> I (with_parent (assign x None) s).
Hypothesis frame_attach : ∀ x o s,
  o ∈ D -> I s -> I (with_parent (assign x (Some o)) s).
Hypothesis frame_children : ∀ o arr s,
  o ∈ D -> I s -> I (with_children (insert o arr) s).

Lemma keeps_frame_modify f :
  (∀ s, proto (f s) = proto s ∧ parent (f s) = parent s ∧
        children (f s) = children s) ->
  keeps I (modify f).
Proof. intros Hf. apply hoare_modify. by apply frame_links. Qed.

Lemma hoare_frame_children_of owner :
  hoare I (children_of owner) (fun _ s => I s ∧ owner ∈ D) (fun _ => I).
Proof.
  intros s Hs. unfold children_of.
  destruct (children s !! owner) as [arr|] eqn:Harr; [|done].
  split; [done|]. rewrite <- (frame_dom s Hs). by apply elem_of_dom.
Qed.

Lemma keeps_frame_children_of owner : keeps I (children_of owner).
Proof.
  eapply hoare_post; [apply hoare_frame_children_of|]. by intros _ s [? _].
Qed.

Lemma keeps_frame_set_children owner arr :
  owner ∈ D -> keeps I (set_children owner arr).
Proof.
  intros Howner. apply hoare_modify. intros s Hs. by apply frame_children.
Qed.

Lemma keeps_frame_DisplayObject_activate x stg :
  keeps I (DisplayObject_activate x stg).
Proof. apply keeps_frame_modify. intros s. by destruct stg. Qed.

Lemma keeps_frame_DisplayObject_deactivate x :
  keeps I (DisplayObject_deactivate x).
Proof. apply keeps_frame_modify. intros s. by destruct (stage s !! x). Qed.

Lemma keeps_frame_activate x stg : keeps I (_activate x stg).
Proof.
  intros s Hs. unfold _activate.
  destruct (kind_of s x).
  - by apply keeps_frame_DisplayObject_activate.
  - revert s Hs. apply keeps_bind.
    + apply keeps_frame_DisplayObject_activate.
    + intros _. apply keeps_each_child.
  - revert s Hs. apply keeps_bind.
    + apply keeps_bind.
      * apply keeps_frame_DisplayObject_activate.
      * intros _. apply keeps_each_child.
    + intros _. destruct stg; [by apply keeps_frame_modify|apply keeps_ret].
Qed.

Lemma keeps_frame_deactivate x : keeps I (_deactivate x).
Proof.
  intros s Hs. unfold _deactivate.
  destruct (kind_of s x).
  - by apply keeps_frame_DisplayObject_deactivate.
  - revert s Hs. apply keeps_bind.
    + apply keeps_frame_DisplayObject_deactivate.
    + intros _. apply keeps_each_child.
  - revert s Hs. apply keeps_bind; [apply keeps_get|]. intros stg.
    apply keeps_bind.
    + destruct stg; [by apply keeps_frame_modify|apply keeps_ret].
    + intros _. apply keeps_bind.
      * apply keeps_frame_DisplayObject_deactivate.
      * intros _. apply keeps_each_child.
Qed.

Lemma keeps_frame_set_next x v : keeps I (set_next x v).
Proof. by apply keeps_frame_modify. Qed.

Lemma keeps_frame_detach x : keeps I (set_parent x None).
Proof. apply hoare_modify. intros s Hs. by apply frame_detach. Qed.

Lemma keeps_frame_attach x owner :
  owner ∈ D -> keeps I (set_parent x (Some owner)).
Proof.
  intros Howner. apply hoare_modify. intros s Hs. by apply frame_attach.
Qed.

Lemma keeps_frame_remove owner x : keeps I (remove owner x).
Proof.
  unfold remove. eapply hoare_bind; [apply hoare_frame_children_of|].
  intros arr s [Hs Howner]. revert s Hs.
  destruct (indexOf arr x) as [k|]; [|apply keeps_ret].
  apply keeps_bind.
  { destruct (0 <? k); [|apply keeps_ret].
    destruct (aget arr (k - 1)); [|apply keeps_raise].
    apply keeps_bind; [apply keeps_get|]. intros nx.
    apply keeps_frame_set_next. }
  intros _. apply keeps_bind; [apply keeps_frame_detach|].
  intros _. apply keeps_bind; [apply keeps_frame_set_next|].
  intros _. apply keeps_bind; [apply keeps_frame_deactivate|].
  intros _. apply keeps_bind; [apply keeps_frame_children_of|].
  intros arr'. by apply keeps_frame_set_children.
Qed.

Lemma keeps_frame_clear_loop owner i n : keeps I (clear_loop owner i n).
Proof.
  revert i. induction n as [|n IH]; intros i; simpl; [apply keeps_ret|].
  apply keeps_bind; [apply keeps_frame_children_of|].
  intros arr. destruct (aget arr i) as [child|]; [|apply keeps_ret].
  apply keeps_bind; [apply keeps_frame_deactivate|].
  intros _. apply keeps_bind; [apply keeps_frame_detach|].
  intros _. apply keeps_bind; [apply keeps_frame_set_next|].
  intros _. apply IH.
Qed.

Lemma keeps_frame_clear owner : keeps I (clear owner).
Proof.
  unfold clear. eapply hoare_bind; [apply hoare_frame_children_of|].
  intros arr s [Hs Howner]. revert s Hs.
  apply keeps_bind; [apply keeps_frame_clear_loop|].
  intros _. by apply keeps_frame_set_children.
Qed.

Lemma keeps_frame_add_loop owner i n nextChild :
  owner ∈ D -> keeps I (add_loop owner i n nextChild).
Proof.
  intros Howner.
  revert i nextChild. induction n as [|n IH]; intros i nextChild; simpl;
    [apply keeps_ret|].
  apply keeps_bind; [apply keeps_frame_children_of|]. intros arr.
  destruct (match nextChild with Some c => Some c | None => aget arr i end)
    as [child|]; [|apply keeps_raise].
  apply keeps_bind; [apply keeps_get|]. intros previousParent.
  apply keeps_bind.
  { destruct previousParent; [apply keeps_frame_remove|apply keeps_ret]. }
  intros _. apply keeps_bind; [apply keeps_frame_children_of|]. intros arr'.
  apply keeps_bind; [apply keeps_frame_set_next|].
  intros _. apply keeps_bind; [by apply keeps_frame_attach|].
  intros _. apply keeps_bind; [apply keeps_get|]. intros stg.
  apply keeps_bind; [apply keeps_frame_activate|].
  intros _. apply IH.
Qed.

Lemma keeps_frame_add fuel owner child insertAt :
  keeps I (add fuel owner child insertAt).
Proof.
  intros s Hs. unfold add.
  destruct (getAncestors fuel s owner) as [ancestors|]; [|done].
  destruct (rejected ancestors child); [done|].
  revert s Hs. eapply hoare_bind; [apply hoare_frame_children_of|].
  intros arr s [Hs Howner]. revert s Hs.
  apply keeps_bind; [by apply keeps_frame_set_children|].
  intros _. apply keeps_bind.
  { destruct (0 <? _); [|apply keeps_ret].
    apply keeps_bind; [apply keeps_frame_children_of|]. intros arr'.
    destruct (aget arr' _); [apply keeps_frame_set_next|apply keeps_raise]. }
  intros _. by apply keeps_frame_add_loop.
Qed.

End Frame.

(** A call of [add], [clear] or [remove] keeps every such property. *)
Lemma frame_run_call D I fuel c :
  frame_closed D I -> (∀ o, c ≠ New o) -> keeps I (run_call fuel c).
Proof.
  intros (H1 & H2 & H3 & H4 & H5) Hc.
  destruct c as [owner|owner child insertAt|owner|owner x]; simpl.
  - by destruct (Hc owner).
  - by apply (keeps_frame_add D I).
  - by apply (keeps_frame_clear D I).
  - by apply (keeps_frame_remove D I).
Qed.

(** *** Method tables and the set of display lists *)

Lemma same_objects_closed P D : frame_closed D (same_objects P D).
Proof.
  split; [by intros s [_ ?]|]. split; [|split; [|split]].
  - intros f Hf s [Hp Hd]. destruct (Hf s) as (Hp' & _ & Hc').
    unfold same_objects. by rewrite Hp', Hc'.
  - by intros x s [? ?].
  - by intros x o s _ [? ?].
  - intros o arr s Ho [Hp Hd]. split; [done|]. simpl.
    rewrite dom_insert_L, Hd. set_solver.
Qed.

Lemma keeps_same_add P D fuel owner child insertAt :
  keeps (same_objects P D) (add fuel owner child insertAt).
Proof.
  by apply (frame_run_call D _ fuel (Add owner child insertAt)
              (same_objects_closed P D)).
Qed.





(** ** Removing twice, and adding then removing *)

(** X12.  [remove] is idempotent on a dense container of distinct objects:
    for a plain display object, a second [remove] of the same object
    returns and changes nothing.  (With the object at two indices of the
    container the second call would splice out the second copy.) *)
Theorem remove_is_idempotent (s : state) (owner : nat)
    (arr : list (option nat)) (x : nat) :
  children s !! owner = Some arr -> dense arr -> NoDup arr ->
  kind_of s x = Plain ->
  ∃ s', remove owner x s = (s', Normal tt) ∧
    remove owner x s' = (s', Normal tt).
Proof.
  intros Harr Hdense Hnd Hplain.
  destruct (decide (Some x ∈ arr)) as [Hin|Hout].
  - destruct (indexOf_is_Some arr x Hin) as [k Hk].
    destruct (remove_direct_child s owner arr x k Harr Hdense Hk Hplain)
      as (s' & Hrun & Hch & _).
    exists s'. split; [done|]. unfold remove.
    rewrite (bind_run _ _ s' s' (delete k arr)).
    2:{ apply children_of_run. rewrite Hch. apply lookup_insert_eq. }
    rewrite indexOf_None; [done|].
    apply not_elem_of_delete_NoDup; [done|].
    by destruct (indexOf_Some _ _ _ Hk).
  - exists s.
    assert (remove owner x s = (s, Normal tt)) as Hrun; [|done].
    unfold remove. rewrite (bind_run _ _ s s arr) by by apply children_of_run.
    by rewrite indexOf_None.
Qed.

Lemma remove_is_idempotent_witness :
  ∃ s', remove 0 2 family = (s', Normal tt) ∧
    remove 0 2 s' = (s', Normal tt).
Proof.
  apply (remove_is_idempotent family 0 [Some 1; Some 2; Some 3] 2).
  - reflexivity.
  - repeat constructor; by eexists.
  - by apply (bool_decide_unpack _).
  - reflexivity.
Defined.

Lemma indexOf_splice_in k x arr :
  k ≤ length arr -> Some x ∉ arr -> indexOf (splice_in k [x] arr) x = Some k.
Proof.
  intros Hk Hout. unfold indexOf.
  assert (list_find (fun slot => slot = Some x) (splice_in k [x] arr)
          = Some (k, Some x)) as ->; [|done].
  apply list_find_Some. split; [|split; [done|]].
  - apply aget_lookup. rewrite <- (Nat.add_0_r k) at 2.
    by apply aget_splice_in_new.
  - intros j slot Hj Hlt ->.
    apply aget_lookup in Hj. rewrite aget_splice_in_before in Hj by done.
    apply Hout. by eapply aget_Some_elem_of.
Qed.

Lemma delete_splice_in k x arr :
  k ≤ length arr -> delete k (splice_in k [x] arr) = arr.
Proof.
  intros Hk. unfold splice_in. simpl.
  rewrite <- (length_take_le arr k) at 1 by done.
  by rewrite delete_middle, take_drop.
Qed.

(** X13.  Adding a detached plain display object to a dense container whose
    sibling links follow the index order, at any index, and removing it
    again restores the structure: both calls return, and afterwards every
    container, every parent and every next sibling is what it was before
    the two calls. *)
Theorem add_then_remove_restores (fuel : nat) (s : state) (owner : nat)
    (arr : list (option nat)) (anc : list nat) (x : nat)
    (insertAt : option jsarg) :
  getAncestors fuel s owner = Some anc ->
  children s !! owner = Some arr -> dense arr -> linked s arr ->
  Some x ∉ arr -> x ∉ anc ->
  parent s !! x = None -> next s !! x = None -> kind_of s x = Plain ->
  ∃ s1 s2, add fuel owner (Single x) insertAt s = (s1, Normal tt) ∧
    remove owner x s1 = (s2, Normal tt) ∧
    children s2 = children s ∧
    (∀ y, parent s2 !! y = parent s !! y ∧ next s2 !! y = next s !! y).
Proof.
  intros Hanc Harr Hdense Hlinked Hout Hxa Hpx Hnx Hplain.
  set (k := resolve_insertAt insertAt (length arr)).
  assert (Hk : k ≤ length arr) by apply resolve_insertAt_le.
  destruct (add_detached fuel s owner arr anc (Single x) insertAt)
    as (s1 & Hadd & Hch1 & Hnew1 & _ & Hframe1); try done.
  { apply NoDup_singleton. }
  { by intros y ->%list_elem_of_singleton. }
  simpl in Hch1, Hnew1, Hframe1. fold k in Hch1, Hnew1, Hframe1.
  set (arr' := splice_in k [x] arr) in *.
  destruct (Hnew1 0 x eq_refl) as (Hnx1 & _).
  assert (Hproto1 : proto s1 = proto s).
  { pose proof (keeps_run _ _ s
      (keeps_same_add (proto s) (dom (children s)) fuel owner (Single x)
         insertAt) (conj eq_refl eq_refl)) as [Hp _].
    by rewrite Hadd in Hp. }
  destruct (remove_direct_child s1 owner arr' x k)
    as (s2 & Hrem & Hch2 & _ & Hpx2 & Hnx2 & _ & Hpred2 & Hframe2).
  { rewrite Hch1. apply lookup_insert_eq. }
  { by apply dense_splice_in. }
  { by apply indexOf_splice_in. }
  { unfold kind_of. by rewrite Hproto1. }
  exists s1, s2. split; [done|]. split; [done|]. split.
  - rewrite Hch2, Hch1, insert_insert_eq. unfold arr'.
    rewrite delete_splice_in by done. by apply insert_id.
  - intros y. destruct (decide (y = x)) as [->|Hne].
    { by rewrite Hpx2, Hnx2, Hpx, Hnx. }
    assert (Hyx : y ∉ [x]) by (by intros ->%list_elem_of_singleton).
    destruct (Hframe2 y Hne) as (-> & _ & Hnext2).
    destruct (Hframe1 y Hyx) as (-> & _ & Hnext1).
    split; [done|].
    assert (Hbefore : 0 < k -> aget arr' (k - 1) = aget arr (k - 1)).
    { intros Hk0. apply aget_splice_in_before; [done|lia]. }
    destruct (decide (0 < k ∧ aget arr (k - 1) = Some y)) as [[Hk0 Hy]|Hno].
    + rewrite (Hpred2 y Hk0) by by rewrite Hbefore.
      rewrite Hnx1, (Hlinked (k - 1) y Hy).
      replace (k + 0 + 1) with (k + length [x] + 0) by (simpl; lia).
      unfold arr'. rewrite aget_splice_in_after by done. f_equal. lia.
    + rewrite Hnext2, Hnext1; [done|done|].
      intros [Hk0 Hy]. apply Hno. split; [done|]. by rewrite <- Hbefore.
Qed.

Lemma add_then_remove_restores_witness :
  ∃ s1 s2, add 2 0 (Single 7) (Some (JNumber (Finite 1 1))) couple
           = (s1, Normal tt) ∧
    remove 0 7 s1 = (s2, Normal tt) ∧
    children s2 = children couple ∧
    (∀ y, parent s2 !! y = parent couple !! y ∧
          next s2 !! y = next couple !! y).
Proof.
  apply (add_then_remove_restores 2 couple 0 [Some 1; Some 2] [0] 7
           (Some (JNumber (Finite 1 1)))).
  - reflexivity.
  - reflexivity.
  - repeat constructor; by eexists.
  - destruct well_formed_couple as (Hc & _).
    by destruct (Hc 0 [Some 1; Some 2] eq_refl) as (_ & _ & ? & _).
  - intros Hin. apply elem_of_cons in Hin as [Hin|Hin]; [discriminate|].
    apply list_elem_of_singleton in Hin. discriminate.
  - intros Hin%list_elem_of_singleton. discriminate.
  - reflexivity.
  - reflexivity.
  - reflexivity.
Defined.

(** ** The size branch of the mixin's [getComputed] *)

Section MixinSize.

Import Mixin.
Local Open Scope Z_scope.

Lemma computed_size_Group x y _children :
  computed_size (Group x y _children)
  = let a := fold_left size_visit (default [] _children)
               (SizeAcc (Box 0 0 0 0) true []) in
    (edges a, Group x y (Some (size_visited a))).
Proof. by destruct _children. Qed.

Lemma attr_getComputed key n :
  attr_x (getComputed key n).2 = attr_x n ∧
  attr_y (getComputed key n).2 = attr_y n.
Proof. by destruct n. Qed.

(** The two reductions go in step when they agree on every child. *)
Lemma fold_size_visit key children : ∀ a sa,
  Forall (fun slot => match slot with
                      | Some c =>
                          edge_of key (computed_size c).1 = (getComputed key c).1 ∧
                          (computed_size c).2 = (getComputed key c).2
                      | None => True
                      end) children ->
  current a = edge_of key (edges sa) -> isFirst a = size_isFirst sa ->
  visited a = size_visited sa ->
  let a' := fold_left (visit key) children a in
  let sa' := fold_left size_visit children sa in
  current a' = edge_of key (edges sa') ∧ visited a' = size_visited sa'.
Proof.
  induction children as [|slot rest IH]; intros a sa Hall Hcur Hfirst Hvis;
    [done|].
  apply Forall_cons in Hall as [Hslot Hall]. simpl.
  destruct slot as [c|]; apply IH; try done;
    unfold visit, step, size_visit, size_step.
  - destruct Hslot as [Hedge Hnode].
    destruct (attr_getComputed key c) as [Hx Hy].
    destruct (computed_size c) as [childSize c'] eqn:Hc.
    destruct (getComputed key c) as [result c''] eqn:Hc'.
    simpl in *. subst c'' result. rewrite <- Hfirst, Hx, Hy.
    destruct (isFirst a), key; simpl in *; by rewrite ?Hcur.
  - by destruct (computed_size c), (getComputed key c).
  - destruct Hslot as [_ Hnode].
    destruct (computed_size c) as [childSize c'] eqn:Hc.
    destruct (getComputed key c) as [result c''] eqn:Hc'.
    simpl in *. by rewrite Hvis, Hnode.
  - simpl. by rewrite Hvis.
Qed.

Lemma computed_size_edges key n :
  edge_of key (computed_size n).1 = (getComputed key n).1 ∧
  (computed_size n).2 = (getComputed key n).2.
Proof.
  induction n as [x y size|x y|x y children IH] using node_children_ind;
    [done|by destruct key|].
  rewrite computed_size_Group, getComputed_Group. simpl.
  destruct (fold_size_visit key children (Acc 0 true [])
              (SizeAcc (Box 0 0 0 0) true [])) as [Hcur Hvis];
    [done|by destruct key|done|done|].
  by rewrite Hcur, Hvis.
Qed.

(** X16.  The size branch of [getComputed] agrees with its edge branch:
    each edge of the [size] object equals what [getComputed] returns for
    that edge key, [width] is the right edge minus the left one, [height]
    the bottom edge minus the top one, and the call leaves the object as a
    call with an edge key leaves it. *)
Theorem getComputed_size_agrees_with_edges
    (x y : Z) (_children : option (list (option Mixin.node))) :
  let owner := Group x y _children in
  let value (key : edge) := (getComputed key owner).1 in
  (∀ skey key, (getComputed_size skey x y _children).2
               = (getComputed key owner).2) ∧
  (getComputed_size key_size x y _children).1
  = Whole (Sizes (Box (value top) (value right) (value bottom) (value left))
             (value right - value left) (value bottom - value top)) ∧
  (getComputed_size key_width x y _children).1
  = Number (value right - value left) ∧
  (getComputed_size key_height x y _children).1
  = Number (value bottom - value top).
Proof.
  intros owner value. unfold getComputed_size, value. fold owner.
  pose proof (fun key => proj1 (computed_size_edges key owner)) as Hedge.
  pose proof (fun key => proj2 (computed_size_edges key owner)) as Hnode.
  pose proof (Hedge top) as Ht. pose proof (Hedge right) as Hr.
  pose proof (Hedge bottom) as Hb. pose proof (Hedge left) as Hl.
  destruct (computed_size owner) as [[t r b l] owner'].
  cbn [edge_of fst snd b_top b_right b_bottom b_left s_width s_height]
    in *.
  rewrite <- Ht, <- Hr, <- Hb, <- Hl. split; [|done].
  intros _ key. apply Hnode.
Qed.

Lemma proper_Group x y children :
  proper (Group x y (Some children))
  ↔ Forall (fun slot => match slot with
                        | Some c => proper c
                        | None => True
                        end) children.
Proof.
  simpl. induction children as [|slot rest IH]; simpl.
  - split; [constructor|done].
  - rewrite Forall_cons, IH. done.
Qed.

Lemma proper_edges n :
  proper n ->
  (getComputed top n).1 ≤ (getComputed bottom n).1 ∧
  (getComputed left n).1 ≤ (getComputed right n).1.
Proof.
  induction n as [x y size|x y|x y children IH] using node_children_ind;
    [done|done|].
  intros Hproper%proper_Group.
  rewrite !getComputed_value. unfold spec_getComputed. simpl.
  assert (Hall : ∀ c, c ∈ omap id children ->
    child_value top c ≤ child_value bottom c ∧
    child_value left c ≤ child_value right c).
  { intros c Hc%elem_of_omap_id.
    apply list_elem_of_lookup in Hc as [i Hi].
    pose proof (proj1 (Forall_lookup _ _) IH _ _ Hi) as IHc.
    pose proof (proj1 (Forall_lookup _ _) Hproper _ _ Hi) as Hc.
    simpl in IHc, Hc. destruct (IHc Hc). unfold child_value. simpl. lia. }
  destruct (omap id children) as [|c0 cs] eqn:Hcs; [done|].
  assert (Hne : ∀ key, child_value key <$> c0 :: cs ≠ []) by done.
  assert (Hin : ∀ key, child_value key c0 ∈ child_value key <$> c0 :: cs).
  { intros key. by apply list_elem_of_fmap_2, elem_of_cons; left. }
  destruct (Hall c0) as [Htb Hlr]; [by left|].
  pose proof (proj2 (extremum_spec top _ (Hne top)) _ (Hin top)) as Ht.
  pose proof (proj2 (extremum_spec bottom _ (Hne bottom)) _ (Hin bottom)) as Hb.
  pose proof (proj2 (extremum_spec left _ (Hne left)) _ (Hin left)) as Hl.
  pose proof (proj2 (extremum_spec right _ (Hne right)) _ (Hin right)) as Hr.
  unfold bounds in Ht, Hb, Hl, Hr. lia.
Qed.

End MixinSize.

(** X17.  When every box that a child answers with has its top above its
    bottom and its left before its right, the same holds for the edges
    computed for the owner, at any depth of nesting and with holes among
    the children, so the [width] and [height] of its [size] are never
    negative. *)
Theorem getComputed_size_nonnegative
    (x y : Z) (_children : option (list (option Mixin.node))) :
  Mixin.proper (Mixin.Group x y _children) ->
  ∃ w h,
    (Mixin.getComputed_size Mixin.key_width x y _children).1 = Mixin.Number w ∧
    (Mixin.getComputed_size Mixin.key_height x y _children).1 = Mixin.Number h ∧
    (0 ≤ w)%Z ∧ (0 ≤ h)%Z.
Proof.
  intros Hproper.
  destruct (proper_edges _ Hproper) as [Htb Hlr].
  pose proof (fun key =>
    proj1 (computed_size_edges key (Mixin.Group x y _children))) as Hedge.
  pose proof (Hedge Mixin.top) as Ht. pose proof (Hedge Mixin.right) as Hr.
  pose proof (Hedge Mixin.bottom) as Hb. pose proof (Hedge Mixin.left) as Hl.
  unfold Mixin.getComputed_size.
  destruct (Mixin.computed_size (Mixin.Group x y _children))
    as [[t r b l] owner'].
  cbn [Mixin.edge_of fst snd Mixin.b_top Mixin.b_right Mixin.b_bottom
         Mixin.b_left Mixin.s_width Mixin.s_height] in *.
  eexists _, _. split; [reflexivity|]. split; [reflexivity|]. lia.
Qed.

Lemma getComputed_size_nonnegative_witness :
  ∃ w h,
    (Mixin.getComputed_size Mixin.key_width 3 4
       (Some (None :: Mixin.three_children))).1 = Mixin.Number w ∧
    (Mixin.getComputed_size Mixin.key_height 3 4
       (Some (None :: Mixin.three_children))).1 = Mixin.Number h ∧
    (0 ≤ w)%Z ∧ (0 ≤ h)%Z.
Proof.
  apply (getComputed_size_nonnegative 3 4 (Some (None :: Mixin.three_children))).
  simpl. lia.
Defined.

(** ** An owner on a cycle of parents *)




(** ** The list methods of the mixin *)

Lemma indexOf_Some_2 arr x k :
  arr !! k = Some (Some x) -> (∀ j, j < k -> arr !! j ≠ Some (Some x)) ->
  indexOf arr x = Some k.
Proof.
  intros Hk Hfirst. unfold indexOf.
  assert (list_find (fun slot => slot = Some x) arr = Some (k, Some x))
    as ->; [|done].
  apply list_find_Some. split; [done|]. split; [done|].
  intros j slot Hj Hlt ->. by apply (Hfirst j).
Qed.

Lemma previous_sibling_lt arr k p :
  Mixin.previous_sibling arr k = Some p -> ∃ j, j < k ∧ aget arr j = Some p.
Proof.
  induction k as [|k IH]; simpl; [done|].
  destruct (aget arr k) as [q|] eqn:Hq.
  - intros [= <-]. exists k. split; [lia|done].
  - intros (j & Hj & Hp)%IH. exists j. split; [lia|done].
Qed.

Lemma previous_sibling_dense arr k :
  dense arr -> k < length arr ->
  Mixin.previous_sibling arr k = if 0 <? k then aget arr (k - 1) else None.
Proof.
  intros Hdense Hk. destruct k as [|k]; [done|]. simpl.
  rewrite Nat.sub_0_r.
  destruct (lookup_lt_is_Some_2 arr k) as [slot Hslot]; [lia|].
  destruct (proj1 (Forall_lookup _ _) Hdense _ _ Hslot) as [p ->].
  unfold aget. by rewrite Hslot.
Qed.

(** The store [removeChild] leaves for a child without stage found at
    index [k]. *)
Lemma removeChild_run leave_stage s this arr child k strategy :
  children s !! this = Some arr -> indexOf arr child = Some k ->
  stage s !! child = None ->
  Mixin.removeChild leave_stage this child strategy s
  = (with_next (assign child None)
       (with_parent (assign child None)
          (with_children
             (insert this
                match next s !! child, strategy with
                | Some _, Mixin.keepIndexes => <[k:=None]> arr
                | Some _, Mixin.changeIndexes => delete k arr
                | None, _ => take k arr
                end)
             match Mixin.previous_sibling arr k with
             | Some previous =>
                 with_next (assign previous (next s !! child)) s
             | None => s
             end)),
     Normal (This this)).
Proof.
  intros Harr Hk Hstage.
  destruct (indexOf_Some _ _ _ Hk) as [Hx Hfirst].
  unfold Mixin.removeChild, Mixin.getIndexOfChild. rewrite Harr. simpl.
  rewrite Hk. rewrite (bind_run _ _ s s arr) by by apply children_of_run.
  set (s1 := match Mixin.previous_sibling arr k with
             | Some previous =>
                 with_next (assign previous (next s !! child)) s
             | None => s
             end).
  assert (Hnext : next s1 !! child = next s !! child).
  { unfold s1. destruct (Mixin.previous_sibling arr k) as [p|] eqn:Hp; [|done].
    simpl. apply lookup_assign_ne. intros ->.
    destruct (previous_sibling_lt _ _ _ Hp) as (j & Hj & Hjp).
    by apply (Hfirst j Hj), aget_lookup. }
  assert (Hstage1 : stage s1 !! child = None).
  { unfold s1. by destruct (Mixin.previous_sibling arr k). }
  rewrite (bind_run _ _ s s1 tt).
  2:{ unfold s1. by destruct (Mixin.previous_sibling arr k). }
  rewrite (bind_run _ _ s1 s1 (next s !! child)).
  2:{ unfold next_of, get. by rewrite Hnext. }
  erewrite bind_run by reflexivity. erewrite bind_run by reflexivity.
  erewrite bind_run by reflexivity.
  erewrite (bind_run (stage_of child)).
  2:{ unfold stage_of, get. simpl. by rewrite Hstage1. }
  reflexivity.
Qed.

(** X19.  The mixin's [removeChild] with ['keepIndexes'], for a child
    without stage found at index [k] of a possibly sparse array: the call
    returns the owner; a child that has a next sibling leaves a hole at
    [k] and the array keeps its length, a child without next sibling has
    the array cut at [k]; the nearest object before [k] that is not a hole
    takes over the child's next sibling; the child loses parent and next
    sibling; and every other child found before [k], or anywhere when the
    removed child had a next sibling, is found at the index it had. *)
Theorem removeChild_keepIndexes_keeps_indices
    (leave_stage : nat -> M unit) (s : state) (this : nat)
    (arr : list (option nat)) (child k : nat) :
  children s !! this = Some arr -> indexOf arr child = Some k ->
  stage s !! child = None ->
  ∃ s' arr',
    Mixin.removeChild leave_stage this child Mixin.keepIndexes s
    = (s', Normal (This this)) ∧
    children s' !! this = Some arr' ∧
    (is_Some (next s !! child) -> arr' = <[k:=None]> arr) ∧
    (next s !! child = None -> arr' = take k arr) ∧
    parent s' !! child = None ∧ next s' !! child = None ∧
    (∀ p, Mixin.previous_sibling arr k = Some p ->
       next s' !! p = next s !! child) ∧
    (∀ y j, y ≠ child -> indexOf arr y = Some j ->
       j < k ∨ is_Some (next s !! child) ->
       Mixin.getIndexOfChild this y s' = Some j).
Proof.
  intros Harr Hk Hstage.
  destruct (indexOf_Some _ _ _ Hk) as [Hx Hfirst].
  eexists _, _. split; [by apply removeChild_run|]. simpl.
  split; [apply lookup_insert_eq|].
  split; [by intros [nx ->]|]. split; [by intros ->|].
  split; [apply lookup_delete_eq|]. split; [apply lookup_delete_eq|]. split.
  - intros p Hp. rewrite Hp. simpl.
    rewrite lookup_delete_ne; [apply lookup_assign_eq|].
    intros ->. destruct (previous_sibling_lt _ _ _ Hp) as (j & Hj & Hjp).
    by apply (Hfirst j Hj), aget_lookup.
  - intros y j Hy Hj Hcase. unfold Mixin.getIndexOfChild. simpl.
    rewrite lookup_insert_eq. simpl.
    destruct (indexOf_Some _ _ _ Hj) as [Hjy Hjfirst].
    assert (Hjk : j ≠ k) by (intros ->; congruence).
    destruct (next s !! child) as [nx|].
    + apply indexOf_Some_2.
      * by rewrite list_lookup_insert_ne.
      * intros i Hi. destruct (decide (i = k)) as [->|Hik].
        -- rewrite list_lookup_insert_eq by by eapply lookup_lt_Some. done.
        -- rewrite list_lookup_insert_ne by done. by apply Hjfirst.
    + destruct Hcase as [Hlt|[? [=]]].
      apply indexOf_Some_2.
      * by rewrite lookup_take_lt.
      * intros i Hi. rewrite lookup_take_lt by lia. by apply Hjfirst.
Qed.

Lemma removeChild_keepIndexes_keeps_indices_witness :
  ∃ s' arr',
    Mixin.removeChild (fun _ => raise TypeError) 0 2 Mixin.keepIndexes sparse
    = (s', Normal (This 0)) ∧
    children s' !! 0 = Some arr' ∧
    (is_Some (next sparse !! 2) ->
     arr' = <[2:=None]> [Some 1; None; Some 2; Some 3]) ∧
    (next sparse !! 2 = None -> arr' = take 2 [Some 1; None; Some 2; Some 3]) ∧
    parent s' !! 2 = None ∧ next s' !! 2 = None ∧
    (∀ p, Mixin.previous_sibling [Some 1; None; Some 2; Some 3] 2 = Some p ->
       next s' !! p = next sparse !! 2) ∧
    (∀ y j, y ≠ 2 -> indexOf [Some 1; None; Some 2; Some 3] y = Some j ->
       j < 2 ∨ is_Some (next sparse !! 2) ->
       Mixin.getIndexOfChild 0 y s' = Some j).
Proof.
  apply (removeChild_keepIndexes_keeps_indices (fun _ => raise TypeError)
           sparse 0 [Some 1; None; Some 2; Some 3] 2 2).
  - reflexivity.
  - reflexivity.
  - reflexivity.
Defined.

Lemma removeChild_changeIndexes_run leave_stage s this arr child k :
  children s !! this = Some arr -> dense arr ->
  indexOf arr child = Some k -> next s !! child = aget arr (k + 1) ->
  stage s !! child = None ->
  Mixin.removeChild leave_stage this child Mixin.changeIndexes s
  = (removed this arr child k s, Normal (This this)).
Proof.
  intros Harr Hdense Hk Hnext Hstage.
  destruct (indexOf_Some _ _ _ Hk) as [Hx _].
  pose proof (lookup_lt_Some _ _ _ Hx) as Hlt.
  rewrite (removeChild_run _ _ _ arr _ k) by done.
  f_equal. rewrite previous_sibling_dense by done.
  assert (match next s !! child with
          | Some _ => delete k arr
          | None => take k arr
          end = delete k arr) as ->.
  { rewrite Hnext. destruct (aget arr (k + 1)) as [nx|] eqn:Hnx; [done|].
    rewrite delete_take_drop. rewrite (drop_ge arr (S k)), app_nil_r; [done|].
    destruct (decide (S k < length arr)) as [Hin|]; [|lia]. exfalso.
    destruct (lookup_lt_is_Some_2 arr (k + 1)) as [slot Hslot]; [lia|].
    destruct (proj1 (Forall_lookup _ _) Hdense _ _ Hslot) as [q ->].
    unfold aget in Hnx. by rewrite Hslot in Hnx. }
  unfold removed, unlinked, relinked, DisplayObject_deactivate, modify.
  destruct (0 <? k); [destruct (aget arr (k - 1))|]; simpl;
    by rewrite Hstage.
Qed.

(** X20.  On a dense container, for a plain display object without stage
    whose next sibling is the element after it, the mixin's [removeChild]
    with any strategy but ['keepIndexes'] and [remove] of the exported
    class end in the same store, the [_children] array of the one being
    read as the [children] array of the other. *)
Theorem removeChild_agrees_with_remove
    (leave_stage : nat -> M unit) (s : state) (this : nat)
    (arr : list (option nat)) (child k : nat) :
  children s !! this = Some arr -> dense arr ->
  indexOf arr child = Some k -> next s !! child = aget arr (k + 1) ->
  stage s !! child = None -> kind_of s child = Plain ->
  ∃ s', remove this child s = (s', Normal tt) ∧
    Mixin.removeChild leave_stage this child Mixin.changeIndexes s
    = (s', Normal (This this)).
Proof.
  intros Harr Hdense Hk Hnext Hstage Hplain.
  exists (removed this arr child k s). split.
  - by apply remove_plain_run.
  - by apply removeChild_changeIndexes_run.
Qed.

Lemma removeChild_agrees_with_remove_witness :
  ∃ s', remove 0 2 family = (s', Normal tt) ∧
    Mixin.removeChild (fun _ => raise TypeError) 0 2 Mixin.changeIndexes family
    = (s', Normal (This 0)).
Proof.
  apply (removeChild_agrees_with_remove (fun _ => raise TypeError) family 0
           [Some 1; Some 2; Some 3] 2 1).
  - reflexivity.
  - repeat constructor; by eexists.
  - reflexivity.
  - reflexivity.
  - reflexivity.
  - reflexivity.
Defined.

Lemma dense_fmap (l : list nat) : dense (Some <$> l).
Proof. apply Forall_fmap, Forall_true. by eexists. Qed.

(** The loop of the mixin's [clear] and the removal of every child in
    index order are the same run. *)
Lemma mixin_clear_loop leave_stage this : ∀ l s s',
  children s !! this = Some (Some <$> l) -> NoDup l ->
  linked s (Some <$> l) ->
  (∀ x, x ∈ l -> kind_of s x = Plain ∧ stage s !! x = None) ->
  remove_each this l s = (s', Normal tt) ->
  foldr (fun child rest =>
           Mixin.removeChild leave_stage this child Mixin.changeIndexes ;; rest)
    (mret (This this)) l s = (s', Normal (This this)).
Proof.
  induction l as [|x rest IH]; intros s s' Harr Hnd Hlinked Hxs Hrun.
  - simpl in *. by injection Hrun as <-.
  - apply NoDup_cons in Hnd as [Hx Hnd].
    destruct (Hxs x) as [Hplain Hstage]; [by left|].
    assert (Hk : indexOf (Some <$> x :: rest) x = Some 0).
    { apply indexOf_Some_2; [done|]. intros j Hj. lia. }
    destruct (remove_direct_child s this _ x 0 Harr (dense_fmap _) Hk Hplain)
      as (s1 & Hrem & Hch1 & Hproto1 & _ & _ & _ & _ & Hframe1).
    simpl in Hrun. rewrite (bind_run _ _ s s1 tt) in Hrun by done.
    simpl foldr.
    rewrite (bind_run _ _ s s1 (This this)).
    2:{ rewrite (remove_plain_run s this (Some <$> x :: rest) x 0) in Hrem;
          [|done|apply dense_fmap|done|done].
        injection Hrem as <-.
        apply removeChild_changeIndexes_run; try done.
        - apply (dense_fmap (x :: rest)).
        - by apply (Hlinked 0 x). }
    apply IH; try done.
    + rewrite Hch1. apply lookup_insert_eq.
    + intros i y Hy.
      assert (Hyx : y ≠ x).
      { intros ->. apply Hx. apply aget_Some_elem_of in Hy.
        by apply (list_elem_of_fmap_inj Some). }
      destruct (Hframe1 y Hyx) as (_ & _ & Hny).
      rewrite Hny by (intros [? _]; lia).
      by apply (Hlinked (S i) y).
    + intros y Hy.
      assert (Hyx : y ≠ x) by (by intros ->).
      destruct (Hframe1 y Hyx) as (_ & -> & _).
      unfold kind_of. rewrite Hproto1. apply Hxs. by right.
Qed.

(** X21.  On a container of distinct plain display objects without stage
    whose sibling links follow the index order, the mixin's [clear], which
    removes the children one by one through [removeChild], and [clear] of
    the exported class end in the same store, the [_children] array of the
    one being read as the [children] array of the other. *)
Theorem mixin_clear_agrees_with_clear
    (leave_stage : nat -> M unit) (s : state) (this : nat) (l : list nat) :
  children s !! this = Some (Some <$> l) -> NoDup l ->
  linked s (Some <$> l) ->
  (∀ x, x ∈ l -> kind_of s x = Plain ∧ stage s !! x = None) ->
  ∃ s', clear this s = (s', Normal tt) ∧
    Mixin.clear leave_stage this s = (s', Normal (This this)).
Proof.
  intros Harr Hnd Hlinked Hxs.
  assert (Hplain : ∀ x, x ∈ l -> kind_of s x = Plain).
  { intros x Hx. by apply Hxs. }
  destruct (clear_plain s this l Harr Hplain) as (sc & Hclear & Hsc).
  destruct (remove_each_all_detached s this l l Harr Hnd Hplain)
    as (sr & Hrun & Hsr); [done|].
  assert (sr = sc) as -> by by apply (all_detached_unique s this l).
  exists sc. split; [done|].
  unfold Mixin.clear. rewrite Harr.
  assert (omap id (Some <$> l) = l) as ->.
  { clear. induction l as [|x l IH]; [done|]. simpl. by f_equal. }
  by apply mixin_clear_loop.
Qed.

Lemma mixin_clear_agrees_with_clear_witness :
  ∃ s', clear 0 couple = (s', Normal tt) ∧
    Mixin.clear (fun _ => raise TypeError) 0 couple = (s', Normal (This 0)).
Proof.
  apply (mixin_clear_agrees_with_clear (fun _ => raise TypeError) couple 0
           [1; 2]).
  - reflexivity.
  - by apply (bool_decide_unpack _).
  - destruct well_formed_couple as (Hc & _).
    by destruct (Hc 0 [Some 1; Some 2] eq_refl) as (_ & _ & ? & _).
  - intros x _. split; reflexivity.
Defined.

(** ** [clear] on a container that holds an object carrying [methods] *)

Lemma clear_loop_stops owner x l2 : ∀ l1 pre n s,
  children s !! owner = Some (Some <$> pre ++ l1 ++ x :: l2) ->
  (∀ c, c ∈ l1 -> kind_of s c = Plain) -> kind_of s x ≠ Plain ->
  length l1 < n ->
  ∃ s', clear_loop owner (length pre) n s = (s', Abrupt TypeError) ∧
    children s' = children s ∧
    (∀ y, parent s' !! y = if decide (y ∈ l1) then None else parent s !! y) ∧
    (∀ y, next s' !! y = if decide (y ∈ l1) then None else next s !! y).
Proof.
  induction l1 as [|c l1 IH]; intros pre n s Harr Hplain Hkind Hn;
    (destruct n as [|n]; [simpl in Hn; lia|]); simpl clear_loop;
    rewrite (bind_run _ _ s s _ (children_of_run _ _ _ Harr)).
  - assert (aget (Some <$> pre ++ [] ++ x :: l2) (length pre) = Some x) as ->.
    { apply aget_lookup. rewrite list_lookup_fmap.
      by rewrite lookup_app_r, Nat.sub_diag by lia. }
    destruct (deactivation_of_container x s Hkind)
      as (s' & Hrun & _ & Hch & Hpa & Hnx & _).
    exists s'. split; [by apply bind_abrupt|]. split; [done|].
    rewrite Hpa, Hnx. split; intros y; by rewrite decide_False by apply not_elem_of_nil.
  - assert (aget (Some <$> pre ++ (c :: l1) ++ x :: l2) (length pre) = Some c)
      as ->.
    { apply aget_lookup. rewrite list_lookup_fmap.
      by rewrite lookup_app_r, Nat.sub_diag by lia. }
    erewrite (bind_run (_deactivate c)).
    2:{ rewrite deactivate_plain; [apply DisplayObject_deactivate_run|].
        apply Hplain. by left. }
    erewrite bind_run by reflexivity. erewrite bind_run by reflexivity.
    rewrite clear_child_unlinked.
    destruct (unlinked_fields c s) as (Hproto & Hch & Hparent & Hnext & _).
    destruct (IH (pre ++ [c]) n (unlinked c s))
      as (s' & Hrun & Hch' & Hpa' & Hnx').
    { rewrite Hch, Harr. by rewrite <- (assoc_L (++) pre [c]). }
    { intros d Hd. unfold kind_of. rewrite Hproto. apply Hplain. by right. }
    { unfold kind_of. by rewrite Hproto. }
    { simpl in Hn. lia. }
    rewrite length_app, Nat.add_1_r in Hrun.
    exists s'. split; [done|]. split; [by rewrite Hch'|].
    assert (Hlookup : ∀ (m : gmap nat nat) y,
      (if decide (y ∈ l1) then None else delete c m !! y)
      = if decide (y ∈ c :: l1) then None else m !! y).
    { intros m y. destruct (decide (y = c)) as [->|Hne].
      - rewrite lookup_delete_eq, (decide_True (P := c ∈ c :: l1)) by by left.
        by destruct (decide (c ∈ l1)).
      - rewrite lookup_delete_ne by done.
        destruct (decide (y ∈ l1)) as [Hin|Hout].
        + by rewrite decide_True by by right.
        + rewrite decide_False; [done|].
          by intros [?|?]%elem_of_cons. }
    split; intros y.
    + by rewrite Hpa', Hparent, Hlookup.
    + by rewrite Hnx', Hnext, Hlookup.
Qed.

(** X22.  [clear] on a dense container in which an object carrying
    [methods] or [timelineMethods] comes after plain display objects: the
    call ends in a [TypeError] raised by that object's [_deactivate].  The
    container is not emptied and still holds every child, the children in
    front of the object have lost parent and next sibling, and no other
    parent or sibling link has changed. *)
Theorem clear_container_child_raises (s : state) (owner : nat)
    (l1 l2 : list nat) (x : nat) :
  children s !! owner = Some (Some <$> l1 ++ x :: l2) ->
  (∀ c, c ∈ l1 -> kind_of s c = Plain) -> kind_of s x ≠ Plain ->
  ∃ s', clear owner s = (s', Abrupt TypeError) ∧
    children s' = children s ∧
    (∀ y, y ∈ l1 -> parent s' !! y = None ∧ next s' !! y = None) ∧
    (∀ y, y ∉ l1 ->
       parent s' !! y = parent s !! y ∧ next s' !! y = next s !! y).
Proof.
  intros Harr Hplain Hkind.
  destruct (clear_loop_stops owner x l2 l1 [] (length (l1 ++ x :: l2)) s)
    as (s' & Hrun & Hch & Hpa & Hnx); try done.
  { rewrite length_app. simpl. lia. }
  exists s'. split.
  - unfold clear.
    rewrite (bind_run _ _ s s _ (children_of_run _ _ _ Harr)).
    rewrite length_fmap. by apply bind_abrupt.
  - split; [done|]. split; intros y Hy.
    + by rewrite Hpa, Hnx, !decide_True.
    + by rewrite Hpa, Hnx, !decide_False.
Qed.

Lemma clear_container_child_raises_witness :
  ∃ s', clear 0 family_with_group = (s', Abrupt TypeError) ∧
    children s' = children family_with_group ∧
    (∀ y, y ∈ [1] -> parent s' !! y = None ∧ next s' !! y = None) ∧
    (∀ y, y ∉ [1] ->
       parent s' !! y = parent family_with_group !! y ∧
       next s' !! y = next family_with_group !! y).
Proof.
  apply (clear_container_child_raises family_with_group 0 [1] [3] 2).
  - reflexivity.
  - intros c ->%list_elem_of_singleton. reflexivity.
  - vm_compute. discriminate.
Defined.

(** ** Adding a child the owner already has *)

Lemma aget_ge arr i : length arr ≤ i -> aget arr i = None.
Proof. intros Hi. unfold aget. by rewrite lookup_ge_None_2. Qed.

Lemma add_prefix_spliced owner arr child k s :
  children s !! owner = Some arr -> dense arr -> k ≤ length arr ->
  (set_children owner (splice_in k (items_list child) arr) ;;
   (if 0 <? k
    then arr' ← children_of owner;
         match aget arr' (k - 1) with
         | Some prev => set_next prev (first_item child)
         | None => raise TypeError
         end
    else ret ())) s = (spliced owner arr child k s, Normal tt).
Proof.
  intros Harr Hdense Hk. unfold spliced.
  set (arr' := splice_in k (items_list child) arr).
  rewrite (bind_run _ _ s (with_children (insert owner arr') s) tt)
    by reflexivity.
  destruct (0 <? k) eqn:Hk0; [|done].
  apply Nat.ltb_lt in Hk0.
  rewrite (bind_run _ _ _ (with_children (insert owner arr') s) arr').
  2:{ apply children_of_run. apply lookup_insert_eq. }
  assert (aget arr' (k - 1) = aget arr (k - 1)) as ->
    by (apply aget_splice_in_before; [done|lia]).
  destruct (lookup_lt_is_Some_2 arr (k - 1)) as [slot Hslot]; [lia|].
  destruct (proj1 (Forall_lookup _ _) Hdense _ _ Hslot) as [p ->].
  unfold aget. by rewrite Hslot.
Qed.

Lemma add_run fuel owner arr anc child insertAt s :
  getAncestors fuel s owner = Some anc -> rejected anc child = false ->
  children s !! owner = Some arr -> dense arr ->
  let k := resolve_insertAt insertAt (length arr) in
  add fuel owner child insertAt s
  = add_loop owner k (numNewChildren child) None (spliced owner arr child k s).
Proof.
  intros Hanc Hrej Harr Hdense k.
  assert (Hk : k ≤ length arr) by apply resolve_insertAt_le.
  unfold add. rewrite Hanc, Hrej.
  rewrite (bind_run _ _ s s arr) by by apply children_of_run.
  fold k. cbv zeta.
  change (set_children owner (splice_in k (items_list child) arr) ;;
          (if 0 <? k
           then arr' ← children_of owner;
                match aget arr' (k - 1) with
                | Some prev => set_next prev (first_item child)
                | None => raise TypeError
                end
           else ret ()) ;;
          add_loop owner k (numNewChildren child) None)
    with ((set_children owner (splice_in k (items_list child) arr) ;;
           (if 0 <? k
            then arr' ← children_of owner;
                 match aget arr' (k - 1) with
                 | Some prev => set_next prev (first_item child)
                 | None => raise TypeError
                 end
            else ret ())) ≫=
          (fun _ => add_loop owner k (numNewChildren child) None)).
  by rewrite (bind_run _ _ s _ tt (add_prefix_spliced _ _ _ _ _ Harr Hdense Hk)).
Qed.

(** One iteration of the loop of [add] for a plain display object that has
    a parent. *)
Lemma add_loop_attached owner arr1 arr2 i x p s1 s2 :
  children s1 !! owner = Some arr1 -> aget arr1 i = Some x ->
  parent s1 !! x = Some p -> remove p x s1 = (s2, Normal tt) ->
  children s2 !! owner = Some arr2 -> kind_of s2 x = Plain ->
  add_loop owner i 1 None s1
  = (attach owner (aget arr2 (i + 1)) x s2, Normal tt).
Proof.
  intros Harr1 Hx Hp Hrem Harr2 Hplain. simpl add_loop.
  rewrite (bind_run _ _ s1 s1 arr1) by by apply children_of_run.
  rewrite Hx.
  rewrite (bind_run _ _ s1 s1 (Some p)) by (unfold parent_of, get; by rewrite Hp).
  rewrite (bind_run _ _ s1 s2 tt) by done.
  rewrite (bind_run _ _ s2 s2 arr2) by by apply children_of_run.
  erewrite bind_run by reflexivity. erewrite bind_run by reflexivity.
  erewrite bind_run by reflexivity.
  erewrite (bind_run (_activate x _)).
  2:{ rewrite activate_plain; [apply DisplayObject_activate_run|done]. }
  reflexivity.
Qed.

Lemma removed_next owner arr x k s y :
  y ≠ x ->
  next (removed owner arr x k s) !! y = next (relinked arr x k s) !! y.
Proof.
  intros Hy. unfold removed. simpl.
  destruct (unlinked_fields x (relinked arr x k s)) as (_ & _ & _ & -> & _).
  by apply lookup_delete_ne.
Qed.

Lemma same_registry_removed owner owner' arr arr' x k k' s t :
  same_registry s t ->
  same_registry (removed owner arr x k s) (removed owner' arr' x k' t).
Proof.
  intros (Hp & Hpa & Hst & Hd & Hn & Hm). unfold removed, same_registry. simpl.
  destruct (unlinked_fields x (relinked arr x k s))
    as (-> & _ & -> & _ & -> & -> & -> & ->).
  destruct (unlinked_fields x (relinked arr' x k' t))
    as (-> & _ & -> & _ & -> & -> & -> & ->).
  destruct (relinked_fields arr x k s) as (-> & _ & -> & -> & -> & -> & ->).
  destruct (relinked_fields arr' x k' t) as (-> & _ & -> & -> & -> & -> & ->).
  by rewrite Hp, Hpa, Hst, Hd, Hn, Hm.
Qed.

Lemma children_spliced owner arr child k s :
  children (spliced owner arr child k s)
  = <[owner:=splice_in k (items_list child) arr]> (children s).
Proof.
  unfold spliced. destruct (0 <? k); [|done]. by destruct (aget arr (k - 1)).
Qed.

Lemma next_spliced owner arr child k s :
  next (spliced owner arr child k s)
  = if 0 <? k
    then match aget arr (k - 1) with
         | Some prev => assign prev (first_item child) (next s)
         | None => next s
         end
    else next s.
Proof.
  unfold spliced. destruct (0 <? k); [|done]. by destruct (aget arr (k - 1)).
Qed.

Lemma same_registry_spliced owner arr child k s :
  same_registry (spliced owner arr child k s) s.
Proof.
  unfold spliced. destruct (0 <? k); [|done]. by destruct (aget arr (k - 1)).
Qed.

Lemma attach_eq owner x s t :
  same_registry s t -> children s = children t ->
  (∀ y, y ≠ x -> next s !! y = next t !! y) ->
  attach owner None x s = attach owner None x t.
Proof.
  intros (Hp & Hpa & Hst & Hd & Hn & Hm) Hch Hnext.
  assert (Hnx : delete x (next s) = delete x (next t)).
  { apply map_eq. intros y. destruct (decide (y = x)) as [->|Hy].
    - by rewrite !lookup_delete_eq.
    - rewrite !lookup_delete_ne by done. by apply Hnext. }
  unfold attach, DisplayObject_activate, modify, with_needsInsertion,
    with_displayObjects, with_stage, with_parent, with_next.
  destruct s, t. simpl in *. subst.
  destruct (stage1 !! owner); simpl; by rewrite Hnx.
Qed.

(** X23.  [add] without index of a plain display object that the owner
    already has as a child (in a dense container of distinct objects)
    moves it to the end: the call returns, and the store it leaves is the
    store that [remove] of the child followed by [add] of the then detached
    child leaves, although the loop of [add] removes the child from the
    very array it has just spliced it into. *)
Theorem add_own_child_is_remove_then_add (fuel : nat) (s : state) (owner : nat)
    (arr : list (option nat)) (anc : list nat) (x j : nat) :
  getAncestors fuel s owner = Some anc ->
  children s !! owner = Some arr -> dense arr -> NoDup arr ->
  arr !! j = Some (Some x) ->
  parent s !! x = Some owner -> kind_of s x = Plain ->
  ∃ s', add fuel owner (Single x) None s = (s', Normal tt) ∧
    (remove owner x ;; add fuel owner (Single x) None) s = (s', Normal tt) ∧
    children s' !! owner = Some (delete j arr ++ [Some x]) ∧
    parent s' !! x = Some owner ∧ next s' !! x = None.
Proof.
  intros Hanc Harr Hdense Hnd Hj Hpx Hplain.
  set (n := length arr).
  assert (Hjn : j < n) by by eapply lookup_lt_Some.
  assert (Hxa : x ∉ anc).
  { intros Hin. by apply (getAncestors_no_child _ _ _ _ x Hanc Hin). }
  assert (Hrej : rejected anc (Single x) = false).
  { simpl. by apply bool_decide_eq_false. }
  assert (Hk : indexOf arr x = Some j).
  { apply indexOf_Some_2; [done|]. intros i Hi Hix.
    pose proof (NoDup_lookup _ _ _ _ Hnd Hix Hj). lia. }
  assert (Hslot : ∀ i, i < n -> ∃ y, arr !! i = Some (Some y)).
  { intros i Hi. destruct (lookup_lt_is_Some_2 arr i Hi) as [slot Hslot].
    destruct (proj1 (Forall_lookup _ _) Hdense _ _ Hslot) as [y ->]. eauto. }
  (* the call on the child still in the container *)
  set (arr1 := splice_in n [x] arr).
  set (s1 := spliced owner arr (Single x) n s).
  assert (Harr1 : arr1 = arr ++ [Some x]) by apply splice_in_end.
  assert (Hch1 : children s1 = <[owner:=arr1]> (children s))
    by apply children_spliced.
  pose proof (same_registry_spliced owner arr (Single x) n s) as Hreg1.
  fold s1 in Hreg1.
  assert (Hk1 : indexOf arr1 x = Some j).
  { rewrite Harr1. apply indexOf_Some_2.
    - by rewrite lookup_app_l.
    - intros i Hi. rewrite lookup_app_l by (fold n; lia).
      by destruct (indexOf_Some _ _ _ Hk) as [_ Hfirst]; apply Hfirst. }
  assert (Hdense1 : dense arr1) by by apply dense_splice_in.
  assert (Hplain1 : kind_of s1 x = Plain).
  { unfold kind_of. by destruct Hreg1 as (-> & _). }
  set (s2 := removed owner arr1 x j s1).
  assert (Hrem1 : remove owner x s1 = (s2, Normal tt)).
  { apply remove_plain_run; try done. rewrite Hch1. apply lookup_insert_eq. }
  set (arr2 := delete j arr ++ [Some x]).
  assert (Hdel : delete j arr1 = arr2).
  { rewrite Harr1. unfold arr2. rewrite !delete_take_drop.
    rewrite take_app_le, drop_app_le by (fold n; lia).
    by rewrite <- (assoc_L (++)). }
  assert (Hlen2 : length arr2 = n).
  { unfold arr2. rewrite length_app, length_delete by by eexists.
    fold n. simpl. lia. }
  assert (Hch2 : children s2 = <[owner:=arr2]> (children s)).
  { unfold s2, removed. simpl.
    destruct (unlinked_fields x (relinked arr1 x j s1)) as (_ & -> & _).
    destruct (relinked_fields arr1 x j s1) as (_ & -> & _).
    by rewrite Hch1, insert_insert_eq, Hdel. }
  assert (HA : add fuel owner (Single x) None s
               = (attach owner None x s2, Normal tt)).
  { rewrite (add_run fuel owner arr anc) by done. simpl resolve_insertAt.
    fold n s1. simpl numNewChildren.
    rewrite (add_loop_attached owner arr1 arr2 n x owner s1 s2); try done.
    - do 2 f_equal. apply aget_ge. rewrite Hlen2. lia.
    - rewrite Hch1. apply lookup_insert_eq.
    - rewrite Harr1. apply aget_lookup.
      by rewrite lookup_app_r, Nat.sub_diag by (fold n; lia).
    - by destruct Hreg1 as (_ & -> & _).
    - rewrite Hch2. apply lookup_insert_eq.
    - unfold kind_of, s2, removed. simpl.
      destruct (unlinked_fields x (relinked arr1 x j s1)) as (-> & _).
      destruct (relinked_fields arr1 x j s1) as (-> & _). done. }
  (* [remove], then the call on the detached child *)
  set (t1 := removed owner arr x j s).
  assert (Hrem : remove owner x s = (t1, Normal tt))
    by by apply remove_plain_run.
  set (arrB := delete j arr).
  assert (HlenB : length arrB = n - 1).
  { unfold arrB. rewrite length_delete by by eexists. done. }
  assert (Ht1 : proto t1 = proto s ∧ parent t1 = delete x (parent s) ∧
                children t1 = <[owner:=arrB]> (children s)).
  { unfold t1, removed. simpl.
    destruct (unlinked_fields x (relinked arr x j s)) as (-> & -> & -> & _).
    by destruct (relinked_fields arr x j s) as (-> & -> & -> & _). }
  destruct Ht1 as (HprotoB & HparentB & HchB).
  set (t2 := spliced owner arrB (Single x) (n - 1) t1).
  pose proof (same_registry_spliced owner arrB (Single x) (n - 1) t1) as HregB.
  fold t2 in HregB.
  assert (HchB2 : children t2 = <[owner:=arr2]> (children s)).
  { unfold t2. rewrite children_spliced, HchB, insert_insert_eq.
    rewrite <- HlenB. by rewrite splice_in_end. }
  assert (HB : add fuel owner (Single x) None t1
               = (attach owner None x t2, Normal tt)).
  { rewrite (add_run fuel owner arrB anc); try done.
    - simpl resolve_insertAt. rewrite HlenB. fold t2. simpl numNewChildren.
      change (add_loop owner (n - 1) 1 None t2)
        with (add_loop owner (n - 1) (length [x]) None t2).
      rewrite (add_loop_detached owner arr2 [x] (n - 1) None t2); try done.
      + simpl. do 3 f_equal. apply aget_ge. rewrite Hlen2. lia.
      + rewrite HchB2. apply lookup_insert_eq.
      + intros [|i] y Hy; [|done]. injection Hy as <-.
        unfold arr2. fold arrB. apply aget_lookup.
        rewrite lookup_app_r by lia.
        rewrite HlenB, Nat.add_0_r, Nat.sub_diag. done.
      + by left.
      + apply NoDup_singleton.
      + intros y ->%list_elem_of_singleton.
        destruct HregB as (Hp & Hpa & _). unfold kind_of.
        rewrite Hp, Hpa, HprotoB, HparentB. split; [apply lookup_delete_eq|done].
    - apply (getAncestors_ext fuel s); [|done].
      intros y Hy. rewrite HparentB. apply lookup_delete_ne. by intros ->.
    - rewrite HchB. apply lookup_insert_eq.
    - by apply dense_delete. }
  (* both runs end in the same store *)
  assert (Heq : attach owner None x s2 = attach owner None x t2).
  { apply attach_eq.
    - pose proof (same_registry_removed owner owner arr1 arr x j j s1 s Hreg1)
        as Hreg2.
      fold s2 t1 in Hreg2. unfold same_registry in *.
      destruct Hreg2 as (-> & -> & -> & -> & -> & ->).
      by destruct HregB as (-> & -> & -> & -> & -> & ->).
    - by rewrite Hch2, HchB2.
    - intros y Hy. unfold s2. rewrite removed_next by done.
      destruct (Hslot (n - 1)) as [pl Hpl]; [lia|].
      assert (Hl : ∀ z, next s1 !! z
                        = if decide (z = pl) then Some x else next s !! z).
      { intros z. unfold s1. rewrite next_spliced.
        replace (0 <? n) with true by (symmetry; apply Nat.ltb_lt; lia).
        rewrite (proj2 (aget_lookup _ _ _) Hpl). simpl.
        case_decide as Hz; [subst z; apply lookup_insert_eq|].
        by apply lookup_insert_ne. }
      assert (Ht : next t2 !! y
                = if 0 <? n - 1
                  then match aget arrB (n - 1 - 1) with
                       | Some prev =>
                           if decide (y = prev) then Some x
                           else next (relinked arr x j s) !! y
                       | None => next (relinked arr x j s) !! y
                       end
                  else next (relinked arr x j s) !! y).
      { unfold t2. rewrite next_spliced.
        destruct (0 <? n - 1); [destruct (aget arrB (n - 1 - 1)) as [prev|]|];
          simpl; [case_decide as Hz| |];
          try (by apply (removed_next owner arr x j s y Hy)).
        - subst y. apply lookup_insert_eq.
        - rewrite lookup_insert_ne by done.
          by apply (removed_next owner arr x j s y Hy). }
      rewrite Ht. clear Ht.
      destruct j as [|j'].
      + (* the child is the first element *)
        unfold relinked. simpl. rewrite Hl.
        destruct (decide (n = 1)) as [Hn1|Hn1].
        * replace (0 <? n - 1) with false by (symmetry; apply Nat.ltb_ge; lia).
          rewrite decide_False; [done|]. intros ->.
          replace (n - 1) with 0 in Hpl by lia. congruence.
        * replace (0 <? n - 1) with true by (symmetry; apply Nat.ltb_lt; lia).
          assert (aget arrB (n - 1 - 1) = Some pl) as ->.
          { apply aget_lookup. unfold arrB.
            rewrite list_lookup_delete_ge by lia.
            by replace (S (n - 1 - 1)) with (n - 1) by lia. }
          done.
      + (* the child has an element before it *)
        destruct (Hslot j') as [p Hp]; [lia|].
        assert (Hpx' : p ≠ x).
        { intros ->. pose proof (NoDup_lookup _ _ _ _ Hnd Hp Hj). lia. }
        assert (Hrel : ∀ (arr0 : list (option nat)) s0,
          aget arr0 j' = Some p ->
          next (relinked arr0 x (S j') s0) !! y
          = if decide (y = p) then next s0 !! x else next s0 !! y).
        { intros arr0 s0 Hp0. unfold relinked. simpl.
          rewrite Nat.sub_0_r, Hp0. simpl.
          case_decide as Hz; [subst y; apply lookup_assign_eq|].
          by apply lookup_assign_ne. }
        rewrite (Hrel arr1 s1), (Hrel arr s), !Hl.
        2:{ by apply aget_lookup. }
        2:{ apply aget_lookup. rewrite Harr1. by rewrite lookup_app_l by lia. }
        replace (0 <? n - 1) with true by (symmetry; apply Nat.ltb_lt; lia).
        destruct (decide (S j' = n - 1)) as [Hlast|Hlast].
        * (* the child is the last element *)
          assert (pl = x) as -> by (rewrite <- Hlast in Hpl; congruence).
          assert (aget arrB (n - 1 - 1) = Some p) as ->.
          { apply aget_lookup. unfold arrB.
            rewrite list_lookup_delete_lt by lia.
            by replace (n - 1 - 1) with j' by lia. }
          rewrite (decide_True (P := x = x)) by done.
          rewrite (decide_False (P := y = x)) by done.
          by destruct (decide (y = p)).
        * assert (aget arrB (n - 1 - 1) = Some pl) as ->.
          { apply aget_lookup. unfold arrB.
            rewrite list_lookup_delete_ge by lia.
            by replace (S (n - 1 - 1)) with (n - 1) by lia. }
          assert (Hxpl : x ≠ pl).
          { intros ->. pose proof (NoDup_lookup _ _ _ _ Hnd Hpl Hj). lia. }
          assert (Hppl : p ≠ pl).
          { intros ->. pose proof (NoDup_lookup _ _ _ _ Hnd Hpl Hp). lia. }
          rewrite (decide_False (P := x = pl)) by done.
          destruct (decide (y = p)) as [->|Hyp].
          -- by rewrite decide_False.
          -- done. }
  exists (attach owner None x s2). split; [done|]. split.
  { rewrite (bind_run _ _ s t1 tt) by done. by rewrite HB, Heq. }
  rewrite children_attach, parent_attach, next_attach, Hch2.
  split; [apply lookup_insert_eq|]. split; [apply lookup_insert_eq|].
  apply lookup_delete_eq.
Qed.

Lemma add_own_child_is_remove_then_add_witness :
  ∃ s', add 2 0 (Single 3) None family = (s', Normal tt) ∧
    (remove 0 3 ;; add 2 0 (Single 3) None) family = (s', Normal tt) ∧
    children s' !! 0 = Some (delete 2 [Some 1; Some 2; Some 3] ++ [Some 3]) ∧
    parent s' !! 3 = Some 0 ∧ next s' !! 3 = None.
Proof.
  apply (add_own_child_is_remove_then_add 2 family 0
           [Some 1; Some 2; Some 3] [0] 3 2).
  - reflexivity.
  - reflexivity.
  - repeat constructor; by eexists.
  - by apply (bool_decide_unpack _).
  - reflexivity.
  - reflexivity.
  - reflexivity.
Defined.

(** ** Parents own a display list *)




